(** * A verification model of the Wikipedia crawler (main.py)

    The development follows the program top-down the way the source file is
    laid out: the URL helpers the program imports from [urllib.parse], the
    [WikiLinkParser] class with [parse_links], the two SQLite tables behind
    [Crawler.is_visited] / [mark_visited] / [save_links], the worker loop and
    [Crawler.crawl] as an interleaved small-step machine, and finally the
    command-line check [is_valid_wikipedia_url]. *)

From Stdlib Require Import ZArith Lia Ascii String.
From stdpp Require Import base strings list gmap sets.

Local Open Scope Z_scope.

(** ** Python string helpers *)

Module Py.

(** [s[n:]] *)
Fixpoint drop_str (n : nat) (s : string) : string :=
  match n, s with
  | O, _ => s
  | S _, EmptyString => EmptyString
  | S n', String _ s' => drop_str n' s'
  end.

(** [s[:n]] *)
Fixpoint take_str (n : nat) (s : string) : string :=
  match n, s with
  | O, _ => EmptyString
  | S _, EmptyString => EmptyString
  | S n', String c s' => String c (take_str n' s')
  end.

(** [s.startswith(p)] *)
Fixpoint startswith (p s : string) : bool :=
  match p, s with
  | EmptyString, _ => true
  | String a p', String b s' => if Ascii.eqb a b then startswith p' s' else false
  | String _ _, EmptyString => false
  end.

(** [p in s] for strings: [p] occurs somewhere in [s]. *)
Fixpoint contains (p s : string) : bool :=
  startswith p s ||
  match s with
  | EmptyString => false
  | String _ s' => contains p s'
  end.

(** [c in s] for a single character. *)
Fixpoint has_char (c : ascii) (s : string) : bool :=
  match s with
  | EmptyString => false
  | String a s' => Ascii.eqb a c || has_char c s'
  end.

(** [s.find(c)], with [None] for Python's [-1]. *)
Fixpoint find_char (c : ascii) (s : string) : option nat :=
  match s with
  | EmptyString => None
  | String a s' =>
      if Ascii.eqb a c then Some O
      else match find_char c s' with
           | Some i => Some (S i)
           | None => None
           end
  end.

(** [s.rfind(c)]. *)
Fixpoint rfind_char (c : ascii) (s : string) : option nat :=
  match s with
  | EmptyString => None
  | String a s' =>
      match rfind_char c s' with
      | Some i => Some (S i)
      | None => if Ascii.eqb a c then Some O else None
      end
  end.

(** [s.split(c, 1)] when [c in s]: the text before and after the first
    occurrence of [c]; the whole string and the empty one otherwise. *)
Definition split_once (c : ascii) (s : string) : string * string :=
  match find_char c s with
  | Some i => (take_str i s, drop_str (S i) s)
  | None => (s, EmptyString)
  end.

(** [s.split(c)]: never the empty list. *)
Fixpoint split (c : ascii) (s : string) : list string :=
  match s with
  | EmptyString => [EmptyString]
  | String a s' =>
      if Ascii.eqb a c then EmptyString :: split c s'
      else match split c s' with
           | w :: ws => String a w :: ws
           | [] => [String a EmptyString]
           end
  end.

(** [c.join(l)] *)
Fixpoint join (c : string) (l : list string) : string :=
  match l with
  | [] => EmptyString
  | [w] => w
  | w :: ws => w +:+ c +:+ join c ws
  end.

Definition is_upper (c : ascii) : bool :=
  let n := nat_of_ascii c in (65 <=? n)%nat && (n <=? 90)%nat.
Definition is_lower (c : ascii) : bool :=
  let n := nat_of_ascii c in (97 <=? n)%nat && (n <=? 122)%nat.
Definition is_digit (c : ascii) : bool :=
  let n := nat_of_ascii c in (48 <=? n)%nat && (n <=? 57)%nat.
(** [c.isascii() and c.isalpha()] *)
Definition is_ascii_alpha (c : ascii) : bool := is_upper c || is_lower c.

Definition lower_char (c : ascii) : ascii :=
  if is_upper c then ascii_of_nat (nat_of_ascii c + 32) else c.

(** [s.lower()] on ASCII text. *)
Fixpoint lower (s : string) : string :=
  match s with
  | EmptyString => EmptyString
  | String a s' => String (lower_char a) (lower s')
  end.

Fixpoint all_chars (p : ascii -> bool) (s : string) : bool :=
  match s with
  | EmptyString => true
  | String a s' => p a && all_chars p s'
  end.

Fixpoint filter_chars (p : ascii -> bool) (s : string) : string :=
  match s with
  | EmptyString => EmptyString
  | String a s' => if p a then String a (filter_chars p s') else filter_chars p s'
  end.

Fixpoint lstrip (p : ascii -> bool) (s : string) : string :=
  match s with
  | EmptyString => EmptyString
  | String a s' => if p a then lstrip p s' else s
  end.

Fixpoint rstrip (p : ascii -> bool) (s : string) : string :=
  match s with
  | EmptyString => EmptyString
  | String a s' =>
      match rstrip p s' with
      | EmptyString => if p a then EmptyString else String a EmptyString
      | r => String a r
      end
  end.

Definition strip (p : ascii -> bool) (s : string) : string :=
  rstrip p (lstrip p s).

(** Truthiness of a string: [bool(s)]. *)
Definition truthy (s : string) : bool :=
  match s with EmptyString => false | _ => true end.

(** [x in l] for a list of strings. *)
Definition mem (x : string) (l : list string) : bool :=
  existsb (String.eqb x) l.

End Py.

(** ** The part of [urllib.parse] the program calls

    [urlparse] and [urljoin] are imported by main.py from the Python
    standard library.  They are written out here after CPython 3.12's
    [Lib/urllib/parse.py], for text URLs (the three scheme tables differ
    between releases in entries other than http and https, which are the
    only ones the statements below depend on).  Two things CPython does are left
    out: the [ValueError] it raises when the authority holds an unbalanced
    or malformed [[...]] host, and the NFKC check of a non-ASCII authority;
    the model is meant for URLs without brackets in the authority. *)

Module Url.

Record ParseResult := mkParseResult {
  scheme : string;
  netloc : string;
  path : string;
  params : string;
  query : string;
  fragment : string
}.

Definition uses_relative : list string :=
  [""; "ftp"; "http"; "gopher"; "nntp"; "imap"; "wais"; "file"; "https";
   "shttp"; "mms"; "prospero"; "rtsp"; "rtsps"; "rtspu"; "sftp"; "svn";
   "svn+ssh"; "ws"; "wss"].

Definition uses_netloc : list string :=
  [""; "ftp"; "http"; "gopher"; "nntp"; "telnet"; "imap"; "wais"; "file";
   "mms"; "https"; "shttp"; "snews"; "prospero"; "rtsp"; "rtsps"; "rtspu";
   "rsync"; "svn"; "svn+ssh"; "sftp"; "nfs"; "git"; "git+ssh"; "ws"; "wss";
   "itms-services"].

Definition uses_params : list string :=
  [""; "ftp"; "hdl"; "prospero"; "http"; "imap"; "https"; "shttp"; "rtsp";
   "rtsps"; "rtspu"; "sip"; "sips"; "mms"; "sftp"; "tel"].

(** [scheme_chars]: letters, digits and [+-.] *)
Definition scheme_char (c : ascii) : bool :=
  Py.is_ascii_alpha c || Py.is_digit c || Py.has_char c "+-.".

(** [_WHATWG_C0_CONTROL_OR_SPACE]: code points 0 to 32. *)
Definition c0_control_or_space (c : ascii) : bool :=
  (nat_of_ascii c <=? 32)%nat.

(** [_UNSAFE_URL_BYTES_TO_REMOVE]: tab, carriage return, line feed. *)
Definition unsafe_url_byte (c : ascii) : bool :=
  let n := nat_of_ascii c in
  (n =? 9)%nat || (n =? 13)%nat || (n =? 10)%nat.

(** [_splitnetloc(url, 2)]: the authority ends at the first of [/?#]. *)
Fixpoint span_netloc (s : string) : string * string :=
  match s with
  | EmptyString => (EmptyString, EmptyString)
  | String a s' =>
      if Py.has_char a "/?#" then (EmptyString, s)
      else let '(n, r) := span_netloc s' in (String a n, r)
  end.

Definition splitnetloc (url : string) : string * string :=
  span_netloc (Py.drop_str 2 url).

(** The scheme test of [urlsplit]: a colon not in first place, a first
    character that is an ASCII letter, and only scheme characters before
    the colon.  Gives the lower-cased scheme and the text after the colon. *)
Definition split_scheme (url : string) : option (string * string) :=
  match Py.find_char ":" url, url with
  | Some (S i), String c0 _ =>
      if Py.is_ascii_alpha c0 && Py.all_chars scheme_char (Py.take_str (S i) url)
      then Some (Py.lower (Py.take_str (S i) url), Py.drop_str (S (S i)) url)
      else None
  | _, _ => None
  end.

Definition remove_unsafe (s : string) : string :=
  Py.filter_chars (fun c => negb (unsafe_url_byte c)) s.

(** What [urlsplit] does once the scheme is off: authority, fragment,
    query, in that order. *)
Definition split_rest (url : string) : string * string * string * string :=
  let '(nl, url) :=
    if Py.startswith "//" url then splitnetloc url else (EmptyString, url) in
  let '(url, frag) :=
    if Py.has_char "#" url then Py.split_once "#" url else (url, EmptyString) in
  let '(url, q) :=
    if Py.has_char "?" url then Py.split_once "?" url else (url, EmptyString) in
  (nl, url, q, frag).

(** [urlsplit(url, scheme)] as (scheme, netloc, path, query, fragment). *)
Definition urlsplit (url0 default_scheme : string)
  : string * string * string * string * string :=
  let url := remove_unsafe (Py.lstrip c0_control_or_space url0) in
  let sch := remove_unsafe (Py.strip c0_control_or_space default_scheme) in
  let '(sch, url) :=
    match split_scheme url with
    | Some (s, rest) => (s, rest)
    | None => (sch, url)
    end in
  let '(nl, p, q, frag) := split_rest url in
  (sch, nl, p, q, frag).

(** [_splitparams(url)] *)
Definition splitparams (url : string) : string * string :=
  match Py.rfind_char "/" url with
  | Some j =>
      match Py.find_char ";" (Py.drop_str j url) with
      | Some i => (Py.take_str (j + i) url, Py.drop_str (S (j + i)) url)
      | None => (url, EmptyString)
      end
  | None =>
      match Py.find_char ";" url with
      | Some i => (Py.take_str i url, Py.drop_str (S i) url)
      | None =>
          (* [i = -1]: [url[:-1], url[0:]] *)
          (Py.take_str (String.length url - 1) url, url)
      end
  end.

Definition urlparse_with (url default_scheme : string) : ParseResult :=
  let '(sch, nl, p, q, frag) := urlsplit url default_scheme in
  let '(p, prm) :=
    if Py.mem sch uses_params && Py.has_char ";" p
    then splitparams p else (p, EmptyString) in
  mkParseResult sch nl p prm q frag.

(** [urlparse(url)] *)
Definition urlparse (url : string) : ParseResult := urlparse_with url "".

(** [urlunsplit((scheme, netloc, url, query, fragment))] *)
Definition urlunsplit (sch nl url q frag : string) : string :=
  let url :=
    if Py.truthy nl ||
       (Py.truthy sch && Py.mem sch uses_netloc && negb (Py.startswith "//" url))
    then
      let url := if Py.truthy url && negb (Py.startswith "/" url)
                 then "/" +:+ url else url in
      "//" +:+ nl +:+ url
    else url in
  let url := if Py.truthy sch then sch +:+ ":" +:+ url else url in
  let url := if Py.truthy q then url +:+ "?" +:+ q else url in
  if Py.truthy frag then url +:+ "#" +:+ frag else url.

(** [urlunparse(components)] *)
Definition urlunparse (r : ParseResult) : string :=
  let url := if Py.truthy (params r) then path r +:+ ";" +:+ params r else path r in
  urlunsplit (scheme r) (netloc r) url (query r) (fragment r).

(** The loop of [urljoin] over the path segments: [..] pops (and is
    ignored on an empty stack), [.] is skipped. *)
Fixpoint resolve_segments (segs : list string) (resolved : list string)
  : list string :=
  match segs with
  | [] => resolved
  | seg :: rest =>
      if String.eqb seg ".." then resolve_segments rest (removelast resolved)
      else if String.eqb seg "." then resolve_segments rest resolved
      else resolve_segments rest (resolved ++ [seg])%list
  end.

(** [segments[1:-1] = filter(None, segments[1:-1])] *)
Definition filter_inner (segs : list string) : list string :=
  match segs with
  | [] => []
  | [x] => [x]
  | x :: rest =>
      x :: (List.filter Py.truthy (removelast rest) ++ [List.last rest EmptyString])%list
  end.

(** [urljoin(base, url)] *)
Definition urljoin (base url : string) : string :=
  if negb (Py.truthy base) then url
  else if negb (Py.truthy url) then base
  else
    let b := urlparse base in
    let u := urlparse_with url (scheme b) in
    if negb (String.eqb (scheme u) (scheme b)) || negb (Py.mem (scheme u) uses_relative)
    then url
    else if Py.mem (scheme u) uses_netloc && Py.truthy (netloc u)
    then urlunparse u
    else
      let nl := if Py.mem (scheme u) uses_netloc then netloc b else netloc u in
      if negb (Py.truthy (path u)) && negb (Py.truthy (params u)) then
        urlunparse (mkParseResult (scheme u) nl (path b) (params b)
                      (if Py.truthy (query u) then query u else query b)
                      (fragment u))
      else
        let base_parts := Py.split "/" (path b) in
        let base_parts :=
          if Py.truthy (List.last base_parts EmptyString)
          then removelast base_parts else base_parts in
        let segments :=
          if Py.startswith "/" (path u) then Py.split "/" (path u)
          else filter_inner (base_parts ++ Py.split "/" (path u))%list in
        let resolved := resolve_segments segments [] in
        let lastseg := List.last segments EmptyString in
        let resolved :=
          if String.eqb lastseg "." || String.eqb lastseg ".."
          then (resolved ++ [EmptyString])%list else resolved in
        let joined := Py.join "/" resolved in
        urlunparse (mkParseResult (scheme u) nl
                      (if Py.truthy joined then joined else "/")
                      (params u) (query u) (fragment u)).

End Url.

(** ** [WikiLinkParser] and [parse_links]

    [HTMLParser.feed] is library code: it scans the text and calls
    [handle_starttag(tag, attrs)] once per start tag, in document order,
    with the tag and attribute names lower-cased.  A page is therefore
    represented by that sequence of calls; everything the program itself does
    with a tag is below. *)

Definition attrs_t := list (string * option string).
Definition markup := list (string * attrs_t).

(** [dict(attrs).get(key)]: the last pair with that key wins; a missing key
    and a value of [None] both give [None]. *)
Definition dict_get (key : string) (attrs : attrs_t) : option string :=
  fold_left (fun acc kv => if String.eqb (fst kv) key then snd kv else acc)
            attrs None.

Module WikiLinkParser.

Definition is_wiki_article (href : string) : bool :=
  let parsed_href := Url.urlparse href in
  if Py.truthy (Url.fragment parsed_href) then false
  else if Py.startswith "/wiki/" (Url.path parsed_href)
          && negb (Py.startswith "/wiki/Special:" (Url.path parsed_href))
       then true
       else false.

(** One call of [handle_starttag] on a parser whose fields are
    [base_url] and [links]; the result is the new [links]. *)
Definition handle_starttag (base_url : string) (links : gset string)
           (tag : string) (attrs : attrs_t) : gset string :=
  if String.eqb tag "a" then
    match dict_get "href" attrs with
    | Some href =>
        if Py.truthy href && is_wiki_article href
        then {[ Url.urljoin base_url href ]} ∪ links
        else links
    | None => links
    end
  else links.

Definition feed (base_url : string) (links : gset string)
           (html_content : markup) : gset string :=
  fold_left (fun acc t => handle_starttag base_url acc (fst t) (snd t))
            html_content links.

End WikiLinkParser.

Definition parse_links (html_content : markup) (base_url : string) : gset string :=
  WikiLinkParser.feed base_url ∅ html_content.

(** ** The SQLite file: tables [links] and [visited]

    A table is the list of its rows.  [url TEXT PRIMARY KEY] is what
    [INSERT OR IGNORE] tests: a row whose key is already there is not
    inserted. *)

Record database := mkDatabase {
  links_table : list string;
  visited_table : list (string * Z)
}.

(** [CREATE TABLE IF NOT EXISTS]: an existing file keeps its rows. *)
Definition initialize_database (file : option database) : database :=
  match file with
  | Some db => db
  | None => mkDatabase [] []
  end.

(** [INSERT OR IGNORE INTO visited (url, depth) VALUES (?, ?)] *)
Definition insert_or_ignore_visited (url : string) (depth : Z)
           (rows : list (string * Z)) : list (string * Z) :=
  if existsb (fun row => String.eqb (fst row) url) rows then rows
  else rows ++ [(url, depth)].

(** [INSERT OR IGNORE INTO links (url) VALUES (?)] *)
Definition insert_or_ignore_link (rows : list string) (url : string) : list string :=
  if Py.mem url rows then rows else rows ++ [url].

(** ** [Crawler] *)

Record Crawler := mkCrawler {
  start_url : string;
  max_depth : Z;
  conn : database;
  queue : list (string * Z);
  unfinished_tasks : nat;
  visited : gset string;
  num_threads : nat;
  total_links_processed : Z;
  stop_event : bool
}.

(** [Crawler.__init__]; [file] is what [wikipedia_links.db] holds before
    the session, if it exists. *)
Definition Crawler_init (file : option database) (start_url : string)
           (max_depth : Z) (num_threads : nat) : Crawler :=
  {| start_url := start_url;
     max_depth := max_depth;
     conn := initialize_database file;
     queue := [(start_url, 0)];
     unfinished_tasks := 1;
     visited := ∅;
     num_threads := num_threads;
     total_links_processed := 0;
     stop_event := false |}.

Definition with_conn (db : database) (c : Crawler) : Crawler :=
  mkCrawler (start_url c) (max_depth c) db (queue c) (unfinished_tasks c)
            (visited c) (num_threads c) (total_links_processed c) (stop_event c).

Definition with_queue (q : list (string * Z)) (n : nat) (c : Crawler) : Crawler :=
  mkCrawler (start_url c) (max_depth c) (conn c) q n
            (visited c) (num_threads c) (total_links_processed c) (stop_event c).

Definition with_visited (v : gset string) (c : Crawler) : Crawler :=
  mkCrawler (start_url c) (max_depth c) (conn c) (queue c) (unfinished_tasks c)
            v (num_threads c) (total_links_processed c) (stop_event c).

Definition with_total (n : Z) (c : Crawler) : Crawler :=
  mkCrawler (start_url c) (max_depth c) (conn c) (queue c) (unfinished_tasks c)
            (visited c) (num_threads c) n (stop_event c).

Definition with_stop (b : bool) (c : Crawler) : Crawler :=
  mkCrawler (start_url c) (max_depth c) (conn c) (queue c) (unfinished_tasks c)
            (visited c) (num_threads c) (total_links_processed c) b.

(** [SELECT 1 FROM visited WHERE url = ?] *)
Definition is_visited (url : string) (c : Crawler) : bool :=
  existsb (fun row => String.eqb (fst row) url) (visited_table (conn c)).

Definition mark_visited (url : string) (depth : Z) (c : Crawler) : Crawler :=
  let db := conn c in
  let db' := mkDatabase (links_table db)
                        (insert_or_ignore_visited url depth (visited_table db)) in
  with_visited ({[ url ]} ∪ visited c) (with_conn db' c).

(** The two statements of [mark_visited] that change something, in the
    order of the source: the row is inserted, then (past the [commit]) the
    URL is added to [self.visited].  [mark_visited] above is the one after
    the other. *)
Definition insert_visited (url : string) (depth : Z) (c : Crawler) : Crawler :=
  let db := conn c in
  with_conn (mkDatabase (links_table db)
                        (insert_or_ignore_visited url depth (visited_table db))) c.

Definition visited_add (url : string) (c : Crawler) : Crawler :=
  with_visited ({[ url ]} ∪ visited c) c.

(** An SQLite INTEGER has 64 bits: [execute] raises [OverflowError] on a
    Python int outside this range, and nothing is inserted. *)
Definition sqlite_integer (n : Z) : bool :=
  (- 2 ^ 63 <=? n) && (n <? 2 ^ 63).

(** [executemany] runs the insert once per element of the set.  The order
    in which Python goes through a set is not fixed; [elements] is one
    order.  What is proved below does not depend on the order of the new
    rows. *)
Definition save_links (links : gset string) (c : Crawler) : Crawler :=
  let db := conn c in
  with_conn (mkDatabase (fold_left insert_or_ignore_link (elements links) (links_table db))
                        (visited_table db)) c.

(** [self.queue.put(item)] *)
Definition queue_put (item : string * Z) (c : Crawler) : Crawler :=
  with_queue (queue c ++ [item]) (S (unfinished_tasks c)) c.

(** [self.queue.task_done()] *)
Definition task_done (c : Crawler) : Crawler :=
  with_queue (queue c) (pred (unfinished_tasks c)) c.

(** ** The worker loop and [crawl] as an interleaved machine

    Each thread is a program counter into its method; one step is one
    access to the shared [Crawler] object.  The queue is thread-safe.  The
    database and [total_links_processed] are touched under [db_lock]: a
    worker that needs the lock cannot move while another worker holds it.
    A membership test on [self.visited] is a single read and takes no lock,
    so it can fall between the insert and the [add] of another worker's
    [mark_visited].  Any call inside the [try] of the loop can raise; the
    worker then prints, calls [task_done] and goes round.  The scheduler is
    the list of events a run is made of. *)

(** Where a worker stands in [Crawler.worker]. *)
Inductive worker_pc :=
| AtLoop                                     (* while not self.stop_event.is_set() *)
| AtGet                                      (* self.queue.get(timeout=1) *)
| AtCheck (current_url : string) (depth : Z) (* the two drop tests *)
| AtFetch (current_url : string) (depth : Z) (* fetch_page, parse_links *)
| AtSave (current_url : string) (depth : Z) (links : gset string)
| AtMark (current_url : string) (depth : Z) (links : gset string)
| AtAdd (current_url : string) (depth : Z) (links : gset string)
                                             (* in mark_visited, db_lock held:
                                                row inserted, visited.add next *)
| AtPut (current_url : string) (depth : Z) (rest : list string)
| AtCount (current_url : string) (depth : Z) (* counter, then finally: task_done *)
| Exited.

(** Where the main thread stands in [Crawler.crawl]. *)
Inductive main_pc :=
| Spawning            (* for _ in range(self.num_threads) *)
| Polling             (* while not self.queue.empty(): sleep *)
| Joining (i : nat)   (* finally: for thread in threads: thread.join() *)
| Finished            (* after self.conn.close() *)
| Aborted.            (* left by a KeyboardInterrupt raised inside finally *)

(** What a run leaves behind, most recent first. *)
Inductive obs :=
| Processing (w : nat) (url : string) (depth : Z)        (* passed both tests *)
| Fetch (w : nat) (url : string) (depth : Z) (ok : bool) (* fetch_page called *)
| Mark (w : nat) (url : string) (depth : Z).             (* mark_visited returned *)

Inductive event :=
| Run (w : nat) (response : option markup) (* worker [w] moves; [response] is
                                             what [fetch_page] gives if this
                                             is the fetch: [None] = it raises *)
| Tick                                     (* the main thread moves *)
| KeyboardInterrupt                        (* Ctrl-C reaches the main thread *)
| Raise (w : nat).                         (* worker [w] moves and the call it
                                             makes raises: parse_links on the
                                             page that has come, save_links,
                                             or mark_visited *)

Record system := mkSystem {
  crawler : Crawler;
  workers : list worker_pc;
  main : main_pc;
  trace : list obs
}.

(** One step of worker [w] standing at [pc]. *)
Definition worker_step (w : nat) (response : option markup)
           (pc : worker_pc) (c : Crawler)
  : option (worker_pc * Crawler * list obs) :=
  match pc with
  | AtLoop =>
      if stop_event c then Some (Exited, c, []) else Some (AtGet, c, [])
  | AtGet =>
      match queue c with
      | [] => Some (AtLoop, c, [])                          (* except Empty: continue *)
      | (current_url, depth) :: q =>
          Some (AtCheck current_url depth, with_queue q (unfinished_tasks c) c, [])
      end
  | AtCheck current_url depth =>
      if depth >? max_depth c then Some (AtLoop, task_done c, [])
      else if bool_decide (current_url ∈ visited c) then Some (AtLoop, task_done c, [])
      else Some (AtFetch current_url depth, c, [Processing w current_url depth])
  | AtFetch current_url depth =>
      match response with
      | Some html_content =>
          Some (AtSave current_url depth (parse_links html_content current_url), c,
                [Fetch w current_url depth true])
      | None =>                                             (* except ...: print *)
          Some (AtLoop, task_done c, [Fetch w current_url depth false])
      end
  | AtSave current_url depth links =>
      Some (AtMark current_url depth links, save_links links c, [])
  | AtMark current_url depth links =>
      if sqlite_integer depth
      then Some (AtAdd current_url depth links, insert_visited current_url depth c, [])
      else Some (AtLoop, task_done c, [])                   (* OverflowError *)
  | AtAdd current_url depth links =>
      Some (AtPut current_url depth (elements links),
            visited_add current_url c, [Mark w current_url depth])
  | AtPut current_url depth (link :: rest) =>
      if bool_decide (link ∈ visited c)
      then Some (AtPut current_url depth rest, c, [])
      else Some (AtPut current_url depth rest, queue_put (link, depth + 1) c, [])
  | AtPut current_url depth [] =>
      Some (AtCount current_url depth, c, [])
  | AtCount current_url depth =>
      Some (AtLoop,
            task_done (with_total (total_links_processed c + 1) c), [])
  | Exited => None
  end.

(** One step of worker [w] when the call it makes at [pc] raises:
    [except Exception: print], then [finally: task_done].  [save_links] and
    the [execute] of [mark_visited] raise before they have changed anything;
    when it is the [commit] of [mark_visited] that raises, the inserted row
    stays with the connection, [self.visited.add] is skipped and [db_lock] is
    released. *)
Definition except_step (w : nat) (pc : worker_pc) (c : Crawler)
  : option (worker_pc * Crawler * list obs) :=
  match pc with
  | AtFetch current_url depth =>                            (* parse_links raises *)
      Some (AtLoop, task_done c, [Fetch w current_url depth true])
  | AtSave _ _ _ | AtMark _ _ _ | AtAdd _ _ _ => Some (AtLoop, task_done c, [])
  | _ => None
  end.

(** [db_lock]: held from the insert of [mark_visited] to its [add]; taken
    by [save_links], by [mark_visited] and for the counter. *)
Definition holds_lock (pc : worker_pc) : bool :=
  match pc with
  | AtAdd _ _ _ => true
  | _ => false
  end.

Definition takes_lock (pc : worker_pc) : bool :=
  match pc with
  | AtSave _ _ _ | AtMark _ _ _ | AtCount _ _ => true
  | _ => false
  end.

Definition blocked (pc : worker_pc) (ws : list worker_pc) : bool :=
  takes_lock pc && existsb holds_lock ws.

(** One step of the main thread in [crawl]. *)
Definition main_step (s : system) : option system :=
  match main s with
  | Spawning =>
      if (length (workers s) <? num_threads (crawler s))%nat
      then Some (mkSystem (crawler s) (workers s ++ [AtLoop]) Spawning (trace s))
      else Some (mkSystem (crawler s) (workers s) Polling (trace s))
  | Polling =>
      match queue (crawler s) with
      | [] => Some (mkSystem (crawler s) (workers s) (Joining 0) (trace s))
      | _ :: _ => Some s                                    (* time.sleep(0.1) *)
      end
  | Joining i =>
      match workers s !! i with
      | Some Exited => Some (mkSystem (crawler s) (workers s) (Joining (S i)) (trace s))
      | Some _ => Some s                                    (* join blocks *)
      | None => Some (mkSystem (crawler s) (workers s) Finished (trace s))
      end
  | Finished | Aborted => None
  end.

(** Ctrl-C.  Inside the [try] block [except KeyboardInterrupt] sets the
    stop flag and [crawl] goes on to [finally].  Inside [finally], while
    [crawl] is joining, nothing catches it: [crawl] is left at once, the stop
    flag is as it was and the workers run on. *)
Definition interrupt_step (s : system) : option system :=
  match main s with
  | Spawning | Polling =>
      Some (mkSystem (with_stop true (crawler s)) (workers s) (Joining 0) (trace s))
  | Joining _ =>
      Some (mkSystem (crawler s) (workers s) Aborted (trace s))
  | Finished | Aborted => None
  end.

Definition step (e : event) (s : system) : option system :=
  match e with
  | Run w response =>
      match workers s !! w with
      | Some pc =>
          if blocked pc (workers s) then None
          else
            match worker_step w response pc (crawler s) with
            | Some (pc', c', o) =>
                Some (mkSystem c' (<[w := pc']> (workers s)) (main s) (o ++ trace s))
            | None => None
            end
      | None => None
      end
  | Raise w =>
      match workers s !! w with
      | Some pc =>
          if blocked pc (workers s) then None
          else
            match except_step w pc (crawler s) with
            | Some (pc', c', o) =>
                Some (mkSystem c' (<[w := pc']> (workers s)) (main s) (o ++ trace s))
            | None => None
            end
      | None => None
      end
  | Tick => main_step s
  | KeyboardInterrupt => interrupt_step s
  end.

Fixpoint run (es : list event) (s : system) : option system :=
  match es with
  | [] => Some s
  | e :: es' =>
      match step e s with
      | Some s' => run es' s'
      | None => None
      end
  end.

(** The session as [main] sets it up: [Crawler(...)] then [crawl()]. *)
Definition boot (file : option database) (start_url : string)
           (max_depth : Z) (num_threads : nat) : system :=
  mkSystem (Crawler_init file start_url max_depth num_threads) [] Spawning [].

(** ** Command line *)

Definition is_valid_wikipedia_url (url : string) : bool :=
  let parsed_url := Url.urlparse url in
  if negb (Py.mem (Url.scheme parsed_url) ["http"; "https"]) then false
  else if negb (Py.contains "wikipedia.org" (Url.netloc parsed_url)) then false
  else if negb (Py.startswith "/wiki/" (Url.path parsed_url)) then false
  else true.

(** How [main] goes on: the process is left through [sys.exit(code)], or
    [crawl()] is called on a fresh crawler ([main] returns when [crawl]
    does, and names no exit code then). *)
Inductive outcome :=
| Exit (code : Z)
| Crawl (s : system).

(** [main] from [start_url = args.url] on. *)
Definition main_from_url (file : option database) (url : string) : outcome :=
  if negb (is_valid_wikipedia_url url) then Exit 1
  else Crawl (boot file url 6 10).

(** * Vocabulary of the statements *)

(** ** Rows, links, traces *)


(** The anchors that [handle_starttag] turns into a link. *)
Definition article_anchor (html_content : markup) (href : string) : Prop :=
  exists attrs,
    ("a", attrs) ∈ html_content
    /\ dict_get "href" attrs = Some href
    /\ href <> ""
    /\ WikiLinkParser.is_wiki_article href = true.

(** The depth a worker is committed to once it has passed the two tests. *)
Definition pc_depth (pc : worker_pc) : option Z :=
  match pc with
  | AtFetch _ d | AtSave _ d _ | AtMark _ d _ | AtAdd _ d _ => Some d
  | _ => None
  end.

Definition obs_depth (o : obs) : Z :=
  match o with
  | Processing _ _ d | Fetch _ _ d _ | Mark _ _ d => d
  end.

(** The fetches of [url] that returned a page. *)
Definition is_success (url : string) (o : obs) : bool :=
  match o with
  | Fetch _ u _ true => String.eqb u url
  | _ => false
  end.

Definition successful_fetches (url : string) (t : list obs) : list obs :=
  List.filter (is_success url) t.

Arguments successful_fetches : simpl never.

(** No worker starts on a URL after the URL has been marked: in the trace
    (most recent first) no [Processing] of a URL stands before a [Mark] of
    it. *)
Definition no_restart (t : list obs) : Prop :=
  forall t1 t2 w url depth,
    t = t1 ++ Mark w url depth :: t2 ->
    forall w' depth', Processing w' url depth' ∉ t1.

(** The URL a worker has fetched and not marked yet. *)
Definition owed (pc : worker_pc) : option string :=
  match pc with
  | AtSave u _ _ | AtMark u _ _ | AtAdd u _ _ => Some u
  | _ => None
  end.

(** A URL the links table accounts for: the seed, or a row of the table. *)
Definition discovered (seed : string) (rows : list string) (url : string) : Prop :=
  url = seed \/ url ∈ rows.

Definition pc_discovered (seed : string) (rows : list string) (pc : worker_pc) : Prop :=
  match pc with
  | AtCheck u _ | AtFetch u _ | AtSave u _ _ => discovered seed rows u
  | AtMark u _ ls | AtAdd u _ ls =>
      discovered seed rows u /\ forall l, l ∈ ls -> l ∈ rows
  | AtPut _ _ rest => Forall (fun l => l ∈ rows) rest
  | _ => True
  end.

(** ** Invariants of the machine *)

Record depth_inv (md : Z) (init : list (string * Z)) (s : system) : Prop := {
  di_max : max_depth (crawler s) = md;
  di_workers : Forall (fun pc => forall d, pc_depth pc = Some d -> d <= md) (workers s);
  di_trace : Forall (fun o => obs_depth o <= md) (trace s);
  di_rows : Forall (fun row => row ∈ init \/ snd row <= md)
                   (visited_table (conn (crawler s)))
}.

(** An event in which no call of a worker raises after its fetch. *)
Definition no_exception (e : event) : Prop := forall w, e <> Raise w.

(** Worker [w] is inside [mark_visited] for [url]: the row is inserted,
    the URL is not yet added to [self.visited]. *)
Definition adding (s : system) (w : nat) (url : string) : Prop :=
  exists depth links, workers s !! w = Some (AtAdd url depth links).

(** Every URL of the visited set has a record, the records of the file
    stay, a URL that a worker is adding has its record, and at most one
    worker is inside [mark_visited]. *)
Record mirror_inv (c0 : Crawler) (s : system) : Prop := {
  mi_set : forall url, url ∈ visited (crawler s) -> is_visited url (crawler s) = true;
  mi_file : forall url, is_visited url c0 = true -> is_visited url (crawler s) = true;
  mi_adding : forall w url, adding s w url -> is_visited url (crawler s) = true;
  mi_lock : forall w w' url url', adding s w url -> adding s w' url' -> w = w'
}.

(** Where a record comes from, as long as no call has raised: the URL is
    in the visited set, or had a record when the session began, or a worker
    is inside [mark_visited] for it. *)
Definition origin_inv (c0 : Crawler) (s : system) : Prop :=
  forall url,
    is_visited url (crawler s) = true ->
    url ∈ visited (crawler s) \/ is_visited url c0 = true \/ exists w, adding s w url.

Record links_inv (seed : string) (s : system) : Prop := {
  li_queue : Forall (fun item => discovered seed (links_table (conn (crawler s))) (fst item))
                    (queue (crawler s));
  li_workers : Forall (pc_discovered seed (links_table (conn (crawler s)))) (workers s);
  li_rows : Forall (fun row => discovered seed (links_table (conn (crawler s))) (fst row))
                   (visited_table (conn (crawler s)))
}.

(** What holds as long as nobody presses Ctrl-C: the stop flag is down, no
    worker has left its loop, the main thread is before or at the first
    [join], and somebody is there to take the seed off the queue. *)
Record running_inv (s : system) : Prop := {
  ri_stop : stop_event (crawler s) = false;
  ri_workers : Forall (fun pc => pc <> Exited) (workers s);
  ri_main : main s = Spawning \/ main s = Polling
            \/ (main s = Joining 0 /\ workers s <> []);
  ri_queue : workers s = [] -> queue (crawler s) <> []
}.

Record order_inv (s : system) : Prop := {
  oi_marked : forall w url depth, Mark w url depth ∈ trace s -> url ∈ visited (crawler s);
  oi_order : no_restart (trace s)
}.

Record single_inv (s : system) : Prop := {
  si_threads : (num_threads (crawler s) <= 1)%nat;
  si_workers : (length (workers s) <= 1)%nat;
  si_once : forall url, (length (successful_fetches url (trace s)) <= 1)%nat;
  si_owed : forall url,
      length (successful_fetches url (trace s)) = 1%nat ->
      url ∈ visited (crawler s) \/ exists pc, pc ∈ workers s /\ owed pc = Some url;
  si_fresh : forall url depth,
      AtFetch url depth ∈ workers s -> url ∉ visited (crawler s)
}.

(** ** A small site and some schedules on it *)

Definition anchor (href : string) : string * attrs_t := ("a", [("href", Some href)]).

Definition url_A : string := "https://example.org/wiki/A".
Definition url_B : string := "https://example.org/wiki/B".
Definition url_C : string := "https://example.org/wiki/C".

(** A links to B, to C and to a special page; C links to B; B and the
    dead-end page link to nothing. *)
Definition page_A : markup :=
  [anchor "/wiki/B"; anchor "/wiki/C"; anchor "/wiki/Special:Random"].
Definition page_C : markup := [anchor "/wiki/B"].
Definition page_B : markup := [].

(** The page of the fragment scenario: two anchors to sections of one
    article. *)
Definition sections_page : markup :=
  [("a", [("href", Some "/wiki/Example#Section1")]);
   ("a", [("href", Some "/wiki/Example#Section2")])].

(** [k] steps of worker [w], none of them a fetch that succeeds. *)
Definition moves (w : nat) (k : nat) : list event := replicate k (Run w None).

(** The state a run ends in (the start state if the run is not possible). *)
Definition state_after (es : list event) (s : system) : system :=
  match run es s with
  | Some s' => s'
  | None => s
  end.

(** One worker that has taken the seed and is about to fetch it. *)
Definition before_fetch : system :=
  state_after ([Tick] ++ moves 0 3) (boot None url_A 6 1).

(** One worker, [max_depth = 0]: the seed is processed, its children are
    queued at depth 1, and the worker has just taken the first of them. *)
Definition shallow_run : list event :=
  [Tick] ++ moves 0 3 ++ [Run 0 (Some page_A)] ++ moves 0 9.

(** One worker, the whole site: A, then C, then B, then B again from the
    queue, which is dropped as visited. *)
Definition single_run : list event :=
  [Tick] ++ moves 0 3 ++ [Run 0 (Some page_A)] ++ moves 0 10
  ++ [Run 0 (Some page_C)] ++ moves 0 9
  ++ [Run 0 (Some page_B)] ++ moves 0 8.

(** Two workers, [max_depth = 6], the whole site crawled: A, then C and B. *)
Definition full_run : list event :=
  [Tick; Tick] ++ moves 0 3 ++ [Run 0 (Some page_A)] ++ moves 0 10
  ++ [Run 0 (Some page_C)] ++ moves 0 6
  ++ moves 1 3 ++ [Run 1 (Some page_B)] ++ moves 1 5
  ++ moves 0 3.

(** The whole site has been crawled, the queue is empty, both workers have
    gone round their loop on the empty queue, and the main thread has seen
    the empty queue and stands in [join]. *)
Definition completed_run : list event :=
  full_run ++ [Tick; Tick; Tick] ++ moves 0 4 ++ moves 1 4 ++ [Tick].

(** Two workers; worker 1 takes B while worker 0 is on C; C links to B
    again, worker 0 queues it and takes it before worker 1 has marked B;
    both fetch B. *)
Definition race_run : list event :=
  [Tick; Tick] ++ moves 0 3 ++ [Run 0 (Some page_A)] ++ moves 0 10
  ++ moves 1 3
  ++ [Run 0 (Some page_C)] ++ moves 0 6 ++ moves 0 3
  ++ [Run 1 (Some page_B); Run 0 (Some page_B)]
  ++ moves 1 5 ++ moves 0 5.

(** One worker; [save_links] raises on the page of C, so C is dropped
    without a record; B links to C, C is queued again and fetched again. *)
Definition refetch_run : list event :=
  [Tick] ++ moves 0 3 ++ [Run 0 (Some page_A)] ++ moves 0 10
  ++ [Run 0 (Some page_C); Raise 0] ++ moves 0 3
  ++ [Run 0 (Some [anchor "/wiki/C"])] ++ moves 0 9
  ++ [Run 0 (Some page_C)].

(** ** More vocabulary: the stores over time *)

(** The primary keys of both tables are respected: no URL has two rows. *)
Definition tables_unique (db : database) : Prop :=
  NoDup (map fst (visited_table db)) /\ NoDup (links_table db).

(** State [s'] continues state [s]: rows were only appended, the visited
    set and the counter only grew, the trace was only extended, the settings
    are the same and a raised stop flag is still raised. *)
Record grows_from (s s' : system) : Prop := {
  gf_visited_table : exists rows,
      visited_table (conn (crawler s')) = visited_table (conn (crawler s)) ++ rows;
  gf_links_table : exists rows,
      links_table (conn (crawler s')) = links_table (conn (crawler s)) ++ rows;
  gf_visited : visited (crawler s) ⊆ visited (crawler s');
  gf_total : total_links_processed (crawler s) <= total_links_processed (crawler s');
  gf_trace : exists o, trace s' = o ++ trace s;
  gf_settings : start_url (crawler s') = start_url (crawler s)
                /\ max_depth (crawler s') = max_depth (crawler s)
                /\ num_threads (crawler s') = num_threads (crawler s);
  gf_stop : stop_event (crawler s) = true -> stop_event (crawler s') = true
}.

(** One worker, [max_depth = 6]: A is processed, then C. *)
Definition shallow_run_on : list event :=
  [Tick] ++ moves 0 3 ++ [Run 0 (Some page_A)] ++ moves 0 10
  ++ [Run 0 (Some page_C)] ++ moves 0 6.

(** ** More vocabulary: counting *)

(** A worker that has taken an item off the queue and has not yet called
    [task_done] for it. *)
Definition holding (pc : worker_pc) : nat :=
  match pc with
  | AtCheck _ _ | AtFetch _ _ | AtSave _ _ _ | AtMark _ _ _ | AtAdd _ _ _
  | AtPut _ _ _ | AtCount _ _ => 1
  | AtLoop | AtGet | Exited => 0
  end.

Definition in_flight (ws : list worker_pc) : nat := sum_list (map holding ws).

(** A worker for whose item [mark_visited] has returned and that has not
    yet added one to [total_links_processed]. *)
Definition uncounted (pc : worker_pc) : nat :=
  match pc with
  | AtPut _ _ _ | AtCount _ _ => 1
  | _ => 0
  end.

Definition is_mark (o : obs) : bool :=
  match o with
  | Mark _ _ _ => true
  | _ => false
  end.

(** The number of calls of [mark_visited] that have returned. *)
Definition marks (t : list obs) : nat := length (List.filter is_mark t).

Record counters_inv (s : system) : Prop := {
  ci_unfinished :
    unfinished_tasks (crawler s) = (length (queue (crawler s)) + in_flight (workers s))%nat;
  ci_total :
    total_links_processed (crawler s) + Z.of_nat (sum_list (map uncounted (workers s)))
    = Z.of_nat (marks (trace s))
}.

(** ** More vocabulary: the order of events *)

(** What the trace must hold for a worker to stand where it stands. *)
Definition pc_history (w : nat) (t : list obs) (pc : worker_pc) : Prop :=
  match pc with
  | AtFetch u d => Processing w u d ∈ t
  | AtSave u d _ | AtMark u d _ | AtAdd u d _ => Fetch w u d true ∈ t
  | _ => True
  end.

(** A trace (most recent first) in which every fetch comes after the same
    worker passed the tests on that item, and every [mark_visited] after the
    same worker fetched that item with success. *)
Fixpoint well_ordered (t : list obs) : Prop :=
  match t with
  | [] => True
  | o :: t' =>
      match o with
      | Processing _ _ _ => True
      | Fetch w u d _ => Processing w u d ∈ t'
      | Mark w u d => Fetch w u d true ∈ t'
      end /\ well_ordered t'
  end.

Record history_inv (init : list (string * Z)) (s : system) : Prop := {
  hi_trace : well_ordered (trace s);
  hi_workers : forall w pc, workers s !! w = Some pc -> pc_history w (trace s) pc;
  hi_rows : forall row, row ∈ visited_table (conn (crawler s)) ->
                        row ∈ init \/ exists w, Fetch w (fst row) (snd row) true ∈ trace s
}.

(** ** More vocabulary: depths and URLs of items *)

(** The depth of an item on the queue: the seed's 0, or one more than the
    depth of a processed item. *)
Definition item_depth_ok (md : Z) (d : Z) : Prop := 0 <= d /\ (d = 0 \/ d <= md + 1).

Definition pc_bounds (md : Z) (pc : worker_pc) : Prop :=
  match pc with
  | AtCheck _ d => item_depth_ok md d
  | AtFetch _ d | AtSave _ d _ | AtMark _ d _ | AtAdd _ d _
  | AtPut _ d _ | AtCount _ d => 0 <= d <= md
  | _ => True
  end.

Record bounds_inv (md : Z) (init : list (string * Z)) (s : system) : Prop := {
  bi_max : max_depth (crawler s) = md;
  bi_queue : Forall (fun item => item_depth_ok md (snd item)) (queue (crawler s));
  bi_workers : Forall (pc_bounds md) (workers s);
  bi_rows : Forall (fun row => row ∈ init \/ 0 <= snd row <= md)
                   (visited_table (conn (crawler s)))
}.

Definition obs_url (o : obs) : string :=
  match o with
  | Processing _ u _ | Fetch _ u _ _ | Mark _ u _ => u
  end.

(** Every URL on the queue, in a worker's hands or in the trace is the
    seed or a row of the links table. *)
Record reach_inv (seed : string) (s : system) : Prop := {
  ri_items : Forall (fun item => discovered seed (links_table (conn (crawler s))) (fst item))
                    (queue (crawler s));
  ri_held : Forall (pc_discovered seed (links_table (conn (crawler s)))) (workers s);
  ri_trace : Forall (fun o => discovered seed (links_table (conn (crawler s))) (obs_url o))
                    (trace s)
}.

(** The threads [crawl] has started: never more than [num_threads], and all
    of them once the main thread has left the starting loop by itself. *)
Record threads_inv (n : nat) (s : system) : Prop := {
  ti_setting : num_threads (crawler s) = n;
  ti_at_most : (length (workers s) <= n)%nat;
  ti_polling : main s = Polling -> length (workers s) = n;
  ti_all : stop_event (crawler s) = false -> main s <> Spawning -> length (workers s) = n
}.

(** ** [main]

    [argparse] is library code: which command lines it accepts is not
    modelled.  [parse_known_args] either returns a namespace, of which [main]
    reads three attributes, or reports a usage error and leaves the process
    with code 2 (as on [--help=foo]).  What is printed is kept as one token
    per message. *)

Module Cli.

Record Namespace := mkNamespace {
  args_url : option string;      (* args.url, None when the positional is absent *)
  args_help : bool;              (* args.help *)
  args_version : bool            (* args.version *)
}.

Inductive message :=
| HelpText          (* display_help() *)
| VersionText       (* display_version() *)
| MissingUrl        (* the two lines printed when no URL is given *)
| InvalidUrl        (* the line printed when the URL is rejected *)
| UsageText.        (* what argparse prints on a usage error *)

Definition main (file : option database) (args : Namespace) : list message * outcome :=
  let url_given :=
    match args_url args with Some u => Py.truthy u | None => false end in
  let url_lower :=
    match args_url args with Some u => Py.lower u | None => EmptyString end in
  if args_help args || (url_given && Py.mem url_lower ["list"])
  then ([HelpText], Exit 0)
  else if args_version args || (url_given && String.eqb url_lower "--version")
  then ([VersionText], Exit 0)
  else
    match args_url args with
    | Some start_url =>
        if negb (Py.truthy start_url) then ([MissingUrl], Exit 1)
        else match main_from_url file start_url with
             | Exit code => ([InvalidUrl], Exit code)
             | Crawl s => ([], Crawl s)
             end
    | None => ([MissingUrl], Exit 1)
    end.

(** What [parser.parse_known_args()] comes to. *)
Inductive parsed :=
| UsageError                    (* parser.error: sys.exit(2) inside argparse *)
| Parsed (args : Namespace).

(** [main] from its first line. *)
Definition main_of (file : option database) (p : parsed) : list message * outcome :=
  match p with
  | UsageError => ([UsageText], Exit 2)
  | Parsed args => main file args
  end.

(** Help or the version is asked for. *)
Definition shows (args : Namespace) : Prop :=
  args_help args = true \/ args_version args = true
  \/ exists url, args_url args = Some url
                 /\ (Py.lower url = "list" \/ Py.lower url = "--version").

(** Neither is asked for and there is no URL to start from: none given, an
    empty one, or one that [is_valid_wikipedia_url] rejects. *)
Definition refuses (args : Namespace) : Prop :=
  args_help args = false /\ args_version args = false
  /\ (args_url args = None
      \/ exists url, args_url args = Some url
                     /\ Py.lower url <> "list" /\ Py.lower url <> "--version"
                     /\ (url = "" \/ is_valid_wikipedia_url url = false)).

(** Neither is asked for and the URL is accepted. *)
Definition accepts (args : Namespace) (url : string) : Prop :=
  args_help args = false /\ args_version args = false
  /\ args_url args = Some url
  /\ Py.lower url <> "list" /\ Py.lower url <> "--version"
  /\ url <> "" /\ is_valid_wikipedia_url url = true.

End Cli.

(** ** More vocabulary: schedules after Ctrl-C *)

(** An event of a continuation in which nobody interrupts again and every
    fetch is answered by [response]. *)
Definition calm (response : option markup) (e : event) : Prop :=
  e = Tick \/ exists w, e = Run w response.

(** Worker [w] can be run, alone, until it has left its loop. *)
Definition can_exit (w : nat) (response : option markup) (s : system) : Prop :=
  exists k s',
    run (replicate k (Run w response)) s = Some s'
    /\ workers s' = <[w := Exited]> (workers s)
    /\ main s' = main s
    /\ stop_event (crawler s') = true.

(** No worker but [w] holds [db_lock]. *)
Definition alone (w : nat) (s : system) : Prop :=
  forall w' pc, w' <> w -> workers s !! w' = Some pc -> holds_lock pc = false.

(** Two workers, both about to fetch B (the first part of [race_run]). *)
Definition mid_race_run : list event :=
  [Tick; Tick] ++ moves 0 3 ++ [Run 0 (Some page_A)] ++ moves 0 10
  ++ moves 1 3
  ++ [Run 0 (Some page_C)] ++ moves 0 6 ++ moves 0 3.

(** ** More vocabulary: characters of a URL *)

(** No tab, carriage return or line feed: what [urlsplit] leaves of a URL. *)
Definition safe (s : string) : Prop :=
  Py.all_chars (fun c => negb (Url.unsafe_url_byte c)) s = true.

(** None of the characters that end the authority. *)
Definition no_delim (s : string) : Prop :=
  Py.all_chars (fun c => negb (Py.has_char c "/?#")) s = true.

(** ** More vocabulary: the site of a URL *)

(** [url] has the scheme and the host of [seed]. *)
Definition same_site (seed url : string) : Prop :=
  Url.scheme (Url.urlparse url) = Url.scheme (Url.urlparse seed)
  /\ Url.netloc (Url.urlparse url) = Url.netloc (Url.urlparse seed).

(** A page all of whose anchors have an href without scheme and host. *)
Definition relative_page (html_content : markup) : Prop :=
  forall attrs href,
    ("a", attrs) ∈ html_content -> dict_get "href" attrs = Some href ->
    Url.scheme (Url.urlparse href) = "" /\ Url.netloc (Url.urlparse href) = "".

(** An event that does not deliver a page with an absolute link. *)
Definition relative_event (e : event) : Prop :=
  match e with
  | Run _ (Some html_content) => relative_page html_content
  | _ => True
  end.

Definition pc_same_site (seed : string) (pc : worker_pc) : Prop :=
  match pc with
  | AtCheck u _ | AtFetch u _ => same_site seed u
  | AtSave u _ ls | AtMark u _ ls | AtAdd u _ ls =>
      same_site seed u /\ forall l, l ∈ ls -> same_site seed l
  | AtPut _ _ rest => Forall (same_site seed) rest
  | _ => True
  end.

Record site_inv (seed : string) (s : system) : Prop := {
  st_queue : Forall (fun item => same_site seed (fst item)) (queue (crawler s));
  st_workers : Forall (pc_same_site seed) (workers s);
  st_trace : Forall (fun o => same_site seed (obs_url o)) (trace s)
}.

(** ** More vocabulary: an idle crawl *)

(** A worker that holds no item. *)
Definition idle_pc (pc : worker_pc) : Prop := pc = AtLoop \/ pc = AtGet \/ pc = Exited.

(** Relative to [s0]: the queue is empty, no worker holds an item, and
    nothing but the stop flag and the places of the threads differs. *)
Record idle_inv (s0 s : system) : Prop := {
  ii_queue : queue (crawler s) = [];
  ii_workers : Forall idle_pc (workers s);
  ii_conn : conn (crawler s) = conn (crawler s0);
  ii_visited : visited (crawler s) = visited (crawler s0);
  ii_total : total_links_processed (crawler s) = total_links_processed (crawler s0);
  ii_unfinished : unfinished_tasks (crawler s) = unfinished_tasks (crawler s0);
  ii_trace : trace s = trace s0
}.

(** * Properties *)

(** ** Strings *)

Section StringFacts.

Lemma startswith_spec p s :
  Py.startswith p s = true <-> exists r, s = p +:+ r.
Proof.
  revert s; induction p as [|a p IH]; intros s; simpl.
  - split; [intros _; by exists s | done].
  - destruct s as [|b s].
    + split; [done | intros [r Hr]; discriminate].
    + destruct (Ascii.eqb_spec a b) as [->|Hne].
      * rewrite IH. split; intros [r Hr]; exists r.
        -- by rewrite Hr.
        -- by injection Hr.
      * split; [done | intros [r Hr]; injection Hr; intros; congruence].
Qed.

Lemma contains_spec p s :
  Py.contains p s = true <-> exists a b, s = a +:+ p +:+ b.
Proof.
  induction s as [|c s IH]; simpl.
  - rewrite orb_false_r, startswith_spec. split.
    + intros [r Hr]. by exists "", r.
    + intros [a [b Hab]]. destruct a; simpl in Hab; [by exists b | discriminate].
  - rewrite orb_true_iff, startswith_spec, IH. split.
    + intros [[r Hr] | [a [b Hab]]].
      * by exists "", r.
      * exists (String c a), b. simpl. by rewrite Hab.
    + intros [a [b Hab]]. destruct a as [|c' a]; simpl in Hab.
      * left. by exists b.
      * right. injection Hab as _ Hab. by exists a, b.
Qed.

Lemma truthy_false s : Py.truthy s = false <-> s = "".
Proof. destruct s; simpl; split; congruence. Qed.

Lemma truthy_true s : Py.truthy s = true <-> s <> "".
Proof. destruct s; simpl; split; congruence. Qed.

End StringFacts.

(** ** The seed check of the command line *)

Lemma mem_http_https s :
  Py.mem s ["http"; "https"] = true <-> s = "http" \/ s = "https".
Proof.
  unfold Py.mem; cbn [existsb].
  rewrite !orb_true_iff, !String.eqb_eq. intuition congruence.
Qed.

Lemma is_valid_wikipedia_url_iff url :
  is_valid_wikipedia_url url = true <->
  (Url.scheme (Url.urlparse url) = "http" \/ Url.scheme (Url.urlparse url) = "https")
  /\ (exists a b, Url.netloc (Url.urlparse url) = a +:+ "wikipedia.org" +:+ b)
  /\ (exists rest, Url.path (Url.urlparse url) = "/wiki/" +:+ rest).
Proof.
  unfold is_valid_wikipedia_url.
  rewrite <- mem_http_https, <- contains_spec, <- startswith_spec.
  destruct (Py.mem _ _), (Py.contains _ _), (Py.startswith _ _); simpl;
    intuition congruence.
Qed.

(** C10.  [is_valid_wikipedia_url] is true exactly for the URLs whose scheme
    is http or https, whose host has the text wikipedia.org somewhere in it and
    whose path starts with /wiki/.  The host wikipedia.org.evil.example passes,
    and [main] then starts the crawl (depth 6, 10 threads) on that URL. *)
Theorem is_valid_wikipedia_url_host_substring :
  (forall url,
      (Url.scheme (Url.urlparse url) = "http" \/ Url.scheme (Url.urlparse url) = "https")
      /\ (exists a b, Url.netloc (Url.urlparse url) = a +:+ "wikipedia.org" +:+ b)
      /\ (exists rest, Url.path (Url.urlparse url) = "/wiki/" +:+ rest)
      <-> is_valid_wikipedia_url url = true)
  /\ Url.netloc (Url.urlparse "https://wikipedia.org.evil.example/wiki/Main_Page")
     = "wikipedia.org.evil.example"
  /\ is_valid_wikipedia_url "https://wikipedia.org.evil.example/wiki/Main_Page" = true
  /\ forall file,
      main_from_url file "https://wikipedia.org.evil.example/wiki/Main_Page"
      = Crawl (boot file "https://wikipedia.org.evil.example/wiki/Main_Page" 6 10).
Proof.
  split; [intros url; symmetry; apply is_valid_wikipedia_url_iff |].
  split; [reflexivity |]. split; [reflexivity |].
  intros file. reflexivity.
Qed.

(** ** The visited table *)







Lemma is_visited_true_iff url c :
  is_visited url c = true <-> exists depth, (url, depth) ∈ visited_table (conn c).
Proof.
  unfold is_visited. rewrite existsb_exists. split.
  - intros [[u d] [Hin Heq]]. apply String.eqb_eq in Heq. simpl in Heq. subst u.
    exists d. by apply list_elem_of_In.
  - intros [d Hin]. exists (url, d). split; [by apply list_elem_of_In |].
    apply String.eqb_refl.
Qed.






(** ** Link extraction *)

Lemma is_wiki_article_iff href :
  WikiLinkParser.is_wiki_article href = true <->
  Url.fragment (Url.urlparse href) = ""
  /\ Py.startswith "/wiki/" (Url.path (Url.urlparse href)) = true
  /\ Py.startswith "/wiki/Special:" (Url.path (Url.urlparse href)) = false.
Proof.
  unfold WikiLinkParser.is_wiki_article. rewrite <- truthy_false.
  destruct (Py.truthy _), (Py.startswith "/wiki/" _), (Py.startswith "/wiki/Special:" _);
    simpl; intuition congruence.
Qed.

(** An href with a fragment is not an article link. *)
Lemma is_wiki_article_fragment href :
  Url.fragment (Url.urlparse href) <> "" ->
  WikiLinkParser.is_wiki_article href = false.
Proof.
  intros H. apply truthy_true in H.
  unfold WikiLinkParser.is_wiki_article. by rewrite H.
Qed.

Lemma elem_of_handle_starttag base_url links tag attrs u :
  u ∈ WikiLinkParser.handle_starttag base_url links tag attrs <->
  u ∈ links
  \/ exists href, tag = "a" /\ dict_get "href" attrs = Some href /\ href <> ""
                  /\ WikiLinkParser.is_wiki_article href = true
                  /\ u = Url.urljoin base_url href.
Proof.
  unfold WikiLinkParser.handle_starttag.
  destruct (String.eqb_spec tag "a") as [->|Hne].
  2:{ split; [tauto | intros [H | (href & H & _)]; [done | congruence]]. }
  destruct (dict_get "href" attrs) as [href|].
  2:{ split; [tauto | intros [H | (href & _ & H & _)]; [done | congruence]]. }
  destruct (Py.truthy href) eqn:Ht; simpl.
  - apply truthy_true in Ht.
    destruct (WikiLinkParser.is_wiki_article href) eqn:Ha.
    + rewrite elem_of_union, elem_of_singleton. split.
      * intros [-> | H]; [right; by exists href | by left].
      * intros [H | (h & _ & Hh & _ & _ & ->)]; [by right |].
        left. congruence.
    + split; [tauto | intros [H | (h & _ & Hh & _ & Hw & _)]; [done | congruence]].
  - apply truthy_false in Ht.
    split; [tauto | intros [H | (h & _ & Hh & Hn & _)]; [done | congruence]].
Qed.

Lemma elem_of_feed base_url html_content : forall links u,
  u ∈ WikiLinkParser.feed base_url links html_content <->
  u ∈ links
  \/ exists href, article_anchor html_content href /\ u = Url.urljoin base_url href.
Proof.
  unfold WikiLinkParser.feed, article_anchor.
  induction html_content as [|[tag attrs] html IH]; intros links u; simpl.
  - split; [tauto | intros [H | (href & (attrs & H & _) & _)]; [done |]].
    by apply elem_of_nil in H.
  - rewrite IH, elem_of_handle_starttag. split.
    + intros [[H | (href & -> & Hd & Hn & Hw & ->)] | (href & (a & Hin & Hr) & ->)].
      * by left.
      * right. exists href. split; [| done]. exists attrs. split; [left | done].
      * right. exists href. split; [| done]. exists a. split; [by right | done].
    + intros [H | (href & (a & Hin & Hd & Hn & Hw) & ->)]; [by left; left |].
      apply elem_of_cons in Hin as [Heq | Hin].
      * injection Heq as <- <-. left; right. by exists href.
      * right. exists href. split; [| done]. by exists a.
Qed.

Lemma elem_of_parse_links html_content base_url u :
  u ∈ parse_links html_content base_url <->
  exists href, article_anchor html_content href /\ u = Url.urljoin base_url href.
Proof.
  unfold parse_links. rewrite elem_of_feed. split; [| by right].
  intros [H | H]; [by apply not_elem_of_empty in H | done].
Qed.

(** *** [urljoin] on an href without scheme and host *)

Lemma split_scheme_nonempty url s rest :
  Url.split_scheme url = Some (s, rest) -> s <> "".
Proof.
  unfold Url.split_scheme.
  destruct (Py.find_char ":" url) as [[|i]|]; try discriminate;
    destruct url as [|c0 url']; try discriminate.
  destruct (_ && _); [| discriminate].
  intros [= <- _]. discriminate.
Qed.

Lemma urlparse_with_relative href d :
  d = "http" \/ d = "https" ->
  Url.scheme (Url.urlparse href) = "" ->
  Url.urlparse_with href d =
  Url.mkParseResult d
    (Url.netloc (Url.urlparse href)) (Url.path (Url.urlparse href))
    (Url.params (Url.urlparse href)) (Url.query (Url.urlparse href))
    (Url.fragment (Url.urlparse href)).
Proof.
  intros Hd. unfold Url.urlparse, Url.urlparse_with, Url.urlsplit.
  destruct (Url.split_scheme _) as [[s rest]|] eqn:Hs.
  - apply split_scheme_nonempty in Hs.
    destruct (Url.split_rest rest) as [[[nl p] q] frag].
    destruct (_ && _); [destruct (Url.splitparams p) |]; simpl; congruence.
  - intros _.
    destruct (Url.split_rest _) as [[[nl p] q] frag].
    assert (Hm : Py.mem (Url.remove_unsafe (Py.strip Url.c0_control_or_space d))
                        Url.uses_params = true
                 /\ Url.remove_unsafe (Py.strip Url.c0_control_or_space d) = d)
      by (destruct Hd as [-> | ->]; split; reflexivity).
    destruct Hm as [-> ->].
    change (Py.mem (Url.remove_unsafe (Py.strip Url.c0_control_or_space ""))
                   Url.uses_params) with true.
    simpl andb.
    destruct (Py.has_char ";" p); [destruct (Url.splitparams p) |]; reflexivity.
Qed.

Lemma urlparse_scheme_base_nonempty base :
  Url.scheme (Url.urlparse base) = "http" \/ Url.scheme (Url.urlparse base) = "https" ->
  Py.truthy base = true.
Proof. destruct base; [intros [H | H]; discriminate H | reflexivity]. Qed.

(** For an href that names no scheme and no host of its own and whose path
    starts with a slash, [urljoin] assembles the result from the scheme and
    the host of the base. *)
Lemma urljoin_site_relative base href :
  Url.scheme (Url.urlparse base) = "http" \/ Url.scheme (Url.urlparse base) = "https" ->
  Url.scheme (Url.urlparse href) = "" ->
  Url.netloc (Url.urlparse href) = "" ->
  Py.startswith "/wiki/" (Url.path (Url.urlparse href)) = true ->
  exists p,
    Url.urljoin base href =
    Url.urlunparse
      (Url.mkParseResult (Url.scheme (Url.urlparse base)) (Url.netloc (Url.urlparse base))
         p (Url.params (Url.urlparse href)) (Url.query (Url.urlparse href))
         (Url.fragment (Url.urlparse href))).
Proof.
  intros Hb Hs Hn Hp.
  assert (Hhref : Py.truthy href = true).
  { destruct href; [discriminate Hp | reflexivity]. }
  assert (Hpath : Py.truthy (Url.path (Url.urlparse href)) = true
                  /\ Py.startswith "/" (Url.path (Url.urlparse href)) = true).
  { apply startswith_spec in Hp as [r ->]. split; reflexivity. }
  destruct Hpath as [Hpt Hps].
  unfold Url.urljoin.
  rewrite (urlparse_scheme_base_nonempty base Hb), Hhref; cbn [negb]; cbv zeta.
  rewrite (urlparse_with_relative href _ Hb Hs).
  cbn [Url.scheme Url.netloc Url.path Url.params Url.query Url.fragment].
  rewrite String.eqb_refl, Hn, Hpt, Hps.
  remember (Url.urlparse base) as b eqn:Eb. remember (Url.urlparse href) as u eqn:Eu.
  assert (Hmem : Py.mem (Url.scheme b) Url.uses_relative = true
                 /\ Py.mem (Url.scheme b) Url.uses_netloc = true)
    by (destruct Hb as [-> | ->]; split; reflexivity).
  destruct Hmem as [-> ->]. cbn [negb orb andb Py.truthy].
  eexists. reflexivity.
Qed.

(** C2, as the specification words it, fails: both anchors are dropped, the
    set is empty and the article URL is not in it. *)
Lemma fragment_collapse_counterexample :
  ("a", [("href", Some "/wiki/Example#Section1")]) ∈ sections_page
  /\ ("a", [("href", Some "/wiki/Example#Section2")]) ∈ sections_page
  /\ parse_links sections_page "https://ru.wikipedia.org/wiki/Page" = ∅
  /\ "https://ru.wikipedia.org/wiki/Example"
       ∉ parse_links sections_page "https://ru.wikipedia.org/wiki/Page".
Proof.
  split; [by left |]. split; [by right; left |].
  assert (H : parse_links sections_page "https://ru.wikipedia.org/wiki/Page" = ∅)
    by reflexivity.
  split; [exact H |]. rewrite H. apply not_elem_of_empty.
Qed.

(** C2, amended.  An anchor whose href carries a fragment is discarded, not
    collapsed.  On any page: taking such an anchor out of the page leaves the
    set of links as it is; every URL of the set is [urljoin(base_url, href)]
    for an anchor of the page whose href has no fragment; and when every
    anchor href of the page has a fragment, the set is empty. *)
Theorem fragment_links_discarded (html_content : markup) (base_url : string) :
  (forall h1 h2 attrs href,
      html_content = h1 ++ ("a", attrs) :: h2 ->
      dict_get "href" attrs = Some href ->
      Url.fragment (Url.urlparse href) <> "" ->
      parse_links html_content base_url = parse_links (h1 ++ h2) base_url)
  /\ (forall u,
         u ∈ parse_links html_content base_url ->
         exists attrs href,
           ("a", attrs) ∈ html_content
           /\ dict_get "href" attrs = Some href
           /\ Url.fragment (Url.urlparse href) = ""
           /\ u = Url.urljoin base_url href)
  /\ ((forall attrs href,
          ("a", attrs) ∈ html_content -> dict_get "href" attrs = Some href ->
          Url.fragment (Url.urlparse href) <> "") ->
      parse_links html_content base_url = ∅).
Proof.
  split; [| split].
  - intros h1 h2 attrs href -> Hd Hfrag.
    apply set_eq. intros u. rewrite !elem_of_parse_links. split.
    + intros (href0 & (a & Hin & Hd0 & Hn & Hw) & ->).
      exists href0. split; [| reflexivity]. exists a. split; [| done].
      apply elem_of_app in Hin as [Hin | Hin]; [apply elem_of_app; by left |].
      apply elem_of_cons in Hin as [Heq | Hin]; [| apply elem_of_app; by right].
      injection Heq as ->. rewrite Hd in Hd0. injection Hd0 as <-.
      rewrite (is_wiki_article_fragment href Hfrag) in Hw. discriminate Hw.
    + intros (href0 & (a & Hin & Hrest) & ->).
      exists href0. split; [| reflexivity]. exists a. split; [| done].
      apply elem_of_app in Hin as [Hin | Hin]; apply elem_of_app;
        [by left | right; by right].
  - intros u Hu.
    apply elem_of_parse_links in Hu as (href & (attrs & Hin & Hd & _ & Hw) & ->).
    apply is_wiki_article_iff in Hw as (Hf & _).
    by exists attrs, href.
  - intros Hfrag. apply elem_of_equiv_empty_L. intros u Hu.
    apply elem_of_parse_links in Hu as (href & (attrs & Hin & Hd & _ & Hw) & _).
    rewrite (is_wiki_article_fragment href (Hfrag attrs href Hin Hd)) in Hw.
    discriminate.
Qed.

Lemma fragment_links_discarded_witness :
  parse_links sections_page "https://ru.wikipedia.org/wiki/Page" = ∅
  /\ parse_links [anchor "/wiki/Other"; anchor "/wiki/Example#Section1"]
                 "https://ru.wikipedia.org/wiki/Page"
     = parse_links ([anchor "/wiki/Other"] ++ []) "https://ru.wikipedia.org/wiki/Page".
Proof.
  split.
  - apply (proj2 (proj2 (fragment_links_discarded sections_page
                           "https://ru.wikipedia.org/wiki/Page"))).
    intros attrs href Hin Hd. unfold sections_page in Hin.
    apply elem_of_cons in Hin as [Heq | Hin].
    + injection Heq as ->. injection Hd as <-. discriminate.
    + apply elem_of_cons in Hin as [Heq | Hin].
      * injection Heq as ->. injection Hd as <-. discriminate.
      * by apply elem_of_nil in Hin.
  - apply (proj1 (fragment_links_discarded
                    [anchor "/wiki/Other"; anchor "/wiki/Example#Section1"]
                    "https://ru.wikipedia.org/wiki/Page")
             [anchor "/wiki/Other"] [] [("href", Some "/wiki/Example#Section1")]
             "/wiki/Example#Section1");
      [reflexivity | reflexivity | discriminate].
Defined.

(** C8, as the specification words it, fails: an absolute href to another
    site whose path is in the article namespace is returned. *)
Lemma same_site_counterexample :
  "https://other.example/wiki/Page"
    ∈ parse_links [("a", [("href", Some "https://other.example/wiki/Page")])]
                  "https://ru.wikipedia.org/wiki/A"
  /\ Url.netloc (Url.urlparse "https://other.example/wiki/Page") = "other.example"
  /\ Url.netloc (Url.urlparse "https://ru.wikipedia.org/wiki/A") = "ru.wikipedia.org".
Proof.
  split; [| split; reflexivity].
  apply elem_of_parse_links. exists "https://other.example/wiki/Page".
  split; [| reflexivity].
  exists [("href", Some "https://other.example/wiki/Page")].
  split; [by left |]. split; [reflexivity |]. split; [discriminate | reflexivity].
Qed.

(** C8, amended.  Every URL of the returned set is the base joined with the
    href of an anchor whose own path is in the article namespace (it starts
    with /wiki/ and not with /wiki/Special:) and which has no fragment; the
    host of the href is not compared with the host of the base.  When the
    base is an http or https URL and the href names no scheme and no host of
    its own, the URL is assembled from the scheme and the host of the base. *)
Theorem parse_links_article_paths (html_content : markup) (base_url u : string) :
  u ∈ parse_links html_content base_url ->
  exists attrs href,
    ("a", attrs) ∈ html_content
    /\ dict_get "href" attrs = Some href
    /\ Url.fragment (Url.urlparse href) = ""
    /\ Py.startswith "/wiki/" (Url.path (Url.urlparse href)) = true
    /\ Py.startswith "/wiki/Special:" (Url.path (Url.urlparse href)) = false
    /\ u = Url.urljoin base_url href
    /\ ((Url.scheme (Url.urlparse base_url) = "http"
         \/ Url.scheme (Url.urlparse base_url) = "https") ->
        Url.scheme (Url.urlparse href) = "" ->
        Url.netloc (Url.urlparse href) = "" ->
        exists p,
          u = Url.urlunparse
                (Url.mkParseResult
                   (Url.scheme (Url.urlparse base_url))
                   (Url.netloc (Url.urlparse base_url))
                   p (Url.params (Url.urlparse href))
                   (Url.query (Url.urlparse href)) "")).
Proof.
  intros Hu.
  apply elem_of_parse_links in Hu as (href & (attrs & Hin & Hd & _ & Hw) & ->).
  apply is_wiki_article_iff in Hw as (Hf & Hp & Hs).
  exists attrs, href. repeat (split; [assumption || reflexivity |]).
  intros Hb Hsch Hnl. rewrite <- Hf.
  by apply urljoin_site_relative.
Qed.

Lemma parse_links_article_paths_witness :
  "https://ru.wikipedia.org/wiki/Article1"
    ∈ parse_links [("a", [("href", Some "/wiki/Article1")])] "https://ru.wikipedia.org"
  /\ exists attrs href,
      ("a", attrs) ∈ [("a", [("href", Some "/wiki/Article1")])]
      /\ dict_get "href" attrs = Some href
      /\ Url.fragment (Url.urlparse href) = ""
      /\ Py.startswith "/wiki/" (Url.path (Url.urlparse href)) = true
      /\ Py.startswith "/wiki/Special:" (Url.path (Url.urlparse href)) = false
      /\ "https://ru.wikipedia.org/wiki/Article1" = Url.urljoin "https://ru.wikipedia.org" href
      /\ ((Url.scheme (Url.urlparse "https://ru.wikipedia.org") = "http"
           \/ Url.scheme (Url.urlparse "https://ru.wikipedia.org") = "https") ->
          Url.scheme (Url.urlparse href) = "" ->
          Url.netloc (Url.urlparse href) = "" ->
          exists p,
            "https://ru.wikipedia.org/wiki/Article1"
            = Url.urlunparse
                (Url.mkParseResult
                   (Url.scheme (Url.urlparse "https://ru.wikipedia.org"))
                   (Url.netloc (Url.urlparse "https://ru.wikipedia.org"))
                   p (Url.params (Url.urlparse href))
                   (Url.query (Url.urlparse href)) "")).
Proof.
  assert (H : "https://ru.wikipedia.org/wiki/Article1"
                ∈ parse_links [("a", [("href", Some "/wiki/Article1")])]
                              "https://ru.wikipedia.org").
  { apply elem_of_parse_links. exists "/wiki/Article1". split; [| reflexivity].
    exists [("href", Some "/wiki/Article1")].
    split; [by left |]. split; [reflexivity |]. split; [discriminate | reflexivity]. }
  split; [exact H |].
  exact (parse_links_article_paths _ _ _ H).
Defined.

(** ** Runs of the machine *)

Lemma step_Run_inv w response s s' :
  step (Run w response) s = Some s' ->
  exists pc pc' c' o,
    workers s !! w = Some pc
    /\ worker_step w response pc (crawler s) = Some (pc', c', o)
    /\ s' = mkSystem c' (<[w := pc']> (workers s)) (main s) (o ++ trace s).
Proof.
  unfold step. destruct (workers s !! w) as [pc|] eqn:Hpc; [| discriminate].
  destruct (blocked pc (workers s)); [discriminate |].
  destruct (worker_step w response pc (crawler s)) as [[[pc' c'] o]|] eqn:Hws;
    [| discriminate].
  intros [= <-]. by exists pc, pc', c', o.
Qed.

Lemma step_Raise_inv w s s' :
  step (Raise w) s = Some s' ->
  exists pc pc' c' o,
    workers s !! w = Some pc
    /\ except_step w pc (crawler s) = Some (pc', c', o)
    /\ s' = mkSystem c' (<[w := pc']> (workers s)) (main s) (o ++ trace s).
Proof.
  unfold step. destruct (workers s !! w) as [pc|] eqn:Hpc; [| discriminate].
  destruct (blocked pc (workers s)); [discriminate |].
  destruct (except_step w pc (crawler s)) as [[[pc' c'] o]|] eqn:Hws;
    [| discriminate].
  intros [= <-]. by exists pc, pc', c', o.
Qed.

(** A worker that moves is not waiting for [db_lock]. *)
Lemma step_worker_lock e w s s' pc :
  (exists response, e = Run w response) \/ e = Raise w ->
  step e s = Some s' -> workers s !! w = Some pc -> blocked pc (workers s) = false.
Proof.
  intros [[response ->] | ->] Hstep Hpc; unfold step in Hstep; rewrite Hpc in Hstep;
    by destruct (blocked pc (workers s)).
Qed.

Lemma run_app es1 es2 s :
  run (es1 ++ es2) s = match run es1 s with Some s1 => run es2 s1 | None => None end.
Proof.
  revert s; induction es1 as [|e es1 IH]; intros s; simpl; [reflexivity |].
  destruct (step e s); [apply IH | reflexivity].
Qed.

(** A property that holds at the start and is kept by every step holds
    after every run. *)
Lemma run_invariant (P : system -> Prop) :
  (forall e s s', P s -> step e s = Some s' -> P s') ->
  forall es s s', P s -> run es s = Some s' -> P s'.
Proof.
  intros Hstep es. induction es as [|e es IH]; intros s s' HP; simpl.
  - by intros [= <-].
  - destruct (step e s) as [s1|] eqn:E; [| discriminate].
    apply IH. by eapply Hstep.
Qed.

(** [run_invariant] for runs whose events all satisfy [Q]. *)
Lemma run_invariant_when (Q : event -> Prop) (P : system -> Prop) :
  (forall e s s', Q e -> P s -> step e s = Some s' -> P s') ->
  forall es s s', Forall Q es -> P s -> run es s = Some s' -> P s'.
Proof.
  intros Hstep es. induction es as [|e es IH]; intros s s' HQ HP; simpl.
  - by intros [= <-].
  - apply Forall_cons in HQ as [He Hes].
    destruct (step e s) as [s1|] eqn:E; [| discriminate].
    apply IH; [assumption |]. by eapply Hstep.
Qed.

(** Case analysis on one step of a worker. *)
Ltac worker_cases H :=
  match type of H with
  | worker_step _ _ ?pc ?c = Some _ =>
      destruct pc as [ | |u d|u d|u d ls|u d ls|u d ls|u d [|l rest]|u d| ];
      cbn [worker_step] in H;
      repeat match type of H with
             | (if ?b then _ else _) = Some _ => destruct b eqn:?
             | match ?r with Some _ => _ | None => _ end = Some _ => destruct r eqn:?
             | match ?q with [] => _ | _ :: _ => _ end = Some _ => destruct q as [|[? ?] ?] eqn:?
             end;
      try discriminate H;
      injection H as <- <- <-
  end.

(** Case analysis on one step of a worker whose call raises. *)
Ltac except_cases H :=
  match type of H with
  | except_step _ ?pc ?c = Some _ =>
      destruct pc as [ | |u d|u d|u d ls|u d ls|u d ls|u d rest|u d| ];
      cbn [except_step] in H;
      try discriminate H;
      injection H as <- <- <-
  end.

(** Case analysis on one step of the main thread. *)
Ltac main_cases H :=
  match type of H with
  | main_step ?s = Some _ =>
      unfold main_step in H;
      destruct (main s) as [ | |i| | ] eqn:?;
      repeat match type of H with
             | (if ?b then _ else _) = Some _ => destruct b eqn:?
             | match ?q with [] => _ | _ :: _ => _ end = Some _ => destruct q eqn:?
             | match ?r with Some _ => _ | None => _ end = Some _ => destruct r as [[]|] eqn:?
             end;
      try discriminate H;
      injection H as <-
  | interrupt_step ?s = Some _ =>
      unfold interrupt_step in H;
      destruct (main s) eqn:?; try discriminate H; injection H as <-
  end.

(** ** A fetch that fails *)

(** C6.  When the fetch of a dequeued item raises, the worker goes back to
    the head of its loop: the queue gets no child, neither table and neither
    the visited set nor the counter changes, [mark_visited] is not called for
    the item, and the worker has not left its loop. *)
Theorem fetch_failure_drops_item (s : system) (w : nat) (current_url : string) (depth : Z) :
  workers s !! w = Some (AtFetch current_url depth) ->
  exists s',
    step (Run w None) s = Some s'
    /\ workers s' !! w = Some AtLoop
    /\ (forall w', w' <> w -> workers s' !! w' = workers s !! w')
    /\ queue (crawler s') = queue (crawler s)
    /\ conn (crawler s') = conn (crawler s)
    /\ visited (crawler s') = visited (crawler s)
    /\ total_links_processed (crawler s') = total_links_processed (crawler s)
    /\ stop_event (crawler s') = stop_event (crawler s)
    /\ trace s' = Fetch w current_url depth false :: trace s
    /\ main s' = main s.
Proof.
  intros Hw. eexists. split; [unfold step; rewrite Hw; reflexivity |].
  simpl. split.
  - apply list_lookup_insert_eq. by eapply lookup_lt_Some.
  - split; [| by repeat split].
    intros w' Hne. by apply list_lookup_insert_ne.
Qed.

Lemma fetch_failure_drops_item_witness :
  workers before_fetch !! 0%nat = Some (AtFetch url_A 0)
  /\ exists s',
      step (Run 0 None) before_fetch = Some s'
      /\ workers s' !! 0%nat = Some AtLoop
      /\ (forall w', w' <> 0%nat -> workers s' !! w' = workers before_fetch !! w')
      /\ queue (crawler s') = queue (crawler before_fetch)
      /\ conn (crawler s') = conn (crawler before_fetch)
      /\ visited (crawler s') = visited (crawler before_fetch)
      /\ total_links_processed (crawler s') = total_links_processed (crawler before_fetch)
      /\ stop_event (crawler s') = stop_event (crawler before_fetch)
      /\ trace s' = Fetch 0 url_A 0 false :: trace before_fetch
      /\ main s' = main before_fetch.
Proof.
  assert (H : workers before_fetch !! 0%nat = Some (AtFetch url_A 0))
    by (vm_compute; reflexivity).
  split; [exact H |].
  exact (fetch_failure_drops_item before_fetch 0 url_A 0 H).
Defined.

(** ** The depth bound *)

Lemma insert_or_ignore_visited_Forall (P : string * Z -> Prop) url depth rows :
  Forall P rows -> P (url, depth) -> Forall P (insert_or_ignore_visited url depth rows).
Proof.
  intros Hr Hp. unfold insert_or_ignore_visited.
  destruct (existsb _ rows); [exact Hr |].
  apply Forall_app. split; [exact Hr | by constructor].
Qed.

Lemma depth_inv_boot file seed md n :
  depth_inv md (visited_table (initialize_database file)) (boot file seed md n).
Proof.
  split; simpl; try done.
  apply Forall_forall. intros row Hrow. by left.
Qed.

Lemma depth_inv_step md init e s s' :
  depth_inv md init s -> step e s = Some s' -> depth_inv md init s'.
Proof.
  intros [Hmax Hw Ht Hr] Hstep. destruct e as [w response| | |w].
  - apply step_Run_inv in Hstep as (pc & pc' & c' & o & Hpc & Hws & ->).
    pose proof (Forall_lookup_1 _ _ _ _ Hw Hpc) as Hd.
    worker_cases Hws; split; simpl;
      try assumption;
      try (apply Forall_insert; [assumption | intros d0 [=]]; subst; try lia;
           by apply Hd);
      try (constructor; [simpl | assumption]);
      try (by apply Hd);
      try match goal with
          | H : (?d >? _) = false |- ?d <= _ =>
              rewrite Z.gtb_ltb in H; apply Z.ltb_ge in H; lia
          end.
    apply insert_or_ignore_visited_Forall; [assumption |].
    right. simpl. by apply Hd.
  - simpl in Hstep. main_cases Hstep; split; simpl; try assumption.
    apply Forall_app. split; [assumption |]. constructor; [| constructor].
    intros d0 [=].
  - simpl in Hstep. main_cases Hstep; split; simpl; assumption.
  - apply step_Raise_inv in Hstep as (pc & pc' & c' & o & Hpc & Hws & ->).
    pose proof (Forall_lookup_1 _ _ _ _ Hw Hpc) as Hd.
    except_cases Hws; split; simpl;
      try assumption;
      try (apply Forall_insert; [assumption | intros d0 [=]]);
      try (constructor; [simpl | assumption]);
      by apply Hd.
Qed.

(** C1.  In every run of a session: a worker that holds an item deeper
    than [max_depth] puts it down on its next step without fetching and
    without touching the stores; every fetch and every call of
    [mark_visited] is for a depth of at most [max_depth]; and every record of
    the visited table was in the file before the session or has a depth of at
    most [max_depth]. *)
Theorem depth_bound (file : option database) (seed : string) (md : Z) (n : nat)
        (es : list event) (s : system) :
  run es (boot file seed md n) = Some s ->
  (forall w response url depth,
      workers s !! w = Some (AtCheck url depth) -> depth > md ->
      exists s',
        step (Run w response) s = Some s'
        /\ workers s' !! w = Some AtLoop
        /\ trace s' = trace s
        /\ queue (crawler s') = queue (crawler s)
        /\ conn (crawler s') = conn (crawler s)
        /\ visited (crawler s') = visited (crawler s))
  /\ (forall w url depth ok, Fetch w url depth ok ∈ trace s -> depth <= md)
  /\ (forall w url depth, Mark w url depth ∈ trace s -> depth <= md)
  /\ (forall url depth,
         (url, depth) ∈ visited_table (conn (crawler s)) ->
         (url, depth) ∈ visited_table (initialize_database file) \/ depth <= md).
Proof.
  intros Hrun.
  assert (Hinv : depth_inv md (visited_table (initialize_database file)) s).
  { revert Hrun. apply run_invariant; [apply depth_inv_step | apply depth_inv_boot]. }
  destruct Hinv as [Hmax Hw Ht Hr]. repeat split.
  - intros w response url depth Hpc Hgt.
    assert (Hb : (depth >? max_depth (crawler s)) = true) by (apply Z.gtb_lt; lia).
    eexists. split; [unfold step; rewrite Hpc; cbn [worker_step]; rewrite Hb; reflexivity |].
    simpl. split; [| by repeat split].
    apply list_lookup_insert_eq. by eapply lookup_lt_Some.
  - intros w url depth ok Hin.
    by apply (proj1 (Forall_forall _ _) Ht) in Hin.
  - intros w url depth Hin.
    by apply (proj1 (Forall_forall _ _) Ht) in Hin.
  - intros url depth Hin.
    by apply (proj1 (Forall_forall _ _) Hr) in Hin.
Qed.

Lemma depth_bound_witness :
  run shallow_run (boot None url_A 0 1)
  = Some (state_after shallow_run (boot None url_A 0 1))
  /\ workers (state_after shallow_run (boot None url_A 0 1)) !! 0%nat
     = Some (AtCheck url_C 1)
  /\ (forall w url depth ok,
         Fetch w url depth ok ∈ trace (state_after shallow_run (boot None url_A 0 1)) ->
         depth <= 0).
Proof.
  assert (H : run shallow_run (boot None url_A 0 1)
              = Some (state_after shallow_run (boot None url_A 0 1)))
    by (vm_compute; reflexivity).
  split; [exact H |]. split; [vm_compute; reflexivity |].
  exact (proj1 (proj2 (depth_bound None url_A 0 1 shallow_run _ H))).
Defined.

(** ** The visited set and the visited table *)

Lemma is_visited_mark_visited_iff url url' depth c :
  is_visited url (mark_visited url' depth c) = true <->
  url = url' \/ is_visited url c = true.
Proof.
  unfold is_visited, mark_visited, insert_or_ignore_visited; simpl.
  destruct (existsb _ (visited_table (conn c))) eqn:E.
  - split; [by right | intros [-> | H]; [exact E | exact H]].
  - rewrite existsb_app; simpl. rewrite orb_false_r, orb_true_iff, String.eqb_eq.
    split; intros [H | H]; auto.
Qed.

Lemma is_visited_insert_visited_iff url url' depth c :
  is_visited url (insert_visited url' depth c) = true <->
  url = url' \/ is_visited url c = true.
Proof. apply (is_visited_mark_visited_iff url url' depth c). Qed.

Lemma holds_lock_none (ws : list worker_pc) w u d ls :
  existsb holds_lock ws = false -> ws !! w <> Some (AtAdd u d ls).
Proof.
  intros Hf Hl. apply not_true_iff_false in Hf. apply Hf.
  apply existsb_exists. exists (AtAdd u d ls). split; [| done].
  apply list_elem_of_In. by eapply list_elem_of_lookup_2.
Qed.

(** Who is inside [mark_visited] after worker [w] has moved to [pc']. *)
Lemma adding_insert s c' m t w pc pc' w0 url :
  workers s !! w = Some pc ->
  adding (mkSystem c' (<[w := pc']> (workers s)) m t) w0 url <->
  (w0 = w /\ exists d ls, pc' = AtAdd url d ls) \/ (w0 <> w /\ adding s w0 url).
Proof.
  intros Hpc. unfold adding; cbn [workers].
  destruct (decide (w0 = w)) as [-> | Hne].
  - rewrite list_lookup_insert_eq by (by eapply lookup_lt_Some). split.
    + intros (d & ls & [= ->]). left. split; [done | by exists d, ls].
    + intros [[_ (d & ls & ->)] | [Hne _]]; [by exists d, ls | done].
  - rewrite list_lookup_insert_ne by done. split.
    + intros H. by right.
    + intros [[Heq _] | [_ H]]; [done | exact H].
Qed.

(** A step that neither enters nor leaves [mark_visited] and changes
    neither the visited table nor the visited set. *)
Lemma adding_quiet s c' m t w pc pc' w0 url :
  workers s !! w = Some pc ->
  holds_lock pc = false -> holds_lock pc' = false ->
  adding (mkSystem c' (<[w := pc']> (workers s)) m t) w0 url <-> adding s w0 url.
Proof.
  intros Hpc Hno Hno'. rewrite (adding_insert s c' m t w pc pc' w0 url Hpc). split.
  - intros [[_ (d & ls & ->)] | [_ H]]; [discriminate Hno' | exact H].
  - intros H. right. split; [| exact H].
    intros ->. destruct H as (d & ls & H). rewrite Hpc in H. injection H as ->.
    discriminate Hno.
Qed.

Lemma mirror_inv_quiet c0 s c' m t w pc pc' :
  mirror_inv c0 s ->
  workers s !! w = Some pc ->
  holds_lock pc = false -> holds_lock pc' = false ->
  visited c' = visited (crawler s) ->
  visited_table (conn c') = visited_table (conn (crawler s)) ->
  mirror_inv c0 (mkSystem c' (<[w := pc']> (workers s)) m t).
Proof.
  intros [Hset Hfile Hadd Hlock] Hpc Hno Hno' Hv Ht.
  assert (Hsame : forall url, is_visited url c' = is_visited url (crawler s))
    by (intros url; unfold is_visited; by rewrite Ht).
  split; cbn [crawler].
  - intros url. rewrite Hv, Hsame. apply Hset.
  - intros url. rewrite Hsame. apply Hfile.
  - intros w0 url H. rewrite Hsame. apply (Hadd w0).
    by apply (adding_quiet s c' m t w pc pc' w0 url Hpc Hno Hno').
  - intros w1 w2 url1 url2 H1 H2.
    apply (adding_quiet s c' m t w pc pc' _ _ Hpc Hno Hno') in H1, H2.
    by eapply Hlock.
Qed.

Lemma origin_inv_quiet c0 s c' m t w pc pc' :
  origin_inv c0 s ->
  workers s !! w = Some pc ->
  holds_lock pc = false -> holds_lock pc' = false ->
  visited c' = visited (crawler s) ->
  visited_table (conn c') = visited_table (conn (crawler s)) ->
  origin_inv c0 (mkSystem c' (<[w := pc']> (workers s)) m t).
Proof.
  intros Hinv Hpc Hno Hno' Hv Ht url. cbn [crawler]. rewrite Hv.
  unfold is_visited at 1. rewrite Ht. intros H.
  destruct (Hinv url H) as [H1 | [H1 | [w0 H1]]]; [by left | by right; left |].
  right; right. exists w0.
  by apply (adding_quiet s c' m t w pc pc' w0 url Hpc Hno Hno').
Qed.

Lemma mirror_inv_boot file seed md n :
  mirror_inv (Crawler_init file seed md n) (boot file seed md n).
Proof.
  split.
  - intros url H. by apply not_elem_of_empty in H.
  - done.
  - intros w url (d & ls & H). discriminate H.
  - intros w w' url url' (d & ls & H). discriminate H.
Qed.

Lemma origin_inv_boot file seed md n :
  origin_inv (Crawler_init file seed md n) (boot file seed md n).
Proof. intros url H. by right; left. Qed.

(** What a step of the main thread leaves of who is adding. *)
Lemma adding_main_step s s' w url :
  main_step s = Some s' \/ interrupt_step s = Some s' ->
  adding s' w url <-> adding s w url.
Proof.
  intros Hstep. unfold adding.
  assert (Hw : workers s' = workers s \/ workers s' = workers s ++ [AtLoop]).
  { destruct Hstep as [Hstep | Hstep].
    - unfold main_step in Hstep. destruct (main s).
      + destruct (_ <? _)%nat; injection Hstep as <-; auto.
      + destruct (queue (crawler s)); injection Hstep as <-; auto.
      + destruct (workers s !! i) as [[]|]; injection Hstep as <-; auto.
      + discriminate.
      + discriminate.
    - unfold interrupt_step in Hstep.
      destruct (main s); try discriminate; injection Hstep as <-; auto. }
  destruct Hw as [-> | ->]; [done |]. split.
  - intros (d & ls & H). apply lookup_app_Some in H as [H | [_ H]]; [by exists d, ls |].
    by apply list_lookup_singleton_Some in H as [_ H].
  - intros (d & ls & H). exists d, ls. by apply lookup_app_l_Some.
Qed.

Lemma main_step_crawler s s' :
  main_step s = Some s' -> crawler s' = crawler s.
Proof.
  unfold main_step. destruct (main s).
  - destruct (_ <? _)%nat; by intros [= <-].
  - destruct (queue (crawler s)); by intros [= <-].
  - destruct (workers s !! i) as [[]|]; by intros [= <-].
  - discriminate.
  - discriminate.
Qed.

Lemma interrupt_step_crawler s s' :
  interrupt_step s = Some s' ->
  visited (crawler s') = visited (crawler s) /\ conn (crawler s') = conn (crawler s).
Proof.
  unfold interrupt_step. destruct (main s); try discriminate; by intros [= <-].
Qed.

Lemma mirror_inv_step c0 e s s' :
  mirror_inv c0 s -> step e s = Some s' -> mirror_inv c0 s'.
Proof.
  intros Hinv Hstep. destruct e as [w response| | |w].
  - pose proof Hstep as Hgo.
    apply step_Run_inv in Hstep as (pc & pc' & c' & o & Hpc & Hws & ->).
    pose proof (step_worker_lock _ w _ _ pc (or_introl (ex_intro _ response eq_refl)) Hgo Hpc)
      as Hfree.
    worker_cases Hws;
      try (by apply (mirror_inv_quiet c0 s _ _ _ w _ _ Hinv Hpc)).
    + (* mark_visited: the row is inserted *)
      cbn [blocked takes_lock andb] in Hfree.
      assert (Hnobody : forall w0 url, ~ adding s w0 url).
      { intros w0 url (d0 & ls0 & H). by eapply holds_lock_none. }
      destruct Hinv as [Hset Hfile Hadd Hlock]. split; cbn [crawler].
      * intros url H. apply is_visited_insert_visited_iff. right. by apply Hset.
      * intros url H. apply is_visited_insert_visited_iff. right. by apply Hfile.
      * intros w0 url H. apply is_visited_insert_visited_iff.
        apply (adding_insert s _ _ _ w _ _ w0 url Hpc) in H
          as [[_ (d0 & ls0 & [= -> _ _])] | [_ H]];
          [by left | by destruct (Hnobody w0 url)].
      * intros w1 w2 url1 url2 H1 H2.
        apply (adding_insert s _ _ _ w _ _ w1 url1 Hpc) in H1 as [[-> _] | [_ H1]];
          [| by destruct (Hnobody w1 url1)].
        apply (adding_insert s _ _ _ w _ _ w2 url2 Hpc) in H2 as [[-> _] | [_ H2]];
          [done | by destruct (Hnobody w2 url2)].
    + (* mark_visited: the URL is added to the set *)
      destruct Hinv as [Hset Hfile Hadd Hlock].
      assert (Hme : adding s w u) by (by exists d, ls).
      split; cbn [crawler].
      * intros url. cbn [visited_add with_visited visited].
        change (is_visited url (visited_add u (crawler s)))
          with (is_visited url (crawler s)).
        rewrite elem_of_union, elem_of_singleton.
        intros [-> | H]; [by apply (Hadd w) | by apply Hset].
      * exact Hfile.
      * intros w0 url H.
        apply (adding_insert s _ _ _ w _ _ w0 url Hpc) in H
          as [[_ (d0 & ls0 & [=])] | [_ H]].
        by apply (Hadd w0).
      * intros w1 w2 url1 url2 H1 H2.
        apply (adding_insert s _ _ _ w _ _ w1 url1 Hpc) in H1
          as [[_ (d0 & ls0 & [=])] | [_ H1]].
        apply (adding_insert s _ _ _ w _ _ w2 url2 Hpc) in H2
          as [[_ (d0 & ls0 & [=])] | [_ H2]].
        by eapply Hlock.
  - cbn [step] in Hstep. destruct Hinv as [Hset Hfile Hadd Hlock].
    pose proof (main_step_crawler _ _ Hstep) as Hc.
    assert (Ha : forall w url, adding s' w url <-> adding s w url)
      by (intros w url; apply adding_main_step; by left).
    split; rewrite ?Hc.
    + exact Hset.
    + exact Hfile.
    + intros w url H. apply (Hadd w). by apply Ha.
    + intros w1 w2 url1 url2 H1 H2. apply Ha in H1, H2. by eapply Hlock.
  - cbn [step] in Hstep. destruct Hinv as [Hset Hfile Hadd Hlock].
    pose proof (interrupt_step_crawler _ _ Hstep) as [Hv Hc].
    assert (Ha : forall w url, adding s' w url <-> adding s w url)
      by (intros w url; apply adding_main_step; by right).
    split; unfold is_visited in *; rewrite ?Hv, ?Hc.
    + exact Hset.
    + exact Hfile.
    + intros w url H. apply (Hadd w). by apply Ha.
    + intros w1 w2 url1 url2 H1 H2. apply Ha in H1, H2. by eapply Hlock.
  - apply step_Raise_inv in Hstep as (pc & pc' & c' & o & Hpc & Hws & ->).
    except_cases Hws;
      try (by apply (mirror_inv_quiet c0 s _ _ _ w _ _ Hinv Hpc)).
    (* the commit of mark_visited raises *)
    destruct Hinv as [Hset Hfile Hadd Hlock]. split; cbn [crawler].
    + exact Hset.
    + exact Hfile.
    + intros w0 url H.
      apply (adding_insert s _ _ _ w _ _ w0 url Hpc) in H
        as [[_ (d0 & ls0 & [=])] | [_ H]].
      by apply (Hadd w0).
    + intros w1 w2 url1 url2 H1 H2.
      apply (adding_insert s _ _ _ w _ _ w1 url1 Hpc) in H1
        as [[_ (d0 & ls0 & [=])] | [_ H1]].
      apply (adding_insert s _ _ _ w _ _ w2 url2 Hpc) in H2
        as [[_ (d0 & ls0 & [=])] | [_ H2]].
      by eapply Hlock.
Qed.

Lemma origin_inv_step c0 e s s' :
  no_exception e -> origin_inv c0 s -> step e s = Some s' -> origin_inv c0 s'.
Proof.
  intros He Hinv Hstep. destruct e as [w response| | |w].
  - apply step_Run_inv in Hstep as (pc & pc' & c' & o & Hpc & Hws & ->).
    worker_cases Hws;
      try (by apply (origin_inv_quiet c0 s _ _ _ w _ _ Hinv Hpc)).
    + (* mark_visited: the row is inserted *)
      intros url. cbn [crawler]. rewrite is_visited_insert_visited_iff.
      cbn [insert_visited with_conn visited].
      intros [-> | H].
      * right; right. exists w. apply (adding_insert s _ _ _ w _ _ w u Hpc).
        left. split; [done | by exists d, ls].
      * destruct (Hinv url H) as [H1 | [H1 | [w0 H1]]]; [by left | by right; left |].
        right; right. exists w0. apply (adding_insert s _ _ _ w _ _ w0 url Hpc).
        right. split; [| exact H1].
        intros ->. destruct H1 as (d0 & ls0 & H1). rewrite Hpc in H1. discriminate H1.
    + (* mark_visited: the URL is added to the set *)
      intros url. cbn [crawler visited_add with_visited visited].
      change (is_visited url (visited_add u (crawler s)))
        with (is_visited url (crawler s)).
      rewrite elem_of_union, elem_of_singleton. intros H.
      destruct (Hinv url H) as [H1 | [H1 | [w0 H1]]]; [by left; right | by right; left |].
      destruct (decide (w0 = w)) as [-> | Hne].
      * left; left. destruct H1 as (d0 & ls0 & H1). rewrite Hpc in H1.
        by injection H1 as ->.
      * right; right. exists w0.
        apply (adding_insert s _ _ _ w _ _ w0 url Hpc). by right.
  - cbn [step] in Hstep. pose proof (main_step_crawler _ _ Hstep) as Hc.
    intros url. rewrite Hc. intros H.
    destruct (Hinv url H) as [H1 | [H1 | [w0 H1]]]; [by left | by right; left |].
    right; right. exists w0. apply (adding_main_step s s' w0 url); [by left | exact H1].
  - cbn [step] in Hstep. pose proof (interrupt_step_crawler _ _ Hstep) as [Hv Hc].
    intros url. unfold is_visited at 1. rewrite Hv, Hc. intros H.
    destruct (Hinv url H) as [H1 | [H1 | [w0 H1]]]; [by left | by right; left |].
    right; right. exists w0. apply (adding_main_step s s' w0 url); [by right | exact H1].
  - by destruct (He w).
Qed.

(** C5, as the specification words it, fails at session start: the file
    holds a record of B from an earlier run, the visited set is empty. *)
Lemma mirror_agreement_counterexample :
  is_visited url_B
    (crawler (boot (Some (mkDatabase [url_B] [(url_A, 0); (url_B, 1)])) url_A 6 10))
  = true
  /\ url_B ∉ visited
       (crawler (boot (Some (mkDatabase [url_B] [(url_A, 0); (url_B, 1)])) url_A 6 10)).
Proof. split; [reflexivity | apply not_elem_of_empty]. Qed.

(** It fails inside a session too, for as long as a worker is between the
    two statements of [mark_visited]: the record of A is there, A is not yet
    in the visited set, and no lock keeps another worker from testing the set
    now. *)
Example record_before_mirror :
  run ([Tick] ++ moves 0 3 ++ [Run 0 (Some page_A)] ++ moves 0 2) (boot None url_A 6 1)
  = Some (state_after ([Tick] ++ moves 0 3 ++ [Run 0 (Some page_A)] ++ moves 0 2)
                      (boot None url_A 6 1))
  /\ workers (state_after ([Tick] ++ moves 0 3 ++ [Run 0 (Some page_A)] ++ moves 0 2)
                          (boot None url_A 6 1))
     = [AtAdd url_A 0 {[ url_B; url_C ]}]
  /\ is_visited url_A
       (crawler (state_after ([Tick] ++ moves 0 3 ++ [Run 0 (Some page_A)] ++ moves 0 2)
                             (boot None url_A 6 1))) = true
  /\ bool_decide
       (url_A ∈ visited
          (crawler (state_after ([Tick] ++ moves 0 3 ++ [Run 0 (Some page_A)] ++ moves 0 2)
                                (boot None url_A 6 1)))) = false.
Proof.
  split; [vm_compute; reflexivity |]. split; [vm_compute; reflexivity |].
  split; vm_compute; reflexivity.
Qed.

(** And for good when the [commit] of [mark_visited] raises: the row of A
    stays with the connection, A never enters the visited set, and the worker
    is back at the head of its loop. *)
Example record_without_mirror :
  run ([Tick] ++ moves 0 3 ++ [Run 0 (Some page_A)] ++ moves 0 2 ++ [Raise 0])
      (boot None url_A 6 1)
  = Some (state_after ([Tick] ++ moves 0 3 ++ [Run 0 (Some page_A)] ++ moves 0 2 ++ [Raise 0])
                      (boot None url_A 6 1))
  /\ workers (state_after ([Tick] ++ moves 0 3 ++ [Run 0 (Some page_A)] ++ moves 0 2
                           ++ [Raise 0]) (boot None url_A 6 1))
     = [AtLoop]
  /\ is_visited url_A
       (crawler (state_after ([Tick] ++ moves 0 3 ++ [Run 0 (Some page_A)] ++ moves 0 2
                              ++ [Raise 0]) (boot None url_A 6 1))) = true
  /\ bool_decide
       (url_A ∈ visited
          (crawler (state_after ([Tick] ++ moves 0 3 ++ [Run 0 (Some page_A)] ++ moves 0 2
                                 ++ [Raise 0]) (boot None url_A 6 1)))) = false.
Proof.
  split; [vm_compute; reflexivity |]. split; [vm_compute; reflexivity |].
  split; vm_compute; reflexivity.
Qed.

(** C5, amended.  At every point of a session every URL of the in-memory
    visited set has a record in the visited table, the records the file held
    when the session began are still there, and so is the record of a URL
    for which a worker is inside [mark_visited], past the insert and before
    [self.visited.add]; at most one worker is there at a time.  As long as
    no call of a worker has raised, these are all the records: a URL has a
    record exactly when it is in the set, or had a record in the file, or a
    worker is inside [mark_visited] for it.  So the two agree on every URL
    when the session began with no visited record, nothing has raised and no
    worker is inside [mark_visited].  Records of an earlier run are not
    loaded into the set. *)
Theorem mirror_within_store (file : option database) (seed : string) (md : Z)
        (n : nat) (es : list event) (s : system) :
  run es (boot file seed md n) = Some s ->
  (forall url, url ∈ visited (crawler s) -> is_visited url (crawler s) = true)
  /\ (forall url, is_visited url (Crawler_init file seed md n) = true ->
                  is_visited url (crawler s) = true)
  /\ (forall w url, adding s w url -> is_visited url (crawler s) = true)
  /\ (forall w w' url url', adding s w url -> adding s w' url' -> w = w')
  /\ (Forall no_exception es ->
      forall url,
        is_visited url (crawler s) = true <->
        url ∈ visited (crawler s)
        \/ is_visited url (Crawler_init file seed md n) = true
        \/ exists w, adding s w url)
  /\ (Forall no_exception es ->
      visited_table (initialize_database file) = [] ->
      (forall w url, ~ adding s w url) ->
      forall url, url ∈ visited (crawler s) <-> is_visited url (crawler s) = true).
Proof.
  intros Hrun.
  assert (Hinv : mirror_inv (Crawler_init file seed md n) s).
  { revert Hrun. apply run_invariant; [apply mirror_inv_step | apply mirror_inv_boot]. }
  destruct Hinv as [Hset Hfile Hadd Hlock].
  assert (Hexact : Forall no_exception es ->
                   forall url,
                     is_visited url (crawler s) = true <->
                     url ∈ visited (crawler s)
                     \/ is_visited url (Crawler_init file seed md n) = true
                     \/ exists w, adding s w url).
  { intros Hes.
    assert (Horigin : origin_inv (Crawler_init file seed md n) s).
    { eapply (run_invariant_when no_exception (origin_inv (Crawler_init file seed md n)));
        [| exact Hes | apply origin_inv_boot | exact Hrun].
      intros e s0 s1. apply origin_inv_step. }
    intros url. split; [apply Horigin |].
    intros [H | [H | [w H]]]; [by apply Hset | by apply Hfile | by apply (Hadd w)]. }
  split; [exact Hset |]. split; [exact Hfile |]. split; [exact Hadd |].
  split; [exact Hlock |]. split; [exact Hexact |].
  intros Hes Hempty Hnone url. rewrite (Hexact Hes url).
  unfold is_visited at 1; simpl. rewrite Hempty; simpl.
  split; [by left | intros [H | [H | [w H]]]; [exact H | discriminate | by destruct (Hnone w url)]].
Qed.

Lemma mirror_within_store_witness :
  run shallow_run (boot None url_A 0 1)
  = Some (state_after shallow_run (boot None url_A 0 1))
  /\ Forall no_exception shallow_run
  /\ url_A ∈ visited (crawler (state_after shallow_run (boot None url_A 0 1)))
  /\ (forall url,
         url ∈ visited (crawler (state_after shallow_run (boot None url_A 0 1))) ->
         is_visited url (crawler (state_after shallow_run (boot None url_A 0 1))) = true).
Proof.
  assert (H : run shallow_run (boot None url_A 0 1)
              = Some (state_after shallow_run (boot None url_A 0 1)))
    by (vm_compute; reflexivity).
  assert (He : Forall no_exception shallow_run).
  { unfold shallow_run, moves. simpl.
    repeat (constructor; [intros w; discriminate |]). constructor. }
  assert (Hw : workers (state_after shallow_run (boot None url_A 0 1)) = [AtCheck url_C 1])
    by (vm_compute; reflexivity).
  split; [exact H |]. split; [exact He |]. split.
  - apply (proj2 (proj2 (proj2 (proj2 (proj2
             (mirror_within_store None url_A 0 1 shallow_run _ H))))) He eq_refl).
    + intros w url (d & ls & Hl). rewrite Hw in Hl.
      destruct w as [|[|w]]; discriminate Hl.
    + vm_compute; reflexivity.
  - exact (proj1 (mirror_within_store None url_A 0 1 shallow_run _ H)).
Defined.

(** ** The links table and the visited table *)

Lemma mem_true_iff x (l : list string) : Py.mem x l = true <-> x ∈ l.
Proof.
  unfold Py.mem. induction l as [|y l IH]; simpl.
  - split; [discriminate | intros H; by apply elem_of_nil in H].
  - rewrite orb_true_iff, String.eqb_eq, IH, elem_of_cons. tauto.
Qed.

Lemma elem_of_insert_or_ignore_link rows url x :
  x ∈ insert_or_ignore_link rows url <-> x ∈ rows \/ x = url.
Proof.
  unfold insert_or_ignore_link. destruct (Py.mem url rows) eqn:E.
  - apply mem_true_iff in E. split; [by left | intros [H | ->]; assumption].
  - rewrite elem_of_app, list_elem_of_singleton. tauto.
Qed.

Lemma elem_of_fold_insert_links (ls : list string) : forall rows x,
  x ∈ fold_left insert_or_ignore_link ls rows <-> x ∈ rows \/ x ∈ ls.
Proof.
  induction ls as [|l ls IH]; intros rows x; simpl.
  - split; [by left | intros [H | H]; [exact H | by apply elem_of_nil in H]].
  - rewrite IH, elem_of_insert_or_ignore_link, elem_of_cons. tauto.
Qed.

Lemma elem_of_links_table_save_links links c x :
  x ∈ links_table (conn (save_links links c)) <->
  x ∈ links_table (conn c) \/ x ∈ links.
Proof.
  unfold save_links; simpl. by rewrite elem_of_fold_insert_links, elem_of_elements.
Qed.

Lemma discovered_mono seed (rows rows' : list string) url :
  (forall l, l ∈ rows -> l ∈ rows') ->
  discovered seed rows url -> discovered seed rows' url.
Proof. intros Hsub [H | H]; [by left | right; by apply Hsub]. Qed.

Lemma pc_discovered_mono seed (rows rows' : list string) pc :
  (forall l, l ∈ rows -> l ∈ rows') ->
  pc_discovered seed rows pc -> pc_discovered seed rows' pc.
Proof.
  intros Hsub. destruct pc; simpl; try done; try apply discovered_mono; try done.
  - intros [H1 H2]. split; [by eapply discovered_mono | auto].
  - intros [H1 H2]. split; [by eapply discovered_mono | auto].
  - intros H. eapply Forall_impl; [exact H | auto].
Qed.

Lemma links_inv_step seed e s s' :
  links_inv seed s -> step e s = Some s' -> links_inv seed s'.
Proof.
  intros [Hq Hw Hr] Hstep. destruct e as [w response| | |w].
  - apply step_Run_inv in Hstep as (pc & pc' & c' & o & Hpc & Hws & ->).
    pose proof (Forall_lookup_1 _ _ _ _ Hw Hpc) as Hd.
    worker_cases Hws; simpl in Hd.
    all: try (split; simpl; [assumption | by apply Forall_insert | assumption]).
    + (* get, queue empty *)
      split; simpl; [| by apply Forall_insert | assumption].
      match goal with H : queue _ = _ |- _ => by rewrite H end.
    + (* get *)
      apply Forall_cons in Hq as [Hhd Htl].
      split; simpl; [assumption | by apply Forall_insert | assumption].
    + (* save_links *)
      assert (Hsub : forall l, l ∈ links_table (conn (crawler s)) ->
                               l ∈ links_table (conn (save_links ls (crawler s))))
        by (intros l Hl; apply elem_of_links_table_save_links; by left).
      split; simpl crawler; simpl workers.
      * eapply Forall_impl; [exact Hq |]. intros item. by apply discovered_mono.
      * apply Forall_insert.
        -- eapply Forall_impl; [exact Hw |]. intros pc. by apply pc_discovered_mono.
        -- simpl. split; [by eapply discovered_mono |].
           intros l Hl. apply elem_of_links_table_save_links. by right.
      * eapply Forall_impl; [exact Hr |]. intros row. by apply discovered_mono.
    + (* mark_visited: the row is committed *)
      destruct Hd as [Hu Hls].
      split; simpl; [assumption | by apply Forall_insert |].
      by apply insert_or_ignore_visited_Forall.
    + (* mark_visited: the URL is added to the set *)
      destruct Hd as [Hu Hls].
      split; simpl; [assumption | | assumption].
      apply Forall_insert; [assumption |]. simpl.
      apply Forall_forall. intros l Hl. apply Hls. by apply elem_of_elements.
    + (* put, link already visited *)
      apply Forall_cons in Hd as [Hl Hrest].
      split; simpl; [assumption | by apply Forall_insert | assumption].
    + (* put *)
      apply Forall_cons in Hd as [Hl Hrest].
      split; simpl; [| by apply Forall_insert | assumption].
      apply Forall_app. split; [assumption |]. constructor; [by right | constructor].
  - simpl in Hstep. main_cases Hstep; split; simpl;
      try match goal with H : queue _ = _ |- _ => rewrite H end;
      try assumption.
    apply Forall_app. split; [assumption |]. by constructor.
  - simpl in Hstep. main_cases Hstep; split; simpl; assumption.
  - apply step_Raise_inv in Hstep as (pc & pc' & c' & o & Hpc & Hws & ->).
    except_cases Hws; (split; simpl; [assumption | by apply Forall_insert | assumption]).
Qed.

Lemma links_inv_boot file seed md n :
  (forall url depth,
      (url, depth) ∈ visited_table (initialize_database file) ->
      url = seed \/ url ∈ links_table (initialize_database file)) ->
  links_inv seed (boot file seed md n).
Proof.
  intros Hfile. split; simpl.
  - constructor; [by left | constructor].
  - constructor.
  - apply Forall_forall. intros [u d] Hin. by apply (Hfile u d).
Qed.

(** C3, as the specification words it, fails: once the seed A has been
    processed it has a visited record, while the links table holds only the
    links found on its page. *)
Lemma discovered_superset_counterexample :
  run shallow_run (boot None url_A 0 1)
  = Some (state_after shallow_run (boot None url_A 0 1))
  /\ visited_table (conn (crawler (state_after shallow_run (boot None url_A 0 1))))
     = [(url_A, 0)]
  /\ links_table (conn (crawler (state_after shallow_run (boot None url_A 0 1))))
     = [url_C; url_B]
  /\ is_visited url_A (crawler (state_after shallow_run (boot None url_A 0 1))) = true
  /\ Py.mem url_A
       (links_table (conn (crawler (state_after shallow_run (boot None url_A 0 1)))))
     = false.
Proof.
  split; [vm_compute; reflexivity |]. split; [vm_compute; reflexivity |].
  split; [vm_compute; reflexivity |]. split; vm_compute; reflexivity.
Qed.

(** C3, amended.  When every visited record of the file the session starts
    from is the seed or a row of the links table (in particular when there is
    no file), then at every point of the crawl every URL with a visited
    record is the seed URL or a row of the links table. *)
Theorem visited_within_links_or_seed (file : option database) (seed : string)
        (md : Z) (n : nat) (es : list event) (s : system) :
  (forall url depth,
      (url, depth) ∈ visited_table (initialize_database file) ->
      url = seed \/ url ∈ links_table (initialize_database file)) ->
  run es (boot file seed md n) = Some s ->
  forall url,
    is_visited url (crawler s) = true ->
    url = seed \/ url ∈ links_table (conn (crawler s)).
Proof.
  intros Hfile Hrun url Hv.
  assert (Hinv : links_inv seed s).
  { revert Hrun. apply run_invariant; [apply links_inv_step | by apply links_inv_boot]. }
  apply is_visited_true_iff in Hv as [depth Hin].
  by apply (proj1 (Forall_forall _ _) (li_rows _ _ Hinv)) in Hin.
Qed.

Lemma visited_within_links_or_seed_witness :
  (forall url depth,
      (url, depth) ∈ visited_table (initialize_database None) ->
      url = url_A \/ url ∈ links_table (initialize_database None))
  /\ run full_run (boot None url_A 6 2)
     = Some (state_after full_run (boot None url_A 6 2))
  /\ visited_table (conn (crawler (state_after full_run (boot None url_A 6 2))))
     = [(url_A, 0); (url_C, 1); (url_B, 1)]
  /\ (forall url,
         is_visited url (crawler (state_after full_run (boot None url_A 6 2))) = true ->
         url = url_A
         \/ url ∈ links_table (conn (crawler (state_after full_run (boot None url_A 6 2))))).
Proof.
  assert (H0 : forall url depth,
             (url, depth) ∈ visited_table (initialize_database None) ->
             url = url_A \/ url ∈ links_table (initialize_database None))
    by (intros url depth Hin; by apply elem_of_nil in Hin).
  assert (H : run full_run (boot None url_A 6 2)
              = Some (state_after full_run (boot None url_A 6 2)))
    by (vm_compute; reflexivity).
  split; [exact H0 |]. split; [exact H |]. split; [vm_compute; reflexivity |].
  exact (visited_within_links_or_seed None url_A 6 2 full_run _ H0 H).
Defined.

(** ** Natural completion *)

Lemma running_inv_boot file seed md n : running_inv (boot file seed md n).
Proof. split; simpl; [done | constructor | by left | done]. Qed.

Lemma insert_nonempty {A} (l : list A) i x : l <> [] -> <[i := x]> l <> [].
Proof.
  intros Hne Heq. apply Hne. apply length_zero_iff_nil.
  rewrite <- (length_insert l i x), Heq. reflexivity.
Qed.

Lemma lookup_nonempty {A} (l : list A) i x : l !! i = Some x -> l <> [].
Proof. intros H ->. discriminate H. Qed.

Lemma running_inv_step e s s' :
  e <> KeyboardInterrupt -> running_inv s -> step e s = Some s' -> running_inv s'.
Proof.
  intros He [Hstop Hw Hm Hq] Hstep. destruct e as [w response| | |w]; [| | done |].
  - apply step_Run_inv in Hstep as (pc & pc' & c' & o & Hpc & Hws & ->).
    pose proof (lookup_nonempty _ _ _ Hpc) as Hne.
    assert (Hne' : forall pc0, <[w := pc0]> (workers s) <> [])
      by (intros pc0; by apply insert_nonempty).
    assert (Hmain : main s = Spawning \/ main s = Polling
                    \/ (main s = Joining 0 /\ forall pc0, <[w := pc0]> (workers s) <> []))
      by (destruct Hm as [H | [H | [H _]]]; auto).
    worker_cases Hws; try congruence;
      (split; simpl;
       [ assumption
       | by apply Forall_insert
       | destruct Hmain as [H | [H | [H H']]]; auto
       | intros Habs; by apply Hne' in Habs ]).
  - simpl in Hstep. unfold main_step in Hstep.
    destruct Hm as [Hm | [Hm | [Hm Hne]]]; rewrite Hm in Hstep.
    + destruct (_ <? _)%nat; injection Hstep as <-; split; simpl; auto.
      * apply Forall_app. split; [assumption |]. by constructor.
      * intros Habs. by apply app_eq_nil in Habs as [_ Habs].
    + destruct (queue (crawler s)) as [|item q] eqn:Eq; injection Hstep as <-.
      * split; simpl; [assumption | assumption | | by rewrite Eq].
        right; right. split; [reflexivity |]. intros Habs. by apply Hq in Habs.
      * split; [assumption | assumption | by right; left | by rewrite Eq].
    + destruct (workers s !! 0%nat) as [pc|] eqn:E.
      * assert (Hpc : pc <> Exited) by (by apply (Forall_lookup_1 _ _ _ _ Hw E)).
        destruct pc; try done; injection Hstep as <-;
          (split; [assumption | assumption | by right; right | assumption]).
      * destruct (workers s); [done | discriminate].
  - apply step_Raise_inv in Hstep as (pc & pc' & c' & o & Hpc & Hws & ->).
    pose proof (lookup_nonempty _ _ _ Hpc) as Hne.
    assert (Hne' : forall pc0, <[w := pc0]> (workers s) <> [])
      by (intros pc0; by apply insert_nonempty).
    assert (Hmain : main s = Spawning \/ main s = Polling
                    \/ (main s = Joining 0 /\ forall pc0, <[w := pc0]> (workers s) <> []))
      by (destruct Hm as [H | [H | [H _]]]; auto).
    except_cases Hws;
      (split; simpl;
       [ assumption
       | by apply Forall_insert
       | destruct Hmain as [H | [H | [H H']]]; auto
       | intros Habs; by apply Hne' in Habs ]).
Qed.

(** C4 does not hold of the code.  What the code does instead: in a run
    without a KeyboardInterrupt the stop flag is never set, so no worker ever
    leaves its loop (on an empty queue [get] times out and the loop goes
    round), and [crawl], once it has seen the queue empty, waits in the first
    [join] for ever; it never reaches the end.  This holds in particular when
    the queue is empty and stays empty. *)
Theorem crawl_never_finishes_without_interrupt (file : option database)
        (seed : string) (md : Z) (n : nat) (es : list event) (s : system) :
  Forall (fun e => e <> KeyboardInterrupt) es ->
  run es (boot file seed md n) = Some s ->
  stop_event (crawler s) = false
  /\ (forall w, workers s !! w <> Some Exited)
  /\ main s <> Finished.
Proof.
  intros Hes Hrun.
  assert (Hinv : running_inv s).
  { eapply (run_invariant_when (fun e => e <> KeyboardInterrupt) running_inv);
      [| exact Hes | apply running_inv_boot | exact Hrun].
    intros e s0 s1. apply running_inv_step. }
  destruct Hinv as [Hstop Hw Hm Hq]. split; [exact Hstop |]. split.
  - intros w Hpc. by apply (Forall_lookup_1 _ _ _ _ Hw) in Hpc.
  - destruct Hm as [H | [H | [H _]]]; congruence.
Qed.

Lemma crawl_never_finishes_without_interrupt_witness :
  Forall (fun e => e <> KeyboardInterrupt) completed_run
  /\ run completed_run (boot None url_A 6 2)
     = Some (state_after completed_run (boot None url_A 6 2))
  /\ queue (crawler (state_after completed_run (boot None url_A 6 2))) = []
  /\ workers (state_after completed_run (boot None url_A 6 2)) = [AtLoop; AtLoop]
  /\ main (state_after completed_run (boot None url_A 6 2)) = Joining 0
  /\ stop_event (crawler (state_after completed_run (boot None url_A 6 2))) = false
  /\ (forall w, workers (state_after completed_run (boot None url_A 6 2)) !! w
                <> Some Exited)
  /\ main (state_after completed_run (boot None url_A 6 2)) <> Finished.
Proof.
  assert (He : Forall (fun e => e <> KeyboardInterrupt) completed_run).
  { unfold completed_run, full_run, moves. simpl.
    repeat (constructor; [discriminate |]). constructor. }
  assert (H : run completed_run (boot None url_A 6 2)
              = Some (state_after completed_run (boot None url_A 6 2)))
    by (vm_compute; reflexivity).
  split; [exact He |]. split; [exact H |].
  split; [vm_compute; reflexivity |]. split; [vm_compute; reflexivity |].
  split; [vm_compute; reflexivity |].
  exact (crawl_never_finishes_without_interrupt None url_A 6 2 completed_run _ He H).
Defined.

(** ** Fetching a URL more than once *)

(** C9, as the specification words it, fails: B ends up in the visited
    table and was fetched, with success, twice in one run. *)
Lemma duplicate_fetch_counterexample :
  run race_run (boot None url_A 6 2)
  = Some (state_after race_run (boot None url_A 6 2))
  /\ is_visited url_B (crawler (state_after race_run (boot None url_A 6 2))) = true
  /\ successful_fetches url_B (trace (state_after race_run (boot None url_A 6 2)))
     = [Fetch 0 url_B 2 true; Fetch 1 url_B 1 true].
Proof.
  split; [vm_compute; reflexivity |].
  split; vm_compute; reflexivity.
Qed.

Lemma no_restart_cons o t :
  (forall w url depth, o = Processing w url depth ->
                       forall w' depth', Mark w' url depth' ∉ t) ->
  no_restart t -> no_restart (o :: t).
Proof.
  intros Ho Ht t1 t2 w url depth Heq w' depth' Hin.
  destruct t1 as [|o1 t1]; simpl in Heq.
  - by apply elem_of_nil in Hin.
  - injection Heq as <- ->.
    apply elem_of_cons in Hin as [<- | Hin].
    + apply (Ho w' url depth' eq_refl w depth).
      apply elem_of_app. right. by left.
    + by apply (Ht t1 t2 w url depth eq_refl w' depth').
Qed.

Lemma order_inv_step e s s' :
  order_inv s -> step e s = Some s' -> order_inv s'.
Proof.
  intros [Hm Ho] Hstep. destruct e as [w response| | |w].
  - apply step_Run_inv in Hstep as (pc & pc' & c' & o & Hpc & Hws & ->).
    worker_cases Hws; try (split; simpl; assumption).
    + (* passes both tests *)
      match goal with
      | H : bool_decide _ = false |- _ => apply bool_decide_eq_false in H; rename H into Hnv
      end.
      split; simpl.
      * intros w0 url depth Hin. apply elem_of_cons in Hin as [[=] | Hin]. by eapply Hm.
      * apply no_restart_cons; [| assumption].
        intros w0 url depth [= -> -> ->] w' depth' Hin. apply Hnv. by eapply Hm.
    + (* fetch returns *)
      split; simpl.
      * intros w0 url depth Hin. apply elem_of_cons in Hin as [[=] | Hin]. by eapply Hm.
      * apply no_restart_cons; [| assumption]. intros w0 url depth [=].
    + (* fetch raises *)
      split; simpl.
      * intros w0 url depth Hin. apply elem_of_cons in Hin as [[=] | Hin]. by eapply Hm.
      * apply no_restart_cons; [| assumption]. intros w0 url depth [=].
    + (* mark_visited *)
      split; simpl.
      * intros w0 url depth Hin. apply elem_of_union.
        apply elem_of_cons in Hin as [[= -> -> ->] | Hin].
        -- left. by apply elem_of_singleton.
        -- right. by eapply Hm.
      * apply no_restart_cons; [| assumption]. intros w0 url depth [=].
  - simpl in Hstep. main_cases Hstep; split; simpl; assumption.
  - simpl in Hstep. main_cases Hstep; split; simpl; assumption.
  - apply step_Raise_inv in Hstep as (pc & pc' & c' & o & Hpc & Hws & ->).
    except_cases Hws; try (split; simpl; assumption).
    split; simpl.
    + intros w0 url depth Hin. apply elem_of_cons in Hin as [[=] | Hin]. by eapply Hm.
    + apply no_restart_cons; [| assumption]. intros w0 url depth [=].
Qed.

Lemma order_inv_boot file seed md n : order_inv (boot file seed md n).
Proof.
  split; simpl.
  - intros w url depth Hin. by apply elem_of_nil in Hin.
  - intros t1 t2 w url depth Heq. by destruct t1.
Qed.

(** *** Depths of the items in a worker's hands *)

Lemma bounds_inv_boot file seed md n :
  bounds_inv md (visited_table (initialize_database file)) (boot file seed md n).
Proof.
  split; simpl; [done | | done |].
  - constructor; [| constructor]. split; [done | by left].
  - apply Forall_forall. intros row Hrow. by left.
Qed.

Lemma bounds_inv_step md init e s s' :
  bounds_inv md init s -> step e s = Some s' -> bounds_inv md init s'.
Proof.
  intros [Hmax Hq Hw Hr] Hstep. destruct e as [w response| | |w].
  - apply step_Run_inv in Hstep as (pc & pc' & c' & o & Hpc & Hws & ->).
    pose proof (Forall_lookup_1 _ _ _ _ Hw Hpc) as Hd.
    worker_cases Hws; simpl in Hd.
    all: try (split; simpl;
              [ assumption
              | try assumption
              | apply Forall_insert; [assumption | simpl; try done]
              | try assumption ]).
    + (* get, queue empty *)
      match goal with H : queue _ = _ |- _ => by rewrite H end.
    + (* get *)
      by apply Forall_cons in Hq as [_ Htl].
    + by apply Forall_cons in Hq as [Hhd _].
    + (* passes both tests *)
      match goal with
      | H : (?d >? _) = false |- _ => rewrite Z.gtb_ltb in H; apply Z.ltb_ge in H
      end.
      destruct Hd as [H0 _]. lia.
    + (* mark_visited: the row is committed *)
      apply insert_or_ignore_visited_Forall; [assumption | by right].
    + (* put *)
      apply Forall_app. split; [assumption |]. constructor; [| constructor].
      simpl. split; [lia | right; lia].
  - assert (Hsame : forall ws m, Forall (pc_bounds md) ws ->
                                 bounds_inv md init (mkSystem (crawler s) ws m (trace s)))
      by (intros ws m H; by split).
    simpl in Hstep. unfold main_step in Hstep. destruct (main s).
    + destruct (_ <? _)%nat; injection Hstep as <-; apply Hsame; [| exact Hw].
      apply Forall_app. split; [exact Hw | by constructor].
    + destruct (queue (crawler s)) eqn:Eq; injection Hstep as <-;
        [by apply Hsame | split; rewrite ?Eq; done].
    + destruct (workers s !! i) as [[]|]; injection Hstep as <-;
        first [by split | by apply Hsame].
    + discriminate.
    + discriminate.
  - simpl in Hstep. unfold interrupt_step in Hstep.
    destruct (main s); try discriminate; injection Hstep as <-; by split.
  - apply step_Raise_inv in Hstep as (pc & pc' & c' & o & Hpc & Hws & ->).
    except_cases Hws;
      (split; simpl; [assumption | assumption | by apply Forall_insert | assumption]).
Qed.

(** *** One worker *)

Lemma single_worker_lookup (l : list worker_pc) w pc :
  (length l <= 1)%nat -> l !! w = Some pc ->
  l = [pc] /\ forall pc', <[w := pc']> l = [pc'].
Proof.
  intros Hlen Hpc. destruct l as [|x [|y l]]; simpl in Hlen; [done | | lia].
  destruct w as [|w]; [| done]. injection Hpc as ->. by split.
Qed.

Lemma successful_fetches_cons url o t :
  successful_fetches url (o :: t)
  = if is_success url o then o :: successful_fetches url t
    else successful_fetches url t.
Proof. reflexivity. Qed.

Lemma single_inv_boot file seed md n :
  (n <= 1)%nat -> single_inv (boot file seed md n).
Proof.
  intros Hn. split; simpl; try lia; done.
Qed.

(** The worker moves from [pc] to [pc'] and neither the trace of fetches
    nor the visited set changes. *)
Lemma single_inv_quiet s c' pc pc' o m :
  single_inv s ->
  workers s = [pc] ->
  (forall url, owed pc = Some url -> owed pc' = Some url) ->
  (forall url depth, pc' = AtFetch url depth -> url ∉ visited (crawler s)) ->
  num_threads c' = num_threads (crawler s) ->
  visited c' = visited (crawler s) ->
  (forall url, successful_fetches url (o ++ trace s) = successful_fetches url (trace s)) ->
  single_inv (mkSystem c' [pc'] m (o ++ trace s)).
Proof.
  intros [Hn Hl Honce Howed Hfresh] Hw Hpc' Hf Hnum Hvis Htr.
  split; simpl.
  - by rewrite Hnum.
  - lia.
  - intros url. by rewrite Htr.
  - intros url. rewrite Htr, Hvis. intros H1.
    destruct (Howed url H1) as [H | (pc0 & Hin & Hp)]; [by left |].
    rewrite Hw in Hin. apply list_elem_of_singleton in Hin as ->.
    right. exists pc'. split; [by left | by apply Hpc'].
  - intros url depth Hin. apply list_elem_of_singleton in Hin.
    rewrite Hvis. by eapply Hf.
Qed.

Lemma sqlite_integer_bounded (md d : Z) :
  md < 2 ^ 63 -> 0 <= d <= md -> sqlite_integer d = true.
Proof.
  intros Hmd Hd. unfold sqlite_integer.
  apply andb_true_intro. split; [apply Z.leb_le | apply Z.ltb_lt]; lia.
Qed.

Lemma single_inv_step md e s s' :
  md < 2 ^ 63 -> no_exception e ->
  Forall (pc_bounds md) (workers s) ->
  single_inv s -> step e s = Some s' -> single_inv s'.
Proof.
  intros Hmd He Hb Hinv Hstep. destruct e as [w response| | |w].
  - apply step_Run_inv in Hstep as (pc & pc' & c' & o & Hpc & Hws & ->).
    pose proof (Forall_lookup_1 _ _ _ _ Hb Hpc) as Hd.
    destruct (single_worker_lookup _ _ _ (si_workers _ Hinv) Hpc) as [Hw Hins].
    rewrite Hins. clear Hins Hpc.
    worker_cases Hws.
    all: try (eapply single_inv_quiet; [exact Hinv | exact Hw | ..]; simpl; done).
    + (* passes both tests *)
      match goal with
      | H : bool_decide _ = false |- _ => apply bool_decide_eq_false in H; rename H into Hnv
      end.
      eapply single_inv_quiet; [exact Hinv | exact Hw | ..]; simpl; try done.
      by intros url depth [= -> _].
    + (* fetch returns *)
      destruct Hinv as [Hn Hl Honce Howed Hfresh].
      assert (Hnv : u ∉ visited (crawler s)).
      { apply (Hfresh u d). rewrite Hw. by left. }
      assert (Hold : forall url, length (successful_fetches url (trace s)) = 1%nat ->
                                 url ∈ visited (crawler s)).
      { intros url H1. destruct (Howed url H1) as [H | (pc0 & Hin & Hp)]; [done |].
        rewrite Hw in Hin. apply list_elem_of_singleton in Hin as ->. discriminate Hp. }
      assert (Hzero : length (successful_fetches u (trace s)) = 0%nat).
      { specialize (Honce u). specialize (Hold u).
        destruct (length (successful_fetches u (trace s))) as [|[|k]]; [done | | lia].
        exfalso. by apply Hnv, Hold. }
      split; simpl; try assumption; try lia.
      * intros url. rewrite successful_fetches_cons; simpl.
        destruct (String.eqb_spec u url) as [<- | Hne]; [simpl; lia | apply Honce].
      * intros url. rewrite successful_fetches_cons; simpl.
        destruct (String.eqb_spec u url) as [<- | Hne].
        -- intros _. right. eexists. split; [by left | reflexivity].
        -- intros H1. left. by apply Hold.
      * intros url depth Hin. by apply list_elem_of_singleton in Hin.
    + (* mark_visited: OverflowError, which the depth bound rules out *)
      simpl in Hd. rewrite (sqlite_integer_bounded md d Hmd Hd) in *. discriminate.
    + (* mark_visited: the URL is added to the set *)
      destruct Hinv as [Hn Hl Honce Howed Hfresh].
      split; simpl; try assumption; try lia.
      * intros url H1. left. apply elem_of_union.
        destruct (Howed url H1) as [H | (pc0 & Hin & Hp)]; [by right |].
        rewrite Hw in Hin. apply list_elem_of_singleton in Hin as ->.
        injection Hp as ->. left. by apply elem_of_singleton.
      * intros url depth Hin. by apply list_elem_of_singleton in Hin.
  - destruct Hinv as [Hn Hl Honce Howed Hfresh].
    simpl in Hstep. unfold main_step in Hstep.
    destruct (main s).
    + destruct (_ <? _)%nat eqn:Hlt; injection Hstep as <-.
      * apply Nat.ltb_lt in Hlt.
        assert (Hnil : workers s = []) by (apply length_zero_iff_nil; lia).
        split; simpl; try assumption.
        -- rewrite Hnil. simpl. lia.
        -- intros url H1. destruct (Howed url H1) as [H | (pc0 & Hin & Hp)]; [by left |].
           rewrite Hnil in Hin. by apply elem_of_nil in Hin.
        -- intros url depth Hin. rewrite Hnil in Hin. simpl in Hin.
           by apply list_elem_of_singleton in Hin.
      * by split.
    + destruct (queue (crawler s)); injection Hstep as <-; by split.
    + destruct (workers s !! i) as [[]|]; injection Hstep as <-; by split.
    + discriminate.
    + discriminate.
  - destruct Hinv as [Hn Hl Honce Howed Hfresh].
    simpl in Hstep. unfold interrupt_step in Hstep.
    destruct (main s); try discriminate; injection Hstep as <-; by split.
  - by destruct (He w).
Qed.

(** With one worker too a URL can be fetched with success twice, when a
    call between the fetch and the end of [mark_visited] raises: C is fetched,
    [save_links] raises, C gets no record and does not enter the visited set;
    B links to C, C is queued again and fetched again. *)
Example refetch_after_exception :
  run refetch_run (boot None url_A 6 1)
  = Some (state_after refetch_run (boot None url_A 6 1))
  /\ successful_fetches url_C (trace (state_after refetch_run (boot None url_A 6 1)))
     = [Fetch 0 url_C 2 true; Fetch 0 url_C 1 true].
Proof. split; vm_compute; reflexivity. Qed.

(** C9, amended.  Within one run no worker starts on a URL (passes the two
    tests and goes on to fetch it) after [mark_visited] has returned for that
    URL, that is once the URL is in [self.visited]; a worker can still start
    on it while another is inside [mark_visited] for it or has not reached
    it.  When the session has a single worker thread, [max_depth] is below
    2^63 and none of [parse_links], [save_links] and [mark_visited] raises
    during the run, no URL is fetched with success more than once.  With
    several workers nothing stops two of them from passing the test on the
    same URL before either has marked it; and an item dropped by an
    exception after its fetch has no record and can be fetched again. *)
Theorem no_processing_after_mark (file : option database) (seed : string)
        (md : Z) (n : nat) (es : list event) (s : system) :
  run es (boot file seed md n) = Some s ->
  (forall t1 t2 w url depth,
      trace s = t1 ++ Mark w url depth :: t2 ->
      forall w' depth', Processing w' url depth' ∉ t1)
  /\ ((n <= 1)%nat -> md < 2 ^ 63 -> Forall no_exception es ->
      forall url, (length (successful_fetches url (trace s)) <= 1)%nat).
Proof.
  intros Hrun. split.
  - assert (Hinv : order_inv s).
    { revert Hrun. apply run_invariant; [apply order_inv_step | apply order_inv_boot]. }
    exact (oi_order _ Hinv).
  - intros Hn Hmd Hes.
    assert (Hinv : single_inv s
                   /\ bounds_inv md (visited_table (initialize_database file)) s).
    { eapply (run_invariant_when no_exception
                (fun s => single_inv s
                          /\ bounds_inv md (visited_table (initialize_database file)) s));
        [| exact Hes | split; [by apply single_inv_boot | apply bounds_inv_boot]
         | exact Hrun].
      intros e s0 s1 He [H1 H2] Hstep. split.
      - eapply (single_inv_step md); [exact Hmd | exact He | | exact H1 | exact Hstep].
        exact (bi_workers _ _ _ H2).
      - by eapply bounds_inv_step. }
    exact (si_once _ (proj1 Hinv)).
Qed.

Lemma no_processing_after_mark_witness :
  run single_run (boot None url_A 6 1)
  = Some (state_after single_run (boot None url_A 6 1))
  /\ trace (state_after single_run (boot None url_A 6 1))
     = [Mark 0 url_B 1; Fetch 0 url_B 1 true; Processing 0 url_B 1;
        Mark 0 url_C 1; Fetch 0 url_C 1 true; Processing 0 url_C 1;
        Mark 0 url_A 0; Fetch 0 url_A 0 true; Processing 0 url_A 0]
  /\ queue (crawler (state_after single_run (boot None url_A 6 1))) = []
  /\ Forall no_exception single_run
  /\ (forall t1 t2 w url depth,
         trace (state_after single_run (boot None url_A 6 1))
         = t1 ++ Mark w url depth :: t2 ->
         forall w' depth', Processing w' url depth' ∉ t1)
  /\ (forall url,
        (length (successful_fetches url
                   (trace (state_after single_run (boot None url_A 6 1)))) <= 1)%nat).
Proof.
  assert (H : run single_run (boot None url_A 6 1)
              = Some (state_after single_run (boot None url_A 6 1)))
    by (vm_compute; reflexivity).
  assert (He : Forall no_exception single_run).
  { unfold single_run, moves. simpl.
    repeat (constructor; [intros w; discriminate |]). constructor. }
  split; [exact H |]. split; [vm_compute; reflexivity |].
  split; [vm_compute; reflexivity |]. split; [exact He |].
  pose proof (no_processing_after_mark None url_A 6 1 single_run _ H) as [H1 H2].
  split; [exact H1 |].
  apply H2; [lia | reflexivity | exact He].
Defined.

(** * Further properties of the code *)

(** ** Link extraction, continued *)

(** X1.  Every [a] tag of the page whose href (the last one, if the tag
    has several) is not empty and is accepted by [is_wiki_article] puts the
    href, joined with the base, into the result of [parse_links]. *)
Theorem parse_links_complete (html_content : markup) (base_url : string)
        (attrs : attrs_t) (href : string) :
  ("a", attrs) ∈ html_content ->
  dict_get "href" attrs = Some href ->
  href <> "" ->
  WikiLinkParser.is_wiki_article href = true ->
  Url.urljoin base_url href ∈ parse_links html_content base_url.
Proof.
  intros Hin Hd Hne Hw. apply elem_of_parse_links.
  exists href. split; [| reflexivity]. by exists attrs.
Qed.

Lemma parse_links_complete_witness :
  ("a", [("href", Some "/wiki/B")]) ∈ page_A
  /\ Url.urljoin url_A "/wiki/B" = url_B
  /\ Url.urljoin url_A "/wiki/B" ∈ parse_links page_A url_A.
Proof.
  assert (Hin : ("a", [("href", Some "/wiki/B")]) ∈ page_A) by (by left).
  split; [exact Hin |]. split; [reflexivity |].
  apply (parse_links_complete page_A url_A [("href", Some "/wiki/B")] "/wiki/B" Hin);
    [reflexivity | discriminate | reflexivity].
Defined.

Lemma article_anchor_app h1 h2 href :
  article_anchor (h1 ++ h2) href <-> article_anchor h1 href \/ article_anchor h2 href.
Proof.
  unfold article_anchor. split.
  - intros (attrs & Hin & Hrest). apply elem_of_app in Hin as [Hin | Hin];
      [left | right]; by exists attrs.
  - intros [(attrs & Hin & Hrest) | (attrs & Hin & Hrest)]; exists attrs;
      (split; [apply elem_of_app; auto | done]).
Qed.

Lemma parse_links_union (h1 h2 : markup) (base_url : string) :
  parse_links (h1 ++ h2) base_url = parse_links h1 base_url ∪ parse_links h2 base_url.
Proof.
  apply set_eq. intros u.
  rewrite elem_of_union, !elem_of_parse_links. split.
  - intros (href & Ha & ->). apply article_anchor_app in Ha as [Ha | Ha];
      [left | right]; by exists href.
  - intros [(href & Ha & ->) | (href & Ha & ->)]; exists href;
      (split; [apply article_anchor_app; auto | done]).
Qed.

(** X2.  The links of a page are the union of the links of its parts:
    feeding the start tags of [h1] and then those of [h2] gives the links of
    [h1] together with the links of [h2], so neither the order of the tags
    nor a repeated tag changes the result. *)
Theorem parse_links_app (h1 h2 : markup) (base_url : string) :
  parse_links (h1 ++ h2) base_url = parse_links h1 base_url ∪ parse_links h2 base_url.
Proof. apply parse_links_union. Qed.

(** A start tag that [handle_starttag] passes over: not an [a] tag, or no
    href with a value, or an empty href, or an href that is not an article
    link. *)
Lemma parse_links_single_passed_over tag attrs base_url :
  tag <> "a"
  \/ dict_get "href" attrs = None
  \/ dict_get "href" attrs = Some ""
  \/ (exists href, dict_get "href" attrs = Some href
                   /\ WikiLinkParser.is_wiki_article href = false) ->
  parse_links [(tag, attrs)] base_url = ∅.
Proof.
  intros Hcase. apply elem_of_equiv_empty_L. intros u Hu.
  apply elem_of_parse_links in Hu as (href & (attrs' & Hin & Hd & Hne & Hw) & _).
  apply list_elem_of_singleton in Hin. injection Hin as <- <-.
  destruct Hcase as [H | [H | [H | (h & H & Hw')]]]; congruence.
Qed.

(** X3.  A start tag that is not an [a] tag, or that has no href with a
    value, or whose href is empty or is rejected by [is_wiki_article], adds
    nothing: the page with the tag and the page without it have the same
    links. *)
Theorem parse_links_passed_over (h1 h2 : markup) (tag : string) (attrs : attrs_t)
        (base_url : string) :
  tag <> "a"
  \/ dict_get "href" attrs = None
  \/ dict_get "href" attrs = Some ""
  \/ (exists href, dict_get "href" attrs = Some href
                   /\ WikiLinkParser.is_wiki_article href = false) ->
  parse_links (h1 ++ (tag, attrs) :: h2) base_url = parse_links (h1 ++ h2) base_url.
Proof.
  intros Hcase.
  change ((tag, attrs) :: h2) with ([(tag, attrs)] ++ h2).
  rewrite !parse_links_union, (parse_links_single_passed_over tag attrs base_url Hcase).
  apply set_eq. intros u. rewrite !elem_of_union. 
  split; [intros [H | [H | H]]; auto; by apply not_elem_of_empty in H | tauto].
Qed.

Lemma parse_links_passed_over_witness :
  ("div" <> "a"
   \/ dict_get "href" [("class", Some "x")] = None
   \/ dict_get "href" [("class", Some "x")] = Some ""
   \/ (exists href, dict_get "href" [("class", Some "x")] = Some href
                    /\ WikiLinkParser.is_wiki_article href = false))
  /\ parse_links ([anchor "/wiki/B"] ++ ("div", [("class", Some "x")]) :: [anchor "/wiki/C"])
                 url_A
     = parse_links ([anchor "/wiki/B"] ++ [anchor "/wiki/C"]) url_A.
Proof.
  assert (H : "div" <> "a"
              \/ dict_get "href" [("class", Some "x")] = None
              \/ dict_get "href" [("class", Some "x")] = Some ""
              \/ (exists href, dict_get "href" [("class", Some "x")] = Some href
                               /\ WikiLinkParser.is_wiki_article href = false))
    by (left; discriminate).
  split; [exact H |].
  exact (parse_links_passed_over [anchor "/wiki/B"] [anchor "/wiki/C"]
           "div" [("class", Some "x")] url_A H).
Defined.

(** ** The two tables, continued *)

Lemma fold_insert_links_prefix (ls : list string) : forall rows,
  exists news, fold_left insert_or_ignore_link ls rows = rows ++ news.
Proof.
  induction ls as [|l ls IH]; intros rows; simpl.
  - exists []. by rewrite app_nil_r.
  - destruct (IH (insert_or_ignore_link rows l)) as [news Hn]. rewrite Hn.
    unfold insert_or_ignore_link. destruct (Py.mem l rows).
    + by exists news.
    + exists (l :: news). by rewrite <- app_assoc.
Qed.

Lemma fold_insert_links_present (ls : list string) : forall rows,
  (forall l, l ∈ ls -> l ∈ rows) ->
  fold_left insert_or_ignore_link ls rows = rows.
Proof.
  induction ls as [|l ls IH]; intros rows Hall; simpl; [reflexivity |].
  assert (Hl : Py.mem l rows = true) by (apply mem_true_iff, Hall; by left).
  unfold insert_or_ignore_link at 2. rewrite Hl.
  apply IH. intros x Hx. apply Hall. by right.
Qed.

(** X4.  After [save_links(links)] the links table holds exactly its old
    rows and the given links, the old rows first and in their old order;
    saving the same set again changes nothing; and the call touches neither
    the visited table nor the visited set nor the queue. *)
Theorem save_links_spec (links : gset string) (c : Crawler) :
  (forall url, url ∈ links_table (conn (save_links links c)) <->
               url ∈ links_table (conn c) \/ url ∈ links)
  /\ (exists rows, links_table (conn (save_links links c)) = links_table (conn c) ++ rows)
  /\ save_links links (save_links links c) = save_links links c
  /\ visited_table (conn (save_links links c)) = visited_table (conn c)
  /\ visited (save_links links c) = visited c
  /\ queue (save_links links c) = queue c.
Proof.
  split; [intros url; apply elem_of_links_table_save_links |].
  split; [apply fold_insert_links_prefix |].
  split; [| by repeat split].
  unfold save_links at 1. unfold with_conn. cbn [conn links_table visited_table].
  rewrite fold_insert_links_present; [by destruct c |].
  intros l Hl. apply elem_of_links_table_save_links. right.
  by apply elem_of_elements.
Qed.




(** *** Primary keys *)

Lemma existsb_key_false url (rows : list (string * Z)) :
  existsb (fun row => String.eqb (fst row) url) rows = false <->
  url ∉ map fst rows.
Proof.
  induction rows as [|[u d] rows IH]; simpl.
  - split; [intros _ H; by apply elem_of_nil in H | done].
  - rewrite orb_false_iff, IH, not_elem_of_cons, String.eqb_neq. split.
    + intros [H1 H2]. split; [congruence | done].
    + intros [H1 H2]. split; [congruence | done].
Qed.

Lemma insert_or_ignore_visited_NoDup url depth rows :
  NoDup (map fst rows) -> NoDup (map fst (insert_or_ignore_visited url depth rows)).
Proof.
  intros Hnd. unfold insert_or_ignore_visited.
  destruct (existsb _ rows) eqn:E; [exact Hnd |].
  apply existsb_key_false in E.
  rewrite map_app. apply NoDup_app. split; [exact Hnd |]. split.
  - intros x Hx Hin. apply list_elem_of_singleton in Hin. simpl in Hin. by subst.
  - apply NoDup_singleton.
Qed.

Lemma insert_or_ignore_link_NoDup rows url :
  NoDup rows -> NoDup (insert_or_ignore_link rows url).
Proof.
  intros Hnd. unfold insert_or_ignore_link.
  destruct (Py.mem url rows) eqn:E; [exact Hnd |].
  assert (Hn : url ∉ rows) by (intros Hin; apply mem_true_iff in Hin; congruence).
  apply NoDup_app. split; [exact Hnd |]. split.
  - intros x Hx Hin. apply list_elem_of_singleton in Hin. by subst.
  - apply NoDup_singleton.
Qed.

Lemma fold_insert_links_NoDup (ls : list string) : forall rows,
  NoDup rows -> NoDup (fold_left insert_or_ignore_link ls rows).
Proof.
  induction ls as [|l ls IH]; intros rows Hnd; simpl; [exact Hnd |].
  by apply IH, insert_or_ignore_link_NoDup.
Qed.

Lemma tables_unique_step e s s' :
  tables_unique (conn (crawler s)) -> step e s = Some s' ->
  tables_unique (conn (crawler s')).
Proof.
  intros [Hv Hl] Hstep. destruct e as [w response| | |w].
  - apply step_Run_inv in Hstep as (pc & pc' & c' & o & Hpc & Hws & ->).
    worker_cases Hws; try (by split).
    + split; simpl; [exact Hv | by apply fold_insert_links_NoDup].
    + split; simpl; [by apply insert_or_ignore_visited_NoDup | exact Hl].
  - simpl in Hstep. main_cases Hstep; by split.
  - simpl in Hstep. main_cases Hstep; by split.
  - apply step_Raise_inv in Hstep as (pc & pc' & c' & o & Hpc & Hws & ->).
    except_cases Hws; by split.
Qed.

(** X7.  The primary keys hold throughout a session: when the file the
    session starts from has no URL twice in either table (in particular when
    there is no file), then at every point of every run no URL has two rows
    in the visited table and none has two rows in the links table, however
    the workers interleave. *)
Theorem tables_stay_unique (file : option database) (seed : string) (md : Z)
        (n : nat) (es : list event) (s : system) :
  tables_unique (initialize_database file) ->
  run es (boot file seed md n) = Some s ->
  tables_unique (conn (crawler s)).
Proof.
  intros Hfile Hrun. revert Hrun.
  apply (run_invariant (fun s => tables_unique (conn (crawler s))));
    [apply tables_unique_step | exact Hfile].
Qed.

Lemma tables_stay_unique_witness :
  tables_unique (initialize_database None)
  /\ run race_run (boot None url_A 6 2)
     = Some (state_after race_run (boot None url_A 6 2))
  /\ visited_table (conn (crawler (state_after race_run (boot None url_A 6 2))))
     = [(url_A, 0); (url_C, 1); (url_B, 1)]
  /\ tables_unique (conn (crawler (state_after race_run (boot None url_A 6 2)))).
Proof.
  assert (H0 : tables_unique (initialize_database None))
    by (split; apply NoDup_nil_2).
  assert (H : run race_run (boot None url_A 6 2)
              = Some (state_after race_run (boot None url_A 6 2)))
    by (vm_compute; reflexivity).
  split; [exact H0 |]. split; [exact H |]. split; [vm_compute; reflexivity |].
  exact (tables_stay_unique None url_A 6 2 race_run _ H0 H).
Defined.

(** *** Nothing is ever taken back *)

Lemma grows_from_refl s : grows_from s s.
Proof.
  split; try done.
  - exists []. by rewrite app_nil_r.
  - exists []. by rewrite app_nil_r.
  - by exists [].
Qed.

Lemma grows_from_trans s1 s2 s3 :
  grows_from s1 s2 -> grows_from s2 s3 -> grows_from s1 s3.
Proof.
  intros [[r1 Hv1] [l1 Hl1] Hs1 Ht1 [o1 Ho1] (Ha1 & Hb1 & Hc1) Hp1]
         [[r2 Hv2] [l2 Hl2] Hs2 Ht2 [o2 Ho2] (Ha2 & Hb2 & Hc2) Hp2].
  split.
  - exists (r1 ++ r2). by rewrite Hv2, Hv1, app_assoc.
  - exists (l1 ++ l2). by rewrite Hl2, Hl1, app_assoc.
  - by etrans.
  - lia.
  - exists (o2 ++ o1). by rewrite Ho2, Ho1, app_assoc.
  - repeat split; congruence.
  - auto.
Qed.

Lemma grows_from_step e s s' : step e s = Some s' -> grows_from s s'.
Proof.
  intros Hstep. destruct e as [w response| | |w].
  - apply step_Run_inv in Hstep as (pc & pc' & c' & o & Hpc & Hws & ->).
    worker_cases Hws;
      (split; simpl;
       [ try (exists []; by rewrite app_nil_r)
       | try (exists []; by rewrite app_nil_r)
       | try done
       | try lia
       | first [by exists [] | by eexists [_]]
       | done
       | done ]).
    + apply fold_insert_links_prefix.
    + unfold insert_or_ignore_visited. destruct (existsb _ _).
      * exists []. by rewrite app_nil_r.
      * by eexists.
    + apply union_subseteq_r.
  - simpl in Hstep. main_cases Hstep; apply grows_from_refl || (split; simpl; try done;
      try (exists []; by rewrite app_nil_r); by exists []).
  - simpl in Hstep. main_cases Hstep;
      (split; simpl; try done; try (exists []; by rewrite app_nil_r); by exists []).
  - apply step_Raise_inv in Hstep as (pc & pc' & c' & o & Hpc & Hws & ->).
    except_cases Hws;
      (split; simpl; try done; try (exists []; by rewrite app_nil_r);
       first [by exists [] | by eexists [_]]).
Qed.

Lemma run_grows_from (es : list event) : forall s s',
  run es s = Some s' -> grows_from s s'.
Proof.
  induction es as [|e es IH]; intros s s'; simpl.
  - intros [= <-]. apply grows_from_refl.
  - destruct (step e s) as [s1|] eqn:E; [| discriminate].
    intros Hrun. eapply grows_from_trans; [by eapply grows_from_step | by apply IH].
Qed.

(** X8.  Nothing is ever taken back.  From any state, after any further
    events: both tables are the old tables with rows appended (no row is
    deleted, reordered or changed, so a recorded depth is never updated), the
    in-memory visited set and [total_links_processed] have only grown, the
    start URL, [max_depth] and [num_threads] are what they were, and a stop
    flag that was set is still set. *)
Theorem stores_only_grow (es : list event) (s s' : system) :
  run es s = Some s' -> grows_from s s'.
Proof. apply run_grows_from. Qed.

Lemma stores_only_grow_witness :
  run (moves 0 10 ++ [Run 0 (Some page_C)] ++ moves 0 6)
      (state_after ([Tick] ++ moves 0 3 ++ [Run 0 (Some page_A)]) (boot None url_A 6 1))
  = Some (state_after shallow_run_on (boot None url_A 6 1))
  /\ grows_from
       (state_after ([Tick] ++ moves 0 3 ++ [Run 0 (Some page_A)]) (boot None url_A 6 1))
       (state_after shallow_run_on (boot None url_A 6 1)).
Proof.
  assert (H : run (moves 0 10 ++ [Run 0 (Some page_C)] ++ moves 0 6)
                  (state_after ([Tick] ++ moves 0 3 ++ [Run 0 (Some page_A)])
                               (boot None url_A 6 1))
              = Some (state_after shallow_run_on (boot None url_A 6 1)))
    by (vm_compute; reflexivity).
  split; [exact H |].
  exact (stores_only_grow _ _ _ H).
Defined.

(** ** Counters *)

Lemma sum_list_insert (f : worker_pc -> nat) (ws : list worker_pc) w pc pc' :
  ws !! w = Some pc ->
  (sum_list (map f (<[w := pc']> ws)) + f pc = sum_list (map f ws) + f pc')%nat.
Proof.
  revert w. induction ws as [|x ws IH]; intros w Hw; [done |].
  destruct w as [|w]; simpl in *.
  - injection Hw as ->. lia.
  - specialize (IH w Hw). lia.
Qed.

Lemma counters_inv_boot file seed md n : counters_inv (boot file seed md n).
Proof. by split. Qed.

Lemma counters_inv_step e s s' :
  counters_inv s -> step e s = Some s' -> counters_inv s'.
Proof.
  intros [Hu Ht] Hstep. destruct e as [w response| | |w].
  - apply step_Run_inv in Hstep as (pc & pc' & c' & o & Hpc & Hws & ->).
    unfold in_flight in *.
    worker_cases Hws;
      match goal with
      | |- counters_inv (mkSystem _ (<[_ := ?pc']> _) _ _) =>
          pose proof (sum_list_insert holding _ _ _ pc' Hpc) as Hh;
          pose proof (sum_list_insert uncounted _ _ _ pc' Hpc) as Hc
      end;
      simpl in Hh, Hc;
      simpl in Hu;
      (split; unfold in_flight, marks in *; simpl;
       try match goal with H : queue _ = _ |- _ => rewrite H end;
       rewrite ?length_app; simpl; lia).
  - assert (Hinv : forall ws m,
               sum_list (map holding ws) = sum_list (map holding (workers s)) ->
               sum_list (map uncounted ws) = sum_list (map uncounted (workers s)) ->
               counters_inv (mkSystem (crawler s) ws m (trace s))).
    { intros ws m Hh Hc. split; unfold in_flight in *; simpl; rewrite ?Hh, ?Hc; done. }
    assert (Hsame : counters_inv s) by (by split).
    simpl in Hstep. unfold main_step in Hstep.
    destruct (main s).
    + destruct (_ <? _)%nat; injection Hstep as <-; [| by apply Hinv].
      apply Hinv; rewrite !map_app, !sum_list_with_app; simpl; lia.
    + destruct (queue (crawler s)); injection Hstep as <-; [by apply Hinv | exact Hsame].
    + destruct (workers s !! i) as [[]|]; injection Hstep as <-;
        first [exact Hsame | by apply Hinv].
    + discriminate.
    + discriminate.
  - simpl in Hstep. unfold interrupt_step in Hstep.
    destruct (main s); try discriminate; injection Hstep as <-; by split.
  - apply step_Raise_inv in Hstep as (pc & pc' & c' & o & Hpc & Hws & ->).
    unfold in_flight in *.
    except_cases Hws;
      match goal with
      | |- counters_inv (mkSystem _ (<[_ := ?pc']> _) _ _) =>
          pose proof (sum_list_insert holding _ _ _ pc' Hpc) as Hh;
          pose proof (sum_list_insert uncounted _ _ _ pc' Hpc) as Hc
      end;
      simpl in Hh, Hc;
      simpl in Hu;
      (split; unfold in_flight, marks in *; simpl; lia).
Qed.

(** X9.  The queue's count of unfinished tasks is kept exactly: at every
    point of a run [unfinished_tasks] is the number of queued items plus the
    number of workers that hold an item.  So [task_done] is never called more
    often than [get] returned, and when the queue is empty and no worker holds
    an item the count is zero. *)
Theorem unfinished_tasks_accounting (file : option database) (seed : string)
        (md : Z) (n : nat) (es : list event) (s : system) :
  run es (boot file seed md n) = Some s ->
  unfinished_tasks (crawler s)
  = (length (queue (crawler s)) + in_flight (workers s))%nat
  /\ (forall w pc, workers s !! w = Some pc -> holding pc = 1%nat ->
                   (0 < unfinished_tasks (crawler s))%nat).
Proof.
  intros Hrun.
  assert (Hinv : counters_inv s).
  { revert Hrun. apply run_invariant; [apply counters_inv_step | apply counters_inv_boot]. }
  destruct Hinv as [Hu _]. split; [exact Hu |].
  intros w pc Hpc Hh. rewrite Hu.
  pose proof (sum_list_insert holding _ _ _ AtLoop Hpc) as Hs. simpl in Hs.
  unfold in_flight. lia.
Qed.

Lemma unfinished_tasks_accounting_witness :
  run completed_run (boot None url_A 6 2)
  = Some (state_after completed_run (boot None url_A 6 2))
  /\ unfinished_tasks (crawler (state_after completed_run (boot None url_A 6 2))) = 0%nat
  /\ unfinished_tasks (crawler (state_after completed_run (boot None url_A 6 2)))
     = (length (queue (crawler (state_after completed_run (boot None url_A 6 2))))
        + in_flight (workers (state_after completed_run (boot None url_A 6 2))))%nat.
Proof.
  assert (H : run completed_run (boot None url_A 6 2)
              = Some (state_after completed_run (boot None url_A 6 2)))
    by (vm_compute; reflexivity).
  split; [exact H |]. split; [vm_compute; reflexivity |].
  exact (proj1 (unfinished_tasks_accounting None url_A 6 2 completed_run _ H)).
Defined.

(** X10.  [total_links_processed] counts the items that were carried
    through: at every point of a run it is the number of calls of
    [mark_visited] that have returned so far, less the workers that have
    marked their item and are still enqueueing its links or about to count
    it.  It never exceeds the number of those calls and is never negative. *)
Theorem total_links_processed_accounting (file : option database) (seed : string)
        (md : Z) (n : nat) (es : list event) (s : system) :
  run es (boot file seed md n) = Some s ->
  total_links_processed (crawler s)
  = Z.of_nat (marks (trace s)) - Z.of_nat (sum_list (map uncounted (workers s)))
  /\ 0 <= total_links_processed (crawler s) <= Z.of_nat (marks (trace s)).
Proof.
  intros Hrun.
  assert (Hinv : counters_inv s).
  { revert Hrun. apply run_invariant; [apply counters_inv_step | apply counters_inv_boot]. }
  assert (Hgrow : grows_from (boot file seed md n) s) by (by eapply run_grows_from).
  destruct Hinv as [_ Ht]. pose proof (gf_total _ _ Hgrow) as H0. simpl in H0.
  lia.
Qed.

Lemma total_links_processed_accounting_witness :
  run race_run (boot None url_A 6 2)
  = Some (state_after race_run (boot None url_A 6 2))
  /\ total_links_processed (crawler (state_after race_run (boot None url_A 6 2))) = 4
  /\ marks (trace (state_after race_run (boot None url_A 6 2))) = 4%nat
  /\ 0 <= total_links_processed (crawler (state_after race_run (boot None url_A 6 2)))
     <= Z.of_nat (marks (trace (state_after race_run (boot None url_A 6 2)))).
Proof.
  assert (H : run race_run (boot None url_A 6 2)
              = Some (state_after race_run (boot None url_A 6 2)))
    by (vm_compute; reflexivity).
  split; [exact H |]. split; [vm_compute; reflexivity |].
  split; [vm_compute; reflexivity |].
  exact (proj2 (total_links_processed_accounting None url_A 6 2 race_run _ H)).
Defined.

(** ** The order of events *)

Lemma pc_history_mono w t o pc : pc_history w t pc -> pc_history w (o ++ t) pc.
Proof.
  destruct pc; simpl; try done; intros H; apply elem_of_app; by right.
Qed.

Lemma well_ordered_split t : well_ordered t ->
  (forall t1 t2 w u d, t = t1 ++ Mark w u d :: t2 -> Fetch w u d true ∈ t2)
  /\ (forall t1 t2 w u d ok, t = t1 ++ Fetch w u d ok :: t2 -> Processing w u d ∈ t2).
Proof.
  induction t as [|o t IH]; intros Hwo.
  - split; intros [|? ?]; intros; discriminate.
  - destruct Hwo as [Ho Hwo]. destruct (IH Hwo) as [IH1 IH2]. split.
    + intros [|o1 t1] t2 w u d Heq; simpl in Heq; injection Heq as -> ->.
      * exact Ho.
      * by eapply IH1.
    + intros [|o1 t1] t2 w u d ok Heq; simpl in Heq; injection Heq as -> ->.
      * exact Ho.
      * by eapply IH2.
Qed.

Lemma history_inv_boot file seed md n :
  history_inv (visited_table (initialize_database file)) (boot file seed md n).
Proof.
  split; simpl; [done | intros w pc H; discriminate H | intros row H; by left].
Qed.

Lemma history_workers_insert (ws : list worker_pc) w pc' t o :
  (forall w0 pc, ws !! w0 = Some pc -> pc_history w0 t pc) ->
  pc_history w (o ++ t) pc' ->
  forall w0 pc, <[w := pc']> ws !! w0 = Some pc -> pc_history w0 (o ++ t) pc.
Proof.
  intros Hall Hnew w0 pc Hl.
  apply list_lookup_insert_Some in Hl as [(<- & <- & _) | (Hne & Hl)]; [exact Hnew |].
  by apply pc_history_mono, Hall.
Qed.

Lemma history_inv_step init e s s' :
  history_inv init s -> step e s = Some s' -> history_inv init s'.
Proof.
  intros [Ht Hw Hr] Hstep. destruct e as [w response| | |w].
  - apply step_Run_inv in Hstep as (pc & pc' & c' & o & Hpc & Hws & ->).
    pose proof (Hw w pc Hpc) as Hown.
    worker_cases Hws; simpl in Hown.
    all: try (split; cbn [trace workers crawler];
              [ exact Ht
              | apply (history_workers_insert _ _ _ _ []); [exact Hw | done]
              | exact Hr ]).
    + (* passes both tests *)
      split; cbn [trace workers crawler]; [by split | | ].
      * apply (history_workers_insert _ _ _ _ [_]); [exact Hw | by left].
      * intros row Hrow. destruct (Hr row Hrow) as [H | [w0 H]]; [by left |].
        right. exists w0. by right.
    + (* fetch returns *)
      split; cbn [trace workers crawler]; [by split | | ].
      * apply (history_workers_insert _ _ _ _ [_]); [exact Hw | by left].
      * intros row Hrow. destruct (Hr row Hrow) as [H | [w0 H]]; [by left |].
        right. exists w0. by right.
    + (* fetch raises *)
      split; cbn [trace workers crawler]; [by split | | ].
      * apply (history_workers_insert _ _ _ _ [_]); [exact Hw | done].
      * intros row Hrow. destruct (Hr row Hrow) as [H | [w0 H]]; [by left |].
        right. exists w0. by right.
    + (* mark_visited: the row is committed *)
      split; cbn [trace workers crawler]; [exact Ht | | ].
      * apply (history_workers_insert _ _ _ _ []); [exact Hw | done].
      * intros row Hrow. simpl in Hrow. unfold insert_or_ignore_visited in Hrow.
        assert (Hcase : row ∈ visited_table (conn (crawler s)) \/ row = (u, d)).
        { destruct (existsb _ _); [by left |].
          apply elem_of_app in Hrow as [H | H]; [by left |].
          right. by apply list_elem_of_singleton in H. }
        destruct Hcase as [Hold | ->]; [by apply Hr |].
        right. by exists w.
    + (* mark_visited: the URL is added to the set *)
      split; cbn [trace workers crawler]; [by split | | ].
      * apply (history_workers_insert _ _ _ _ [_]); [exact Hw | done].
      * intros row Hrow. destruct (Hr row Hrow) as [H | [w0 H]]; [by left |].
        right. exists w0. by right.
  - assert (Hsame : forall ws m,
               (forall w pc, ws !! w = Some pc -> pc_history w (trace s) pc) ->
               history_inv init (mkSystem (crawler s) ws m (trace s)))
      by (intros ws m H; by split).
    simpl in Hstep. unfold main_step in Hstep. destruct (main s).
    + destruct (_ <? _)%nat; injection Hstep as <-; apply Hsame; [| exact Hw].
      intros w pc Hl. apply lookup_app_Some in Hl as [Hl | [_ Hl]]; [by apply Hw |].
      apply list_lookup_singleton_Some in Hl as [_ <-]. done.
    + destruct (queue (crawler s)); injection Hstep as <-; [by apply Hsame | by split].
    + destruct (workers s !! i) as [[]|]; injection Hstep as <-;
        first [by split | by apply Hsame].
    + discriminate.
    + discriminate.
  - simpl in Hstep. unfold interrupt_step in Hstep.
    destruct (main s); try discriminate; injection Hstep as <-; by split.
  - apply step_Raise_inv in Hstep as (pc & pc' & c' & o & Hpc & Hws & ->).
    pose proof (Hw w pc Hpc) as Hown.
    except_cases Hws; simpl in Hown.
    all: try (split; cbn [trace workers crawler];
              [ exact Ht
              | apply (history_workers_insert _ _ _ _ []); [exact Hw | done]
              | exact Hr ]).
    split; cbn [trace workers crawler]; [by split | | ].
    + apply (history_workers_insert _ _ _ _ [_]); [exact Hw | done].
    + intros row Hrow. destruct (Hr row Hrow) as [H | [w0 H]]; [by left |].
      right. exists w0. by right.
Qed.

(** X11.  The order of the calls in every run: [mark_visited] is called for
    an item only after the same worker has fetched that item with success,
    and [fetch_page] is called for an item only after the same worker has
    passed the two tests on it.  So every record of the visited table that
    was not in the file before the session belongs to a URL that was fetched
    with success at the recorded depth. *)
Theorem mark_only_after_fetch (file : option database) (seed : string) (md : Z)
        (n : nat) (es : list event) (s : system) :
  run es (boot file seed md n) = Some s ->
  (forall t1 t2 w url depth,
      trace s = t1 ++ Mark w url depth :: t2 -> Fetch w url depth true ∈ t2)
  /\ (forall t1 t2 w url depth ok,
         trace s = t1 ++ Fetch w url depth ok :: t2 -> Processing w url depth ∈ t2)
  /\ (forall url depth,
         (url, depth) ∈ visited_table (conn (crawler s)) ->
         (url, depth) ∈ visited_table (initialize_database file)
         \/ exists w, Fetch w url depth true ∈ trace s).
Proof.
  intros Hrun.
  assert (Hinv : history_inv (visited_table (initialize_database file)) s).
  { revert Hrun. apply run_invariant; [apply history_inv_step | apply history_inv_boot]. }
  destruct Hinv as [Ht Hw Hr]. destruct (well_ordered_split _ Ht) as [H1 H2].
  split; [exact H1 |]. split; [exact H2 |].
  intros url depth Hin. destruct (Hr _ Hin) as [H | [w H]]; [by left |].
  right. by exists w.
Qed.

Lemma mark_only_after_fetch_witness :
  run race_run (boot None url_A 6 2)
  = Some (state_after race_run (boot None url_A 6 2))
  /\ (forall url depth,
         (url, depth)
           ∈ visited_table (conn (crawler (state_after race_run (boot None url_A 6 2)))) ->
         (url, depth) ∈ visited_table (initialize_database None)
         \/ exists w, Fetch w url depth true
                        ∈ trace (state_after race_run (boot None url_A 6 2))).
Proof.
  assert (H : run race_run (boot None url_A 6 2)
              = Some (state_after race_run (boot None url_A 6 2)))
    by (vm_compute; reflexivity).
  split; [exact H |].
  exact (proj2 (proj2 (mark_only_after_fetch None url_A 6 2 race_run _ H))).
Defined.

(** ** Depths on the queue *)

(** X12.  Depths never run away: at every point of a run every item on the
    queue has a depth between 0 and [max_depth + 1] (the seed's 0, or one
    more than the depth of an item that passed the depth test), and every
    record written during the session has a depth between 0 and
    [max_depth]. *)
Theorem queue_depth_bounds (file : option database) (seed : string) (md : Z)
        (n : nat) (es : list event) (s : system) :
  run es (boot file seed md n) = Some s ->
  (forall url depth, (url, depth) ∈ queue (crawler s) ->
                     0 <= depth <= Z.max 0 (md + 1))
  /\ (forall url depth,
         (url, depth) ∈ visited_table (conn (crawler s)) ->
         (url, depth) ∈ visited_table (initialize_database file)
         \/ 0 <= depth <= md).
Proof.
  intros Hrun.
  assert (Hinv : bounds_inv md (visited_table (initialize_database file)) s).
  { revert Hrun. apply run_invariant; [apply bounds_inv_step | apply bounds_inv_boot]. }
  destruct Hinv as [_ Hq _ Hr]. split.
  - intros url depth Hin.
    apply (proj1 (Forall_forall _ _) Hq) in Hin as [H0 H1]. simpl in *. lia.
  - intros url depth Hin. by apply (proj1 (Forall_forall _ _) Hr) in Hin.
Qed.

Lemma queue_depth_bounds_witness :
  run shallow_run (boot None url_A 0 1)
  = Some (state_after shallow_run (boot None url_A 0 1))
  /\ queue (crawler (state_after shallow_run (boot None url_A 0 1))) = [(url_B, 1)]
  /\ (forall url depth,
         (url, depth) ∈ queue (crawler (state_after shallow_run (boot None url_A 0 1))) ->
         0 <= depth <= Z.max 0 (0 + 1)).
Proof.
  assert (H : run shallow_run (boot None url_A 0 1)
              = Some (state_after shallow_run (boot None url_A 0 1)))
    by (vm_compute; reflexivity).
  split; [exact H |]. split; [vm_compute; reflexivity |].
  exact (proj1 (queue_depth_bounds None url_A 0 1 shallow_run _ H)).
Defined.

(** ** What is fetched *)

Lemma reach_inv_boot file seed md n : reach_inv seed (boot file seed md n).
Proof. split; simpl; [constructor; [by left | constructor] | constructor | constructor]. Qed.

Lemma reach_inv_step seed e s s' :
  reach_inv seed s -> step e s = Some s' -> reach_inv seed s'.
Proof.
  intros [Hq Hw Ht] Hstep. destruct e as [w response| | |w].
  - apply step_Run_inv in Hstep as (pc & pc' & c' & o & Hpc & Hws & ->).
    pose proof (Forall_lookup_1 _ _ _ _ Hw Hpc) as Hd.
    worker_cases Hws; simpl in Hd.
    all: try (split; simpl;
              [ assumption
              | by apply Forall_insert
              | first [assumption | by constructor] ]).
    + (* get, queue empty *)
      split; simpl; [| by apply Forall_insert | assumption].
      match goal with H : queue _ = _ |- _ => by rewrite H end.
    + (* get *)
      apply Forall_cons in Hq as [Hhd Htl].
      split; simpl; [assumption | by apply Forall_insert | assumption].
    + (* save_links *)
      assert (Hsub : forall l, l ∈ links_table (conn (crawler s)) ->
                               l ∈ links_table (conn (save_links ls (crawler s))))
        by (intros l Hl; apply elem_of_links_table_save_links; by left).
      split; simpl crawler; simpl workers; simpl trace.
      * eapply Forall_impl; [exact Hq |]. intros item. by apply discovered_mono.
      * apply Forall_insert.
        -- eapply Forall_impl; [exact Hw |]. intros pc. by apply pc_discovered_mono.
        -- simpl. split; [by eapply discovered_mono |].
           intros l Hl. apply elem_of_links_table_save_links. by right.
      * eapply Forall_impl; [exact Ht |]. intros o. by apply discovered_mono.
    + (* mark_visited: the URL is added to the set *)
      destruct Hd as [Hu Hls].
      split; simpl; [assumption | | by constructor].
      apply Forall_insert; [assumption |]. simpl.
      apply Forall_forall. intros l Hl. apply Hls. by apply elem_of_elements.
    + (* put, link already visited *)
      apply Forall_cons in Hd as [Hl Hrest].
      split; simpl; [assumption | by apply Forall_insert | assumption].
    + (* put *)
      apply Forall_cons in Hd as [Hl Hrest].
      split; simpl; [| by apply Forall_insert | assumption].
      apply Forall_app. split; [assumption |]. constructor; [by right | constructor].
  - assert (Hsame : forall ws m,
               Forall (pc_discovered seed (links_table (conn (crawler s)))) ws ->
               reach_inv seed (mkSystem (crawler s) ws m (trace s)))
      by (intros ws m H; by split).
    simpl in Hstep. unfold main_step in Hstep. destruct (main s).
    + destruct (_ <? _)%nat; injection Hstep as <-; apply Hsame; [| exact Hw].
      apply Forall_app. split; [exact Hw | by constructor].
    + destruct (queue (crawler s)) eqn:Eq; injection Hstep as <-;
        [by apply Hsame | split; rewrite ?Eq; done].
    + destruct (workers s !! i) as [[]|]; injection Hstep as <-;
        first [by split | by apply Hsame].
    + discriminate.
    + discriminate.
  - simpl in Hstep. unfold interrupt_step in Hstep.
    destruct (main s); try discriminate; injection Hstep as <-; by split.
  - apply step_Raise_inv in Hstep as (pc & pc' & c' & o & Hpc & Hws & ->).
    pose proof (Forall_lookup_1 _ _ _ _ Hw Hpc) as Hd.
    except_cases Hws; simpl in Hd;
      (split; simpl;
       [ assumption
       | by apply Forall_insert
       | first [assumption | by constructor] ]).
Qed.

(** X13.  The crawl stays on what it has found: whatever file the session
    starts from, every URL a worker takes up, fetches or marks in a run, and
    every URL on the queue, is the seed URL or a URL that [save_links] has
    written to the links table (or that was in the table already). *)
Theorem fetches_only_discovered (file : option database) (seed : string) (md : Z)
        (n : nat) (es : list event) (s : system) :
  run es (boot file seed md n) = Some s ->
  (forall w url depth ok,
      Fetch w url depth ok ∈ trace s ->
      url = seed \/ url ∈ links_table (conn (crawler s)))
  /\ (forall url depth,
         (url, depth) ∈ queue (crawler s) ->
         url = seed \/ url ∈ links_table (conn (crawler s))).
Proof.
  intros Hrun.
  assert (Hinv : reach_inv seed s).
  { revert Hrun. apply run_invariant; [apply reach_inv_step | apply reach_inv_boot]. }
  destruct Hinv as [Hq _ Ht]. split.
  - intros w url depth ok Hin. by apply (proj1 (Forall_forall _ _) Ht) in Hin.
  - intros url depth Hin. by apply (proj1 (Forall_forall _ _) Hq) in Hin.
Qed.

Lemma fetches_only_discovered_witness :
  run race_run (boot None url_A 6 2)
  = Some (state_after race_run (boot None url_A 6 2))
  /\ (forall w url depth ok,
         Fetch w url depth ok ∈ trace (state_after race_run (boot None url_A 6 2)) ->
         url = url_A
         \/ url ∈ links_table (conn (crawler (state_after race_run (boot None url_A 6 2))))).
Proof.
  assert (H : run race_run (boot None url_A 6 2)
              = Some (state_after race_run (boot None url_A 6 2)))
    by (vm_compute; reflexivity).
  split; [exact H |].
  exact (proj1 (fetches_only_discovered None url_A 6 2 race_run _ H)).
Defined.

(** ** The threads of [crawl] *)

Lemma threads_inv_boot file seed md n : threads_inv n (boot file seed md n).
Proof. split; simpl; [done | lia | discriminate | intros _ H; by destruct H]. Qed.

Lemma threads_inv_step n e s s' :
  threads_inv n s -> step e s = Some s' -> threads_inv n s'.
Proof.
  intros [Hn Hle Hp Ha] Hstep. destruct e as [w response| | |w].
  - apply step_Run_inv in Hstep as (pc & pc' & c' & o & Hpc & Hws & ->).
    worker_cases Hws;
      (split; simpl; rewrite ?length_insert; try done;
       intros Hs Hm; first [congruence | by apply Ha]).
  - assert (Hsame : threads_inv n s) by (by split).
    simpl in Hstep. unfold main_step in Hstep. destruct (main s) eqn:Em.
    + destruct (_ <? _)%nat eqn:Hlt; injection Hstep as <-.
      * apply Nat.ltb_lt in Hlt.
        split; simpl; rewrite ?length_app; simpl; [done | lia | discriminate |].
        intros _ H. by destruct H.
      * apply Nat.ltb_ge in Hlt.
        split; simpl; [done | done | intros _; lia | intros _ _; lia].
    + destruct (queue (crawler s)); injection Hstep as <-.
      * split; simpl; [done | done | discriminate | intros _ _; by apply Hp].
      * exact Hsame.
    + destruct (workers s !! i) as [[]|]; injection Hstep as <-;
        first [exact Hsame
              | split; simpl;
                [done | done | discriminate | intros Hs _; by apply Ha]].
    + discriminate.
    + discriminate.
  - simpl in Hstep. unfold interrupt_step in Hstep.
    destruct (main s); try discriminate; injection Hstep as <-;
      (split; simpl; [done | done | discriminate | first [discriminate | by intros Hs _; apply Ha]]).
  - apply step_Raise_inv in Hstep as (pc & pc' & c' & o & Hpc & Hws & ->).
    except_cases Hws;
      (split; simpl; rewrite ?length_insert; try done;
       intros Hs Hm; first [congruence | by apply Ha]).
Qed.

(** X14.  [crawl] starts at most [num_threads] workers, and exactly
    [num_threads] of them unless a KeyboardInterrupt cuts the starting loop
    short: whenever the main thread is polling the queue, or has gone past
    the starting loop with the stop flag down, the number of workers is
    [num_threads]. *)
Theorem crawl_starts_num_threads (file : option database) (seed : string) (md : Z)
        (n : nat) (es : list event) (s : system) :
  run es (boot file seed md n) = Some s ->
  (length (workers s) <= n)%nat
  /\ (main s = Polling -> length (workers s) = n)
  /\ (stop_event (crawler s) = false -> main s <> Spawning -> length (workers s) = n).
Proof.
  intros Hrun.
  assert (Hinv : threads_inv n s).
  { revert Hrun. apply run_invariant; [apply threads_inv_step | apply threads_inv_boot]. }
  by destruct Hinv.
Qed.

Lemma crawl_starts_num_threads_witness :
  run completed_run (boot None url_A 6 2)
  = Some (state_after completed_run (boot None url_A 6 2))
  /\ (length (workers (state_after completed_run (boot None url_A 6 2))) <= 2)%nat
  /\ (stop_event (crawler (state_after completed_run (boot None url_A 6 2))) = false ->
      main (state_after completed_run (boot None url_A 6 2)) <> Spawning ->
      length (workers (state_after completed_run (boot None url_A 6 2))) = 2%nat).
Proof.
  assert (H : run completed_run (boot None url_A 6 2)
              = Some (state_after completed_run (boot None url_A 6 2)))
    by (vm_compute; reflexivity).
  split; [exact H |].
  pose proof (crawl_starts_num_threads None url_A 6 2 completed_run _ H) as (H1 & _ & H3).
  split; [exact H1 | exact H3].
Defined.

(** ** The command line, continued *)

Lemma has_char_lower_colon s : Py.has_char ":" (Py.lower s) = Py.has_char ":" s.
Proof.
  induction s as [|c s IH]; simpl; [reflexivity |]. rewrite IH. f_equal.
  destruct c as [[] [] [] [] [] [] [] []]; reflexivity.
Qed.

Lemma has_char_filter_chars p c s :
  Py.has_char c (Py.filter_chars p s) = true -> Py.has_char c s = true.
Proof.
  induction s as [|a s IH]; simpl; [done |].
  destruct (p a); simpl; rewrite !orb_true_iff; intuition.
Qed.

Lemma has_char_lstrip p c s :
  Py.has_char c (Py.lstrip p s) = true -> Py.has_char c s = true.
Proof.
  induction s as [|a s IH]; simpl; [done |].
  destruct (p a); simpl; rewrite ?orb_true_iff; intuition.
Qed.

Lemma find_char_has_char c s i :
  Py.find_char c s = Some i -> Py.has_char c s = true.
Proof.
  revert i. induction s as [|a s IH]; intros i; simpl; [done |].
  destruct (Ascii.eqb a c); [done |]. simpl.
  destruct (Py.find_char c s) as [j|]; [intros _; by eapply IH | done].
Qed.

(** A URL with a scheme has a colon in it. *)
Lemma urlparse_scheme_colon url :
  Url.scheme (Url.urlparse url) <> "" -> Py.has_char ":" url = true.
Proof.
  unfold Url.urlparse, Url.urlparse_with, Url.urlsplit.
  destruct (Url.split_scheme _) as [[sch rest]|] eqn:Hs.
  - intros _. unfold Url.split_scheme in Hs.
    destruct (Py.find_char ":" _) as [i|] eqn:Hf; [| done].
    apply find_char_has_char in Hf.
    by apply has_char_filter_chars, has_char_lstrip in Hf.
  - destruct (Url.split_rest _) as [[[nl p] q] frag].
    destruct (_ && _); [destruct (Url.splitparams p) |]; simpl; done.
Qed.

Lemma is_valid_wikipedia_url_colon url :
  is_valid_wikipedia_url url = true -> Py.has_char ":" url = true.
Proof.
  intros Hv. apply is_valid_wikipedia_url_iff in Hv as (Hs & _).
  apply urlparse_scheme_colon. destruct Hs as [-> | ->]; discriminate.
Qed.

(** X15.  [main] starts a crawl exactly when neither [--help] nor
    [--version] is given and the URL argument passes
    [is_valid_wikipedia_url]; the crawl is then [Crawler(url, max_depth=6,
    num_threads=10)] and nothing is printed before it.  (A valid URL is never
    mistaken for the [list] command: it has a colon in it.) *)
Theorem main_starts_crawl_iff (file : option database) (args : Cli.Namespace) (s : system) :
  snd (Cli.main file args) = Crawl s <->
  Cli.args_help args = false
  /\ Cli.args_version args = false
  /\ exists url, Cli.args_url args = Some url
                 /\ is_valid_wikipedia_url url = true
                 /\ s = boot file url 6 10.
Proof.
  unfold Cli.main, main_from_url. destruct args as [[url|] help version];
    cbn [Cli.args_url Cli.args_help Cli.args_version].
  2:{ split.
      - destruct help, version; cbn [orb andb snd]; discriminate.
      - intros (_ & _ & u & H & _). discriminate. }
  split.
  - destruct help; cbn [orb snd]; [discriminate |].
    destruct (Py.truthy url && Py.mem (Py.lower url) ["list"]);
      cbn [snd]; [discriminate |].
    destruct version; cbn [orb snd]; [discriminate |].
    destruct (Py.truthy url && String.eqb (Py.lower url) "--version");
      cbn [snd]; [discriminate |].
    destruct (Py.truthy url); cbn [negb snd]; [| discriminate].
    destruct (is_valid_wikipedia_url url) eqn:Hv; cbn [negb snd]; [| discriminate].
    intros [= <-]. repeat split. by exists url.
  - intros (-> & -> & u & [= <-] & Hv & ->). cbn [orb].
    pose proof (is_valid_wikipedia_url_colon url Hv) as Hc.
    rewrite <- has_char_lower_colon in Hc.
    assert (Hl : Py.mem (Py.lower url) ["list"] = false).
    { unfold Py.mem; cbn [existsb]. rewrite orb_false_r. apply String.eqb_neq.
      intros Heq. rewrite Heq in Hc. discriminate Hc. }
    assert (Hver : String.eqb (Py.lower url) "--version" = false).
    { apply String.eqb_neq. intros Heq. rewrite Heq in Hc. discriminate Hc. }
    rewrite Hl, Hver, !andb_false_r.
    assert (Ht : Py.truthy url = true) by (destruct url; [discriminate Hc | done]).
    by rewrite Ht, Hv.
Qed.

(** The three ways through [main] once the arguments are parsed. *)
Lemma main_three_ways (file : option database) (args : Cli.Namespace) :
  (snd (Cli.main file args) = Exit 0 /\ Cli.shows args)
  \/ (snd (Cli.main file args) = Exit 1 /\ Cli.refuses args)
  \/ (exists url, snd (Cli.main file args) = Crawl (boot file url 6 10)
                  /\ Cli.accepts args url).
Proof.
  unfold Cli.main, main_from_url, Cli.shows, Cli.refuses, Cli.accepts.
  destruct args as [[url|] help version];
    cbn [Cli.args_url Cli.args_help Cli.args_version].
  2:{ destruct help; cbn [orb snd]; [left; auto |].
      destruct version; cbn [orb snd]; [left; auto |].
      right; left. repeat split. by left. }
  assert (Hlist : Py.truthy url && Py.mem (Py.lower url) ["list"] = true
                  <-> Py.lower url = "list").
  { unfold Py.mem; cbn [existsb]. rewrite orb_false_r, andb_true_iff, String.eqb_eq.
    split; [tauto |]. intros H. split; [| done]. by destruct url. }
  assert (Hver : Py.truthy url && String.eqb (Py.lower url) "--version" = true
                 <-> Py.lower url = "--version").
  { rewrite andb_true_iff, String.eqb_eq.
    split; [tauto |]. intros H. split; [| done]. by destruct url. }
  destruct help; cbn [orb snd]; [left; auto |].
  destruct (Py.truthy url && Py.mem (Py.lower url) ["list"]) eqn:E1; cbn [snd].
  { left. split; [done |]. right; right. exists url. split; [done |].
    left. by apply Hlist. }
  destruct version; cbn [orb snd]; [left; auto |].
  destruct (Py.truthy url && String.eqb (Py.lower url) "--version") eqn:E2; cbn [snd].
  { left. split; [done |]. right; right. exists url. split; [done |].
    right. by apply Hver. }
  assert (Hnl : Py.lower url <> "list") by (intros H; apply Hlist in H; congruence).
  assert (Hnv : Py.lower url <> "--version") by (intros H; apply Hver in H; congruence).
  destruct (Py.truthy url) eqn:Et; cbn [negb snd].
  - destruct (is_valid_wikipedia_url url) eqn:Ev; cbn [negb snd].
    + right; right. exists url. split; [done |]. repeat split; try done.
      by apply truthy_true.
    + right; left. split; [done |]. repeat split. right. exists url.
      repeat split; try done. by right.
  - right; left. split; [done |]. repeat split. right. exists url.
    repeat split; try done. left. by apply truthy_false.
Qed.

Lemma shows_not_refuses args : Cli.shows args -> Cli.refuses args -> False.
Proof.
  intros [H | [H | (u & Hu & Hl)]] (Hh & Hv & Hr); [congruence | congruence |].
  destruct Hr as [Hn | (u' & Hu' & Hnl & Hnv & _)]; [congruence |].
  rewrite Hu in Hu'. injection Hu' as <-. by destruct Hl.
Qed.

Lemma shows_not_accepts args url : Cli.shows args -> Cli.accepts args url -> False.
Proof.
  intros [H | [H | (u & Hu & Hl)]] (Hh & Hv & Hu' & Hnl & Hnv & _);
    [congruence | congruence |].
  rewrite Hu in Hu'. injection Hu' as <-. by destruct Hl.
Qed.

Lemma refuses_not_accepts args url : Cli.refuses args -> Cli.accepts args url -> False.
Proof.
  intros (_ & _ & Hr) (_ & _ & Hu & _ & _ & Hne & Hv).
  destruct Hr as [Hn | (u' & Hu' & _ & _ & [-> | Hinv])]; [congruence | |].
  - rewrite Hu in Hu'. by injection Hu' as ->.
  - rewrite Hu in Hu'. injection Hu' as <-. congruence.
Qed.

(** X16.  How [main] leaves before any crawl.  When [parse_known_args]
    reports a usage error the process is left with code 2 and [main] does
    nothing more.  Otherwise [main] calls [sys.exit(0)] exactly when help or
    the version is shown, that is when [--help] is set, or the URL argument
    is [list] in any letter case, or [--version] is set, or the URL argument
    is [--version] in any letter case; it calls [sys.exit(1)] exactly when
    neither is shown and no URL is given, or an empty one, or one that is
    rejected; in the one remaining case it calls [crawl] and no [sys.exit].
    No other code is used. *)
Theorem main_exit_codes (file : option database) (p : Cli.parsed) :
  (snd (Cli.main_of file p) = Exit 2 <-> p = Cli.UsageError)
  /\ (snd (Cli.main_of file p) = Exit 0 <->
      exists args, p = Cli.Parsed args /\ Cli.shows args)
  /\ (snd (Cli.main_of file p) = Exit 1 <->
      exists args, p = Cli.Parsed args /\ Cli.refuses args)
  /\ ((exists s, snd (Cli.main_of file p) = Crawl s) <->
      exists args url, p = Cli.Parsed args /\ Cli.accepts args url)
  /\ (forall code, snd (Cli.main_of file p) = Exit code ->
                   code = 0 \/ code = 1 \/ code = 2).
Proof.
  destruct p as [|args]; cbn [Cli.main_of snd].
  - split; [done |].
    split; [split; [discriminate | intros (a & H & _); discriminate H] |].
    split; [split; [discriminate | intros (a & H & _); discriminate H] |].
    split; [split; [intros [s H]; discriminate H
                   | intros (a & u & H & _); discriminate H] |].
    intros code [= <-]. auto.
  - destruct (main_three_ways file args) as [[E H] | [[E H] | (url & E & H)]]; rewrite E.
    + split; [split; discriminate |].
      split; [split; [intros _; by exists args | done] |].
      split; [split; [discriminate |] |].
      { intros (a & [= <-] & Hr). by destruct (shows_not_refuses args). }
      split; [split; [intros [s Hs]; discriminate Hs |] |].
      { intros (a & u & [= <-] & Ha). by destruct (shows_not_accepts args u). }
      intros code [= <-]. auto.
    + split; [split; discriminate |].
      split; [split; [discriminate |] |].
      { intros (a & [= <-] & Hs). by destruct (shows_not_refuses args). }
      split; [split; [intros _; by exists args | done] |].
      split; [split; [intros [s Hs]; discriminate Hs |] |].
      { intros (a & u & [= <-] & Ha). by destruct (refuses_not_accepts args u). }
      intros code [= <-]. auto.
    + split; [split; discriminate |].
      split; [split; [discriminate |] |].
      { intros (a & [= <-] & Hs). by destruct (shows_not_accepts args url). }
      split; [split; [discriminate |] |].
      { intros (a & [= <-] & Hr). by destruct (refuses_not_accepts args url). }
      split; [split; [intros _; by exists args, url | intros _; by eexists] |].
      intros code [=].
Qed.

(** ** Cancellation *)

Lemma can_exit_step w response s s1 pc :
  workers s !! w = Some pc ->
  step (Run w response) s = Some s1 ->
  can_exit w response s1 -> can_exit w response s.
Proof.
  intros Hpc Hstep (k & s' & Hrun & Hws & Hm & Hstop).
  apply step_Run_inv in Hstep as Hinv.
  destruct Hinv as (pc0 & pc' & c' & o & _ & _ & ->).
  exists (S k), s'. simpl replicate. cbn [run]. rewrite Hstep.
  split; [exact Hrun |]. split; [| by split].
  rewrite Hws. simpl. apply list_insert_insert_eq.
Qed.

Lemma not_blocked w s pc :
  alone w s -> workers s !! w = Some pc -> blocked pc (workers s) = false.
Proof.
  intros Hal Hpc. unfold blocked. destruct (takes_lock pc) eqn:Et; [| done].
  cbn [andb]. apply not_true_iff_false. intros H.
  apply existsb_exists in H as (pc0 & Hin & Hh).
  apply list_elem_of_In, list_elem_of_lookup_1 in Hin as [w0 Hw0].
  destruct (decide (w0 = w)) as [-> | Hne].
  - rewrite Hpc in Hw0. injection Hw0 as <-. by destruct pc.
  - rewrite (Hal w0 pc0 Hne Hw0) in Hh. discriminate Hh.
Qed.

Lemma alone_insert w s c' pc' m t :
  alone w s -> alone w (mkSystem c' (<[w := pc']> (workers s)) m t).
Proof.
  intros Hal w' pc Hne. cbn [workers]. rewrite list_lookup_insert_ne by done.
  by apply Hal.
Qed.

(** From each place of the loop, with the stop flag up and [db_lock]
    free or in the worker's own hands. *)
Ltac exit_via Hpc Hal IH :=
  eapply (can_exit_step _ _ _ _ _ Hpc);
  [ unfold step; rewrite Hpc, (not_blocked _ _ _ Hal Hpc); cbn [worker_step];
    reflexivity
  | eapply IH;
    [ cbn [workers]; apply list_lookup_insert_eq; by eapply lookup_lt_Some
    | by apply alone_insert
    | simpl; assumption ] ].

Ltac exit_with Hpc Hal E IH :=
  eapply (can_exit_step _ _ _ _ _ Hpc);
  [ unfold step; rewrite Hpc, (not_blocked _ _ _ Hal Hpc); cbn [worker_step];
    rewrite E; reflexivity
  | eapply IH;
    [ cbn [workers]; apply list_lookup_insert_eq; by eapply lookup_lt_Some
    | by apply alone_insert
    | simpl; assumption ] ].

Lemma can_exit_Exited w response s :
  workers s !! w = Some Exited -> alone w s -> stop_event (crawler s) = true ->
  can_exit w response s.
Proof.
  intros Hpc _ Hstop. exists 0%nat, s. simpl.
  split; [reflexivity |]. split; [| by split].
  symmetry. by apply list_insert_id.
Qed.

Lemma can_exit_AtLoop w response s :
  workers s !! w = Some AtLoop -> alone w s -> stop_event (crawler s) = true ->
  can_exit w response s.
Proof. intros Hpc Hal Hstop. exit_with Hpc Hal Hstop can_exit_Exited. Qed.

Lemma can_exit_AtCount w response s u d :
  workers s !! w = Some (AtCount u d) -> alone w s -> stop_event (crawler s) = true ->
  can_exit w response s.
Proof. intros Hpc Hal Hstop. exit_via Hpc Hal can_exit_AtLoop. Qed.

Lemma can_exit_AtPut w response rest : forall s u d,
  workers s !! w = Some (AtPut u d rest) -> alone w s -> stop_event (crawler s) = true ->
  can_exit w response s.
Proof.
  induction rest as [|l rest IH]; intros s u d Hpc Hal Hstop.
  - exit_via Hpc Hal can_exit_AtCount.
  - destruct (bool_decide (l ∈ visited (crawler s))) eqn:E; exit_with Hpc Hal E IH.
Qed.

Lemma can_exit_AtAdd w response s u d ls :
  workers s !! w = Some (AtAdd u d ls) -> alone w s -> stop_event (crawler s) = true ->
  can_exit w response s.
Proof. intros Hpc Hal Hstop. exit_via Hpc Hal can_exit_AtPut. Qed.

Lemma can_exit_AtMark w response s u d ls :
  workers s !! w = Some (AtMark u d ls) -> alone w s -> stop_event (crawler s) = true ->
  can_exit w response s.
Proof.
  intros Hpc Hal Hstop. destruct (sqlite_integer d) eqn:E.
  - exit_with Hpc Hal E can_exit_AtAdd.
  - exit_with Hpc Hal E can_exit_AtLoop.
Qed.

Lemma can_exit_AtSave w response s u d ls :
  workers s !! w = Some (AtSave u d ls) -> alone w s -> stop_event (crawler s) = true ->
  can_exit w response s.
Proof. intros Hpc Hal Hstop. exit_via Hpc Hal can_exit_AtMark. Qed.

Lemma can_exit_AtFetch w response s u d :
  workers s !! w = Some (AtFetch u d) -> alone w s -> stop_event (crawler s) = true ->
  can_exit w response s.
Proof.
  intros Hpc Hal Hstop. destruct response as [html|].
  - exit_via Hpc Hal can_exit_AtSave.
  - exit_via Hpc Hal can_exit_AtLoop.
Qed.

Lemma can_exit_AtCheck w response s u d :
  workers s !! w = Some (AtCheck u d) -> alone w s -> stop_event (crawler s) = true ->
  can_exit w response s.
Proof.
  intros Hpc Hal Hstop.
  destruct (d >? max_depth (crawler s)) eqn:Ed.
  - exit_with Hpc Hal Ed can_exit_AtLoop.
  - destruct (bool_decide (u ∈ visited (crawler s))) eqn:Ev.
    + eapply (can_exit_step _ _ _ _ _ Hpc);
        [ unfold step; rewrite Hpc, (not_blocked _ _ _ Hal Hpc); cbn [worker_step];
          rewrite Ed, Ev; reflexivity
        | apply can_exit_AtLoop;
          [ cbn [workers]; apply list_lookup_insert_eq; by eapply lookup_lt_Some
          | by apply alone_insert
          | simpl; assumption ] ].
    + eapply (can_exit_step _ _ _ _ _ Hpc);
        [ unfold step; rewrite Hpc, (not_blocked _ _ _ Hal Hpc); cbn [worker_step];
          rewrite Ed, Ev; reflexivity
        | eapply can_exit_AtFetch;
          [ cbn [workers]; apply list_lookup_insert_eq; by eapply lookup_lt_Some
          | by apply alone_insert
          | simpl; assumption ] ].
Qed.

Lemma can_exit_AtGet w response s :
  workers s !! w = Some AtGet -> alone w s -> stop_event (crawler s) = true ->
  can_exit w response s.
Proof.
  intros Hpc Hal Hstop.
  destruct (queue (crawler s)) as [|[u d] q] eqn:Eq.
  - exit_with Hpc Hal Eq can_exit_AtLoop.
  - exit_with Hpc Hal Eq can_exit_AtCheck.
Qed.

Lemma can_exit_any w response s pc :
  workers s !! w = Some pc -> alone w s -> stop_event (crawler s) = true ->
  can_exit w response s.
Proof.
  intros Hpc Hal Hstop. destruct pc.
  - by apply can_exit_AtLoop.
  - by apply can_exit_AtGet.
  - by eapply can_exit_AtCheck.
  - by eapply can_exit_AtFetch.
  - by eapply can_exit_AtSave.
  - by eapply can_exit_AtMark.
  - by eapply can_exit_AtAdd.
  - by eapply can_exit_AtPut.
  - by eapply can_exit_AtCount.
  - by apply can_exit_Exited.
Qed.

Lemma calm_moves w response k : Forall (calm response) (replicate k (Run w response)).
Proof. apply Forall_replicate. right. by exists w. Qed.

(** Whoever is inside [mark_visited] can finish it: after that nobody
    holds [db_lock]. *)
Lemma all_release response : forall j s,
  stop_event (crawler s) = true ->
  (j <= length (workers s))%nat ->
  exists es s',
    Forall (calm response) es
    /\ run es s = Some s'
    /\ length (workers s') = length (workers s)
    /\ (forall w pc, (w < j)%nat -> workers s' !! w = Some pc -> holds_lock pc = false)
    /\ (forall w, (j <= w)%nat -> workers s' !! w = workers s !! w)
    /\ main s' = main s
    /\ stop_event (crawler s') = true.
Proof.
  induction j as [|j IH]; intros s Hstop Hj.
  - exists [], s. repeat split; [constructor | lia | done].
  - destruct (IH s Hstop ltac:(lia)) as (es & s1 & Hcalm & Hrun & Hlen & Hfree & Hrest & Hm & Hs1).
    destruct (lookup_lt_is_Some_2 (workers s1) j ltac:(lia)) as [pc Hpc].
    destruct (holds_lock pc) eqn:Eh.
    + destruct pc; try discriminate Eh.
      exists (es ++ [Run j response]). eexists.
      split; [apply Forall_app; split; [exact Hcalm |]; constructor; [right; by exists j | constructor] |].
      split; [rewrite run_app, Hrun; cbn [run]; unfold step; rewrite Hpc;
              cbn [blocked takes_lock andb worker_step]; reflexivity |].
      cbn [workers main crawler visited_add with_visited stop_event].
      split; [rewrite length_insert; exact Hlen |].
      split; [| split; [| by split]].
      * intros w pc Hw Hl.
        destruct (decide (w = j)) as [-> | Hne].
        -- rewrite list_lookup_insert_eq in Hl by lia. by injection Hl as <-.
        -- rewrite list_lookup_insert_ne in Hl by done. eapply Hfree; [| exact Hl]. lia.
      * intros w Hw. rewrite list_lookup_insert_ne by lia. apply Hrest. lia.
    + exists es, s1.
      split; [exact Hcalm |]. split; [exact Hrun |]. split; [exact Hlen |].
      split; [| split; [| by split]].
      * intros w pc0 Hw Hl.
        destruct (decide (w = j)) as [-> | Hne].
        -- rewrite Hpc in Hl. by injection Hl as <-.
        -- eapply Hfree; [| exact Hl]. lia.
      * intros w Hw. apply Hrest. lia.
Qed.

Lemma all_can_exit response : forall j s,
  stop_event (crawler s) = true ->
  (forall w pc, workers s !! w = Some pc -> holds_lock pc = false) ->
  (j <= length (workers s))%nat ->
  exists es s',
    Forall (calm response) es
    /\ run es s = Some s'
    /\ length (workers s') = length (workers s)
    /\ (forall w, (w < j)%nat -> workers s' !! w = Some Exited)
    /\ (forall w pc, workers s' !! w = Some pc -> holds_lock pc = false)
    /\ main s' = main s
    /\ stop_event (crawler s') = true.
Proof.
  induction j as [|j IH]; intros s Hstop Hfree Hj.
  - exists [], s. split; [constructor |]. split; [reflexivity |].
    split; [reflexivity |]. split; [intros w Hw; lia |]. split; [exact Hfree |].
    by split.
  - destruct (IH s Hstop Hfree ltac:(lia))
      as (es & s1 & Hcalm & Hrun & Hlen & Hex & Hfree1 & Hm & Hs1).
    destruct (lookup_lt_is_Some_2 (workers s1) j ltac:(lia)) as [pc Hpc].
    assert (Hal : alone j s1) by (intros w' pc' _ Hl; by eapply Hfree1).
    destruct (can_exit_any j response s1 pc Hpc Hal Hs1) as (k & s2 & Hrun2 & Hws & Hm2 & Hs2).
    exists (es ++ replicate k (Run j response)), s2.
    split; [apply Forall_app; split; [exact Hcalm | apply calm_moves] |].
    split; [rewrite run_app, Hrun; exact Hrun2 |].
    split; [rewrite Hws, length_insert; exact Hlen |].
    split; [| split; [| split; [congruence | exact Hs2]]].
    + intros w Hw. rewrite Hws.
      destruct (decide (w = j)) as [-> | Hne].
      * apply list_lookup_insert_eq. lia.
      * rewrite list_lookup_insert_ne by done. apply Hex. lia.
    + intros w pc0 Hl. rewrite Hws in Hl.
      apply list_lookup_insert_Some in Hl as [(_ & <- & _) | (_ & Hl)]; [done |].
      by eapply Hfree1.
Qed.

Lemma join_all : forall d s i,
  (forall w, (w < length (workers s))%nat -> workers s !! w = Some Exited) ->
  (length (workers s) - i = d)%nat ->
  main s = Joining i ->
  exists k,
    run (replicate k Tick) s
    = Some (mkSystem (crawler s) (workers s) Finished (trace s)).
Proof.
  induction d as [|d IH]; intros s i Hex Hd Hm.
  - exists 1%nat. simpl. unfold main_step. rewrite Hm.
    rewrite (lookup_ge_None_2 (workers s) i) by lia. reflexivity.
  - assert (Hi : workers s !! i = Some Exited) by (apply Hex; lia).
    destruct (IH (mkSystem (crawler s) (workers s) (Joining (S i)) (trace s)) (S i))
      as [k Hk]; [exact Hex | simpl; lia | reflexivity |].
    exists (S k). simpl replicate. cbn [run step]. unfold main_step.
    rewrite Hm, Hi. exact Hk.
Qed.

(** X17.  Ctrl-C ends the crawl.  From any state in which the main thread
    is still starting workers or polling the queue, a KeyboardInterrupt can
    be followed by a continuation, with no further interrupt and whatever the
    fetches still under way return, in which every worker leaves its loop
    and [crawl] joins them all and reaches its end.  (The workers finish the
    item they hold; the stop flag is looked at only at the head of the
    loop.) *)
Theorem interrupt_lets_crawl_finish (s : system) (response : option markup) :
  main s = Spawning \/ main s = Polling ->
  exists es s',
    Forall (calm response) es
    /\ run (KeyboardInterrupt :: es) s = Some s'
    /\ main s' = Finished
    /\ Forall (fun pc => pc = Exited) (workers s')
    /\ length (workers s') = length (workers s)
    /\ stop_event (crawler s') = true.
Proof.
  intros Hm.
  set (s0 := mkSystem (with_stop true (crawler s)) (workers s) (Joining 0) (trace s)).
  assert (Hint : step KeyboardInterrupt s = Some s0).
  { simpl. unfold interrupt_step. by destruct Hm as [-> | ->]. }
  destruct (all_release response (length (workers s0)) s0 eq_refl (Nat.le_refl _))
    as (es0 & sr & Hcalm0 & Hrun0 & Hlen0 & Hfree & _ & Hm0 & Hsr).
  assert (Hfree' : forall w pc, workers sr !! w = Some pc -> holds_lock pc = false).
  { intros w pc Hl. eapply Hfree; [| exact Hl].
    rewrite <- Hlen0. by eapply lookup_lt_Some. }
  destruct (all_can_exit response (length (workers sr)) sr Hsr Hfree' (Nat.le_refl _))
    as (es & s1 & Hcalm & Hrun & Hlen & Hex & _ & Hm1 & Hs1).
  destruct (join_all (length (workers s1) - 0) s1 0) as [k Hk];
    [intros w Hw; apply Hex; lia | reflexivity | by rewrite Hm1, Hm0 |].
  exists (es0 ++ es ++ replicate k Tick),
         (mkSystem (crawler s1) (workers s1) Finished (trace s1)).
  split.
  { apply Forall_app. split; [exact Hcalm0 |].
    apply Forall_app. split; [exact Hcalm |]. apply Forall_replicate. by left. }
  split; [cbn [run]; rewrite Hint, run_app, Hrun0, run_app, Hrun; exact Hk |].
  split; [reflexivity |].
  split; [| split; [cbn [workers]; by rewrite Hlen, Hlen0 | exact Hs1]].
  simpl. apply Forall_lookup. intros w pc Hpc.
  assert (Hw : (w < length (workers s1))%nat) by (by eapply lookup_lt_Some).
  rewrite Hex in Hpc by lia. congruence.
Qed.

Lemma interrupt_lets_crawl_finish_witness :
  (main (state_after mid_race_run (boot None url_A 6 2)) = Spawning
   \/ main (state_after mid_race_run (boot None url_A 6 2)) = Polling)
  /\ workers (state_after mid_race_run (boot None url_A 6 2))
     = [AtFetch url_B 2; AtFetch url_B 1]
  /\ exists es s',
      Forall (calm None) es
      /\ run (KeyboardInterrupt :: es) (state_after mid_race_run (boot None url_A 6 2))
         = Some s'
      /\ main s' = Finished
      /\ Forall (fun pc => pc = Exited) (workers s')
      /\ length (workers s')
         = length (workers (state_after mid_race_run (boot None url_A 6 2)))
      /\ stop_event (crawler s') = true.
Proof.
  assert (H : main (state_after mid_race_run (boot None url_A 6 2)) = Spawning
              \/ main (state_after mid_race_run (boot None url_A 6 2)) = Polling)
    by (left; vm_compute; reflexivity).
  split; [exact H |]. split; [vm_compute; reflexivity |].
  exact (interrupt_lets_crawl_finish _ None H).
Defined.

(** ** Joining and parsing again *)

Lemma str_app_cons c (a b : string) : String c a +:+ b = String c (a +:+ b).
Proof. reflexivity. Qed.

Lemma str_app_nil (b : string) : "" +:+ b = b.
Proof. reflexivity. Qed.

Lemma str_app_assoc (a b c : string) : (a +:+ b) +:+ c = a +:+ (b +:+ c).
Proof.
  induction a as [|x a IH]; [reflexivity |].
  rewrite !str_app_cons. by f_equal.
Qed.

Lemma all_chars_app p (a b : string) :
  Py.all_chars p (a +:+ b) = Py.all_chars p a && Py.all_chars p b.
Proof.
  induction a as [|x a IH]; [reflexivity |].
  rewrite str_app_cons. simpl. rewrite IH. by rewrite andb_assoc.
Qed.

Lemma all_chars_take p n : forall s,
  Py.all_chars p s = true -> Py.all_chars p (Py.take_str n s) = true.
Proof.
  induction n as [|n IH]; intros [|c s]; simpl; try done.
  rewrite !andb_true_iff. intros [H1 H2]. split; [done | by apply IH].
Qed.

Lemma all_chars_drop p n : forall s,
  Py.all_chars p s = true -> Py.all_chars p (Py.drop_str n s) = true.
Proof.
  induction n as [|n IH]; intros [|c s]; simpl; try done.
  rewrite !andb_true_iff. intros [H1 H2]. by apply IH.
Qed.

Lemma all_chars_filter_chars p s :
  Py.all_chars p (Py.filter_chars p s) = true.
Proof.
  induction s as [|c s IH]; simpl; [reflexivity |].
  destruct (p c) eqn:E; simpl; [by rewrite E |]. exact IH.
Qed.

Lemma filter_chars_all p s :
  Py.all_chars p s = true -> Py.filter_chars p s = s.
Proof.
  induction s as [|c s IH]; simpl; [reflexivity |].
  rewrite andb_true_iff. intros [-> H]. by rewrite IH.
Qed.

Lemma span_netloc_spec s :
  no_delim (fst (Url.span_netloc s))
  /\ (snd (Url.span_netloc s) = ""
      \/ exists c r, snd (Url.span_netloc s) = String c r /\ Py.has_char c "/?#" = true)
  /\ forall p, Py.all_chars p s = true ->
               Py.all_chars p (fst (Url.span_netloc s)) = true
               /\ Py.all_chars p (snd (Url.span_netloc s)) = true.
Proof.
  unfold no_delim. induction s as [|c s (IH1 & IH2 & IH3)].
  - split; [reflexivity |]. split; [by left | done].
  - cbn [Url.span_netloc]. destruct (Py.has_char c "/?#") eqn:E.
    + cbn [fst snd]. split; [reflexivity |]. split; [right; by exists c, s |].
      intros p Hp. split; [reflexivity | exact Hp].
    + destruct (Url.span_netloc s) as [n r]; cbn [fst snd] in *.
      split; [cbn [Py.all_chars]; by rewrite E |]. split; [exact IH2 |].
      intros p Hp. cbn [Py.all_chars] in *.
      apply andb_true_iff in Hp as [Hc Hs].
      destruct (IH3 p Hs) as [Hn Hr]. by rewrite Hc, Hn, Hr.
Qed.

(** The authority is read back from in front of a slash. *)
Lemma span_netloc_app n r :
  no_delim n ->
  (r = "" \/ exists c r', r = String c r' /\ Py.has_char c "/?#" = true) ->
  Url.span_netloc (n +:+ r) = (n, r).
Proof.
  unfold no_delim. induction n as [|c n IH]; intros Hn Hr.
  - rewrite str_app_nil.
    destruct Hr as [-> | (c & r' & -> & Hc)]; cbn [Url.span_netloc];
      [reflexivity | by rewrite Hc].
  - cbn [Py.all_chars] in Hn. apply andb_true_iff in Hn as [Hc Hn].
    apply negb_true_iff in Hc.
    rewrite str_app_cons. cbn [Url.span_netloc]. rewrite Hc, (IH Hn Hr). reflexivity.
Qed.

Lemma split_once_all_chars p c s :
  Py.all_chars p s = true ->
  Py.all_chars p (fst (Py.split_once c s)) = true
  /\ Py.all_chars p (snd (Py.split_once c s)) = true.
Proof.
  intros Hs. unfold Py.split_once. destruct (Py.find_char c s); cbn [fst snd].
  - split; [by apply all_chars_take | by apply all_chars_drop].
  - by split.
Qed.

Lemma splitparams_all_chars p s :
  Py.all_chars p s = true ->
  Py.all_chars p (fst (Url.splitparams s)) = true
  /\ Py.all_chars p (snd (Url.splitparams s)) = true.
Proof.
  intros Hs. unfold Url.splitparams.
  destruct (Py.rfind_char "/" s);
    [destruct (Py.find_char ";" _) | destruct (Py.find_char ";" s)];
    cbn [fst snd]; split; try done;
    by (apply all_chars_take || apply all_chars_drop).
Qed.

Lemma split_rest_all_chars p url :
  Py.all_chars p url = true ->
  let '(nl, path, q, frag) := Url.split_rest url in
  Py.all_chars p nl = true /\ Py.all_chars p path = true
  /\ Py.all_chars p q = true /\ Py.all_chars p frag = true.
Proof.
  intros Hu. unfold Url.split_rest.
  assert (H1 : let '(nl, u1) := if Py.startswith "//" url then Url.splitnetloc url
                                else ("", url) in
               Py.all_chars p nl = true /\ Py.all_chars p u1 = true).
  { destruct (Py.startswith "//" url); [| by split].
    unfold Url.splitnetloc.
    pose proof (proj2 (proj2 (span_netloc_spec (Py.drop_str 2 url))) p
                      (all_chars_drop p 2 url Hu)) as [Ha Hb].
    by destruct (Url.span_netloc (Py.drop_str 2 url)). }
  destruct (if Py.startswith "//" url then Url.splitnetloc url else ("", url))
    as [nl u1]. destruct H1 as [Hnl Hu1].
  assert (H2 : let '(u2, frag) := if Py.has_char "#" u1 then Py.split_once "#" u1
                                  else (u1, "") in
               Py.all_chars p u2 = true /\ Py.all_chars p frag = true).
  { destruct (Py.has_char "#" u1); [| by split].
    pose proof (split_once_all_chars p "#" u1 Hu1) as [Ha Hb].
    by destruct (Py.split_once "#" u1). }
  destruct (if Py.has_char "#" u1 then Py.split_once "#" u1 else (u1, ""))
    as [u2 frag]. destruct H2 as [Hu2 Hfrag].
  assert (H3 : let '(u3, q) := if Py.has_char "?" u2 then Py.split_once "?" u2
                               else (u2, "") in
               Py.all_chars p u3 = true /\ Py.all_chars p q = true).
  { destruct (Py.has_char "?" u2); [| by split].
    pose proof (split_once_all_chars p "?" u2 Hu2) as [Ha Hb].
    by destruct (Py.split_once "?" u2). }
  destruct (if Py.has_char "?" u2 then Py.split_once "?" u2 else (u2, ""))
    as [u3 q]. destruct H3 as [Hu3 Hq]. by repeat split.
Qed.

Lemma filter_chars_app p (a b : string) :
  Py.filter_chars p (a +:+ b) = Py.filter_chars p a +:+ Py.filter_chars p b.
Proof.
  induction a as [|x a IH]; [reflexivity |].
  rewrite str_app_cons. cbn [Py.filter_chars]. rewrite IH. by destruct (p x).
Qed.

Lemma all_chars_removelast p (l : list string) :
  Forall (fun w => Py.all_chars p w = true) l ->
  Forall (fun w => Py.all_chars p w = true) (removelast l).
Proof.
  induction 1 as [|x l Hx Hl IH]; [constructor |].
  simpl. destruct l; [constructor | by constructor].
Qed.

Lemma split_all_chars p c s :
  Py.all_chars p s = true ->
  Forall (fun w => Py.all_chars p w = true) (Py.split c s).
Proof.
  induction s as [|a s IH]; intros Hs.
  - repeat constructor.
  - cbn [Py.all_chars] in Hs. apply andb_true_iff in Hs as [Ha Hs].
    specialize (IH Hs). cbn [Py.split].
    destruct (Ascii.eqb a c); [by constructor |].
    destruct (Py.split c s) as [|w ws]; [repeat constructor; simpl; by rewrite Ha |].
    apply Forall_cons in IH as [Hw Hws].
    constructor; [| exact Hws]. cbn [Py.all_chars]. by rewrite Ha, Hw.
Qed.

Lemma resolve_segments_all_chars p (segs : list string) : forall acc,
  Forall (fun w => Py.all_chars p w = true) segs ->
  Forall (fun w => Py.all_chars p w = true) acc ->
  Forall (fun w => Py.all_chars p w = true) (Url.resolve_segments segs acc).
Proof.
  induction segs as [|seg segs IH]; intros acc Hsegs Hacc; [exact Hacc |].
  apply Forall_cons in Hsegs as [Hseg Hsegs]. cbn [Url.resolve_segments].
  destruct (String.eqb seg ".."); [by apply IH, all_chars_removelast |].
  destruct (String.eqb seg "."); [by apply IH |].
  apply IH; [exact Hsegs |]. apply Forall_app. split; [exact Hacc | by constructor].
Qed.

Lemma join_all_chars p (sep : string) (l : list string) :
  Py.all_chars p sep = true ->
  Forall (fun w => Py.all_chars p w = true) l ->
  Py.all_chars p (Py.join sep l) = true.
Proof.
  intros Hsep. induction 1 as [|w l Hw Hl IH]; [reflexivity |].
  cbn [Py.join]. destruct l as [|w' l]; [exact Hw |].
  rewrite !all_chars_app, Hw, Hsep. exact IH.
Qed.

(** What [urlparse] returns has no tab, carriage return or line feed in
    it, and its authority has no slash, question mark or hash. *)
Lemma urlparse_with_parts url d :
  safe (Url.netloc (Url.urlparse_with url d))
  /\ safe (Url.path (Url.urlparse_with url d))
  /\ safe (Url.params (Url.urlparse_with url d))
  /\ safe (Url.query (Url.urlparse_with url d))
  /\ no_delim (Url.netloc (Url.urlparse_with url d)).
Proof.
  unfold safe, Url.urlparse_with, Url.urlsplit.
  assert (Hclean : Py.all_chars (fun c => negb (Url.unsafe_url_byte c))
                     (Url.remove_unsafe (Py.lstrip Url.c0_control_or_space url)) = true)
    by apply all_chars_filter_chars.
  revert Hclean.
  generalize (Url.remove_unsafe (Py.lstrip Url.c0_control_or_space url)) as clean.
  intros clean Hclean.
  assert (Hrest : exists sch rest,
             match Url.split_scheme clean with
             | Some (s, rest) => (s, rest)
             | None => (Url.remove_unsafe (Py.strip Url.c0_control_or_space d), clean)
             end = (sch, rest)
             /\ Py.all_chars (fun c => negb (Url.unsafe_url_byte c)) rest = true).
  { unfold Url.split_scheme.
    destruct (Py.find_char ":" clean) as [[|i]|]; try (by eexists _, _).
    destruct clean as [|c0 cl]; [by eexists _, _ |].
    destruct (_ && _); [| by eexists _, _].
    eexists _, _. split; [reflexivity |]. by apply all_chars_drop. }
  destruct Hrest as (sch & rest & -> & Hr).
  pose proof (split_rest_all_chars _ rest Hr) as Hparts.
  assert (Hnd : no_delim (fst (fst (fst (Url.split_rest rest))))).
  { unfold Url.split_rest.
    assert (H1 : no_delim (fst (if Py.startswith "//" rest then Url.splitnetloc rest
                                else ("", rest)))).
    { destruct (Py.startswith "//" rest); [| reflexivity].
      exact (proj1 (span_netloc_spec (Py.drop_str 2 rest))). }
    destruct (if Py.startswith "//" rest then Url.splitnetloc rest else ("", rest))
      as [nl u1].
    destruct (if Py.has_char "#" u1 then Py.split_once "#" u1 else (u1, "")) as [u2 frag].
    destruct (if Py.has_char "?" u2 then Py.split_once "?" u2 else (u2, "")) as [u3 q].
    exact H1. }
  destruct (Url.split_rest rest) as [[[nl p] q] frag].
  destruct Hparts as (Hnl & Hp & Hq & Hfrag). cbn [fst] in Hnd.
  destruct (Py.mem sch Url.uses_params && Py.has_char ";" p).
  - pose proof (splitparams_all_chars _ p Hp) as [Ha Hb].
    destruct (Url.splitparams p) as [p' prm]. by repeat split.
  - by repeat split.
Qed.

Lemma urlparse_parts url :
  safe (Url.netloc (Url.urlparse url))
  /\ safe (Url.path (Url.urlparse url))
  /\ safe (Url.params (Url.urlparse url))
  /\ safe (Url.query (Url.urlparse url))
  /\ no_delim (Url.netloc (Url.urlparse url)).
Proof. apply urlparse_with_parts. Qed.

(** [urljoin_site_relative] with what is known of the joined path: it is not
    empty and has none of the characters [urlsplit] removes. *)
Lemma urljoin_site_relative_path base href :
  Url.scheme (Url.urlparse base) = "http" \/ Url.scheme (Url.urlparse base) = "https" ->
  Url.scheme (Url.urlparse href) = "" ->
  Url.netloc (Url.urlparse href) = "" ->
  Py.startswith "/wiki/" (Url.path (Url.urlparse href)) = true ->
  exists p,
    Url.urljoin base href =
    Url.urlunparse
      (Url.mkParseResult (Url.scheme (Url.urlparse base)) (Url.netloc (Url.urlparse base))
         p (Url.params (Url.urlparse href)) (Url.query (Url.urlparse href))
         (Url.fragment (Url.urlparse href)))
    /\ p <> "" /\ safe p.
Proof.
  intros Hb Hs Hn Hp.
  assert (Hhref : Py.truthy href = true).
  { destruct href; [discriminate Hp | reflexivity]. }
  assert (Hpath : Py.truthy (Url.path (Url.urlparse href)) = true
                  /\ Py.startswith "/" (Url.path (Url.urlparse href)) = true).
  { apply startswith_spec in Hp as [r ->]. split; reflexivity. }
  destruct Hpath as [Hpt Hps].
  destruct (urlparse_parts href) as (_ & Hsafe & _).
  unfold Url.urljoin.
  rewrite (urlparse_scheme_base_nonempty base Hb), Hhref; cbn [negb]; cbv zeta.
  rewrite (urlparse_with_relative href _ Hb Hs).
  cbn [Url.scheme Url.netloc Url.path Url.params Url.query Url.fragment].
  rewrite String.eqb_refl, Hn, Hpt, Hps.
  remember (Url.urlparse base) as b eqn:Eb. remember (Url.urlparse href) as u eqn:Eu.
  assert (Hmem : Py.mem (Url.scheme b) Url.uses_relative = true
                 /\ Py.mem (Url.scheme b) Url.uses_netloc = true)
    by (destruct Hb as [-> | ->]; split; reflexivity).
  destruct Hmem as [-> ->]. cbn [negb orb andb Py.truthy].
  eexists. split; [reflexivity |].
  set (segs := Py.split "/" (Url.path u)).
  assert (Hsegs : Forall (fun w => Py.all_chars (fun c => negb (Url.unsafe_url_byte c)) w
                                   = true) segs)
    by (by apply split_all_chars).
  set (resolved := if (String.eqb (List.last segs "") ".")
                      || (String.eqb (List.last segs "") "..")
                   then Url.resolve_segments segs [] ++ [""]
                   else Url.resolve_segments segs []).
  assert (Hres : Forall (fun w => Py.all_chars (fun c => negb (Url.unsafe_url_byte c)) w
                                  = true) resolved).
  { unfold resolved.
    assert (H0 : Forall (fun w => Py.all_chars (fun c => negb (Url.unsafe_url_byte c)) w
                                  = true) (Url.resolve_segments segs []))
      by (apply resolve_segments_all_chars; [exact Hsegs | constructor]).
    destruct (_ || _); [| exact H0].
    apply Forall_app. split; [exact H0 | by repeat constructor]. }
  destruct (Py.truthy (Py.join "/" resolved)) eqn:Ej.
  - split; [by apply truthy_true |].
    unfold safe. by apply join_all_chars.
  - split; [discriminate | reflexivity].
Qed.

Lemma remove_unsafe_safe s : safe s -> Url.remove_unsafe s = s.
Proof. apply filter_chars_all. Qed.

(** A URL written as scheme, [://], authority and a rest that starts with a
    slash is read back with that scheme and that authority. *)
Lemma urlparse_built sb nb tail :
  sb = "http" \/ sb = "https" ->
  no_delim nb -> safe nb -> safe tail ->
  (exists t, tail = String "/" t) ->
  Url.scheme (Url.urlparse (sb +:+ ":" +:+ "//" +:+ nb +:+ tail)) = sb
  /\ Url.netloc (Url.urlparse (sb +:+ ":" +:+ "//" +:+ nb +:+ tail)) = nb.
Proof.
  intros Hsb Hnd Hsn Hst [t Ht].
  assert (Hrest : safe (nb +:+ tail)).
  { unfold safe in *. by rewrite all_chars_app, Hsn, Hst. }
  assert (Hspan : Url.span_netloc (nb +:+ tail) = (nb, tail)).
  { apply span_netloc_app; [exact Hnd |]. right. exists "/"%char, t. by split. }
  assert (Hgoal : forall lit,
             (lit = "http" \/ lit = "https") ->
             Url.urlsplit (lit +:+ ":" +:+ "//" +:+ nb +:+ tail) ""
             = (let '(nl, p, q, frag) := Url.split_rest ("//" +:+ nb +:+ tail) in
                (lit, nl, p, q, frag))).
  { intros lit Hlit. unfold Url.urlsplit.
    assert (Hl : Py.lstrip Url.c0_control_or_space (lit +:+ ":" +:+ "//" +:+ nb +:+ tail)
                 = lit +:+ ":" +:+ "//" +:+ nb +:+ tail)
      by (destruct Hlit as [-> | ->]; reflexivity).
    rewrite Hl.
    assert (Hr : Url.remove_unsafe (lit +:+ ":" +:+ "//" +:+ nb +:+ tail)
                 = lit +:+ ":" +:+ "//" +:+ nb +:+ tail).
    { apply remove_unsafe_safe. unfold safe in *.
      rewrite !all_chars_app, Hsn, Hst. by destruct Hlit as [-> | ->]. }
    rewrite Hr.
    assert (Hsch : Url.split_scheme (lit +:+ ":" +:+ "//" +:+ nb +:+ tail)
                   = Some (lit, "//" +:+ nb +:+ tail))
      by (destruct Hlit as [-> | ->]; reflexivity).
    by rewrite Hsch. }
  assert (Hnl : fst (fst (fst (Url.split_rest ("//" +:+ nb +:+ tail)))) = nb).
  { unfold Url.split_rest.
    change (Py.startswith "//" ("//" +:+ nb +:+ tail)) with true. cbv iota.
    unfold Url.splitnetloc.
    change (Py.drop_str 2 ("//" +:+ nb +:+ tail)) with (nb +:+ tail).
    rewrite Hspan.
    destruct (if Py.has_char "#" tail then Py.split_once "#" tail else (tail, ""))
      as [u2 frag].
    destruct (if Py.has_char "?" u2 then Py.split_once "?" u2 else (u2, "")) as [u3 q].
    reflexivity. }
  unfold Url.urlparse, Url.urlparse_with. rewrite (Hgoal sb Hsb).
  destruct (Url.split_rest ("//" +:+ nb +:+ tail)) as [[[nl p] q] frag].
  cbn [fst] in Hnl. subst nl.
  destruct (Py.mem sb Url.uses_params && Py.has_char ";" p);
    [destruct (Url.splitparams p) |]; by split.
Qed.

(** What [urlunparse] writes for an http(s) URL with a host and a path. *)
Lemma urlunparse_form sb nb p prm q :
  sb = "http" \/ sb = "https" -> nb <> "" -> p <> "" ->
  safe p -> safe prm -> safe q ->
  exists tail t,
    Url.urlunparse (Url.mkParseResult sb nb p prm q "")
    = sb +:+ ":" +:+ "//" +:+ nb +:+ tail
    /\ tail = String "/" t
    /\ safe tail.
Proof.
  intros Hsb Hnb Hp Hsp Hsprm Hsq.
  unfold Url.urlunparse, Url.urlunsplit.
  cbn [Url.scheme Url.netloc Url.path Url.params Url.query Url.fragment].
  apply truthy_true in Hnb. rewrite Hnb. cbn [orb].
  assert (Htsb : Py.truthy sb = true) by (by destruct Hsb as [-> | ->]).
  rewrite Htsb. change (Py.truthy "") with false. cbv iota.
  set (url0 := if Py.truthy prm then p +:+ ";" +:+ prm else p).
  assert (H0 : url0 <> "" /\ safe url0).
  { unfold url0, safe in *. destruct (Py.truthy prm).
    - split; [by destruct p | by rewrite !all_chars_app, Hsp, Hsprm].
    - by split. }
  destruct H0 as [Hu0 Hsu0]. apply truthy_true in Hu0. rewrite Hu0. cbn [andb].
  set (url' := if negb (Py.startswith "/" url0) then "/" +:+ url0 else url0).
  assert (H1 : exists t, url' = String "/" t /\ safe url').
  { unfold url'. destruct (Py.startswith "/" url0) eqn:E; cbn [negb].
    - apply startswith_spec in E as [r Hr]. exists r. split; [by rewrite Hr | exact Hsu0].
    - exists url0. split; [reflexivity |]. unfold safe in *.
      by rewrite all_chars_app, Hsu0. }
  destruct H1 as (t & Ht & Hsu').
  destruct (Py.truthy q).
  - exists (url' +:+ "?" +:+ q), (t +:+ "?" +:+ q). split; [| split].
    + by rewrite !str_app_assoc.
    + by rewrite Ht.
    + unfold safe in *. by rewrite !all_chars_app, Hsu', Hsq.
  - by exists url', t.
Qed.

Lemma urljoin_relative_same_site (base_url href : string) :
  Url.scheme (Url.urlparse base_url) = "http"
  \/ Url.scheme (Url.urlparse base_url) = "https" ->
  Url.netloc (Url.urlparse base_url) <> "" ->
  Url.scheme (Url.urlparse href) = "" ->
  Url.netloc (Url.urlparse href) = "" ->
  WikiLinkParser.is_wiki_article href = true ->
  Url.scheme (Url.urlparse (Url.urljoin base_url href)) = Url.scheme (Url.urlparse base_url)
  /\ Url.netloc (Url.urlparse (Url.urljoin base_url href))
     = Url.netloc (Url.urlparse base_url).
Proof.
  intros Hb Hnb Hs Hn Hw.
  apply is_wiki_article_iff in Hw as (Hf & Hp & _).
  destruct (urljoin_site_relative_path base_url href Hb Hs Hn Hp) as (p & Heq & Hpne & Hps).
  destruct (urlparse_parts href) as (_ & _ & Hprm & Hq & _).
  destruct (urlparse_parts base_url) as (Hsnb & _ & _ & _ & Hnd).
  rewrite Heq, Hf.
  destruct (urlunparse_form _ _ p _ _ Hb Hnb Hpne Hps Hprm Hq) as (tail & t & Hform & Ht & Hst).
  rewrite Hform.
  apply urlparse_built; try assumption. by exists t.
Qed.

(** X18.  A link without scheme and host stays on the site: when the base
    is an http or https URL with a host, and an href that [is_wiki_article]
    accepts names no scheme and no host of its own, the URL that
    [handle_starttag] adds, [urljoin(base_url, href)], parses back to the
    scheme and the host of the base. *)
Theorem relative_link_keeps_host (base_url href : string) :
  Url.scheme (Url.urlparse base_url) = "http"
  \/ Url.scheme (Url.urlparse base_url) = "https" ->
  Url.netloc (Url.urlparse base_url) <> "" ->
  Url.scheme (Url.urlparse href) = "" ->
  Url.netloc (Url.urlparse href) = "" ->
  WikiLinkParser.is_wiki_article href = true ->
  Url.scheme (Url.urlparse (Url.urljoin base_url href)) = Url.scheme (Url.urlparse base_url)
  /\ Url.netloc (Url.urlparse (Url.urljoin base_url href))
     = Url.netloc (Url.urlparse base_url).
Proof. apply urljoin_relative_same_site. Qed.

Lemma relative_link_keeps_host_witness :
  (Url.scheme (Url.urlparse "https://ru.wikipedia.org/wiki/A") = "http"
   \/ Url.scheme (Url.urlparse "https://ru.wikipedia.org/wiki/A") = "https")
  /\ Url.urljoin "https://ru.wikipedia.org/wiki/A" "/wiki/Example;v?action=raw"
     = "https://ru.wikipedia.org/wiki/Example;v?action=raw"
  /\ Url.scheme (Url.urlparse (Url.urljoin "https://ru.wikipedia.org/wiki/A"
                                           "/wiki/Example;v?action=raw"))
     = Url.scheme (Url.urlparse "https://ru.wikipedia.org/wiki/A")
  /\ Url.netloc (Url.urlparse (Url.urljoin "https://ru.wikipedia.org/wiki/A"
                                           "/wiki/Example;v?action=raw"))
     = Url.netloc (Url.urlparse "https://ru.wikipedia.org/wiki/A").
Proof.
  assert (H : Url.scheme (Url.urlparse "https://ru.wikipedia.org/wiki/A") = "http"
              \/ Url.scheme (Url.urlparse "https://ru.wikipedia.org/wiki/A") = "https")
    by (right; reflexivity).
  split; [exact H |]. split; [reflexivity |].
  apply (relative_link_keeps_host "https://ru.wikipedia.org/wiki/A"
           "/wiki/Example;v?action=raw" H);
    [discriminate | reflexivity | reflexivity | reflexivity].
Defined.

(** ** Staying on the site *)

Lemma parse_links_same_site seed html_content current_url l :
  Url.scheme (Url.urlparse seed) = "http" \/ Url.scheme (Url.urlparse seed) = "https" ->
  Url.netloc (Url.urlparse seed) <> "" ->
  same_site seed current_url ->
  relative_page html_content ->
  l ∈ parse_links html_content current_url ->
  same_site seed l.
Proof.
  intros Hsch Hnl [Hs Hn] Hrel Hl.
  apply elem_of_parse_links in Hl as (href & (attrs & Hin & Hd & _ & Hw) & ->).
  destruct (Hrel attrs href Hin Hd) as [Hrs Hrn].
  destruct (urljoin_relative_same_site current_url href) as [H1 H2];
    try assumption; try congruence.
  split; congruence.
Qed.

Lemma site_inv_boot file seed md n : site_inv seed (boot file seed md n).
Proof.
  split; simpl; [constructor; [by split | constructor] | constructor | constructor].
Qed.

Lemma site_inv_step seed e s s' :
  Url.scheme (Url.urlparse seed) = "http" \/ Url.scheme (Url.urlparse seed) = "https" ->
  Url.netloc (Url.urlparse seed) <> "" ->
  relative_event e ->
  site_inv seed s -> step e s = Some s' -> site_inv seed s'.
Proof.
  intros Hsch Hnl He [Hq Hw Ht] Hstep. destruct e as [w response| | |w].
  - apply step_Run_inv in Hstep as (pc & pc' & c' & o & Hpc & Hws & ->).
    pose proof (Forall_lookup_1 _ _ _ _ Hw Hpc) as Hd.
    worker_cases Hws; simpl in Hd.
    all: try (split; simpl;
              [ assumption
              | by apply Forall_insert
              | first [assumption | by constructor] ]).
    + (* get, queue empty *)
      split; simpl; [| by apply Forall_insert | assumption].
      match goal with H : queue _ = _ |- _ => by rewrite H end.
    + (* get *)
      apply Forall_cons in Hq as [Hhd Htl].
      split; simpl; [assumption | by apply Forall_insert | assumption].
    + (* fetch returns *)
      split; simpl; [assumption | | by constructor].
      apply Forall_insert; [assumption |]. simpl. split; [assumption |].
      intros l Hl. by eapply parse_links_same_site.
    + (* mark_visited: the URL is added to the set *)
      destruct Hd as [Hu Hls].
      split; simpl; [assumption | | by constructor].
      apply Forall_insert; [assumption |]. simpl.
      apply Forall_forall. intros l Hl. apply Hls. by apply elem_of_elements.
    + (* put, link already visited *)
      apply Forall_cons in Hd as [Hl Hrest].
      split; simpl; [assumption | by apply Forall_insert | assumption].
    + (* put *)
      apply Forall_cons in Hd as [Hl Hrest].
      split; simpl; [| by apply Forall_insert | assumption].
      apply Forall_app. split; [assumption |]. constructor; [exact Hl | constructor].
  - assert (Hsame : forall ws m, Forall (pc_same_site seed) ws ->
                                 site_inv seed (mkSystem (crawler s) ws m (trace s)))
      by (intros ws m H; by split).
    simpl in Hstep. unfold main_step in Hstep. destruct (main s).
    + destruct (_ <? _)%nat; injection Hstep as <-; apply Hsame; [| exact Hw].
      apply Forall_app. split; [exact Hw | by constructor].
    + destruct (queue (crawler s)) eqn:Eq; injection Hstep as <-;
        [by apply Hsame | split; rewrite ?Eq; done].
    + destruct (workers s !! i) as [[]|]; injection Hstep as <-;
        first [by split | by apply Hsame].
    + discriminate.
    + discriminate.
  - simpl in Hstep. unfold interrupt_step in Hstep.
    destruct (main s); try discriminate; injection Hstep as <-; by split.
  - apply step_Raise_inv in Hstep as (pc & pc' & c' & o & Hpc & Hws & ->).
    pose proof (Forall_lookup_1 _ _ _ _ Hw Hpc) as Hd.
    except_cases Hws; simpl in Hd;
      (split; simpl;
       [ assumption
       | by apply Forall_insert
       | first [assumption | by constructor] ]).
Qed.

(** X19.  A crawl over pages with site-relative links stays on the site of
    the seed: when the seed is an http or https URL with a host and every
    page fetched in the run has only anchors whose href names no scheme and
    no host, then every URL a worker fetches and every URL on the queue has
    the scheme and the host of the seed. *)
Theorem crawl_stays_on_site (file : option database) (seed : string) (md : Z)
        (n : nat) (es : list event) (s : system) :
  Url.scheme (Url.urlparse seed) = "http" \/ Url.scheme (Url.urlparse seed) = "https" ->
  Url.netloc (Url.urlparse seed) <> "" ->
  Forall relative_event es ->
  run es (boot file seed md n) = Some s ->
  (forall w url depth ok, Fetch w url depth ok ∈ trace s -> same_site seed url)
  /\ (forall url depth, (url, depth) ∈ queue (crawler s) -> same_site seed url).
Proof.
  intros Hsch Hnl Hes Hrun.
  assert (Hinv : site_inv seed s).
  { eapply (run_invariant_when relative_event (site_inv seed));
      [| exact Hes | apply site_inv_boot | exact Hrun].
    intros e s0 s1. by apply site_inv_step. }
  destruct Hinv as [Hq _ Ht]. split.
  - intros w url depth ok Hin. by apply (proj1 (Forall_forall _ _) Ht) in Hin.
  - intros url depth Hin. by apply (proj1 (Forall_forall _ _) Hq) in Hin.
Qed.

Lemma relative_page_nil : relative_page [].
Proof. intros attrs href Hin. by apply elem_of_nil in Hin. Qed.

Lemma relative_page_cons href0 html_content :
  Url.scheme (Url.urlparse href0) = "" /\ Url.netloc (Url.urlparse href0) = "" ->
  relative_page html_content ->
  relative_page (anchor href0 :: html_content).
Proof.
  intros H0 Hrest attrs href Hin Hd.
  apply elem_of_cons in Hin as [Heq | Hin]; [| by eapply Hrest].
  injection Heq as ->. injection Hd as <-. exact H0.
Qed.

Lemma crawl_stays_on_site_witness :
  (Url.scheme (Url.urlparse url_A) = "http" \/ Url.scheme (Url.urlparse url_A) = "https")
  /\ Url.netloc (Url.urlparse url_A) <> ""
  /\ Forall relative_event race_run
  /\ run race_run (boot None url_A 6 2)
     = Some (state_after race_run (boot None url_A 6 2))
  /\ (forall w url depth ok,
         Fetch w url depth ok ∈ trace (state_after race_run (boot None url_A 6 2)) ->
         same_site url_A url).
Proof.
  assert (H1 : Url.scheme (Url.urlparse url_A) = "http"
               \/ Url.scheme (Url.urlparse url_A) = "https") by (right; reflexivity).
  assert (H2 : Url.netloc (Url.urlparse url_A) <> "") by discriminate.
  assert (HA : relative_page page_A).
  { repeat (apply relative_page_cons; [split; reflexivity |]). apply relative_page_nil. }
  assert (HC : relative_page page_C).
  { repeat (apply relative_page_cons; [split; reflexivity |]). apply relative_page_nil. }
  assert (HB : relative_page page_B) by apply relative_page_nil.
  assert (H3 : Forall relative_event race_run).
  { unfold race_run, moves. simpl.
    repeat (constructor; [first [exact I | exact HA | exact HC | exact HB] |]).
    constructor. }
  assert (H : run race_run (boot None url_A 6 2)
              = Some (state_after race_run (boot None url_A 6 2)))
    by (vm_compute; reflexivity).
  split; [exact H1 |]. split; [exact H2 |]. split; [exact H3 |]. split; [exact H |].
  exact (proj1 (crawl_stays_on_site None url_A 6 2 race_run _ H1 H2 H3 H)).
Defined.

(** ** When the work is done *)

Lemma idle_inv_step s0 e s s' :
  idle_inv s0 s -> step e s = Some s' -> idle_inv s0 s'.
Proof.
  intros [Hq Hw Hc Hv Ht Hu Htr] Hstep. destruct e as [w response| | |w].
  - apply step_Run_inv in Hstep as (pc & pc' & c' & o & Hpc & Hws & ->).
    pose proof (Forall_lookup_1 _ _ _ _ Hw Hpc) as Hd.
    destruct Hd as [-> | [-> | ->]]; cbn [worker_step] in Hws.
    + destruct (stop_event (crawler s)); injection Hws as <- <- <-;
        (split; simpl; try assumption; apply Forall_insert; [assumption |]);
        [by right; right | by right; left].
    + rewrite Hq in Hws. injection Hws as <- <- <-.
      split; simpl; try assumption. apply Forall_insert; [assumption | by left].
    + discriminate.
  - simpl in Hstep. unfold main_step in Hstep. destruct (main s).
    + destruct (_ <? _)%nat; injection Hstep as <-; split; simpl; try assumption.
      apply Forall_app. split; [assumption |]. constructor; [by left | constructor].
    + rewrite Hq in Hstep. injection Hstep as <-. by split.
    + destruct (workers s !! i) as [[]|]; injection Hstep as <-; by split.
    + discriminate.
    + discriminate.
  - simpl in Hstep. unfold interrupt_step in Hstep.
    destruct (main s); try discriminate; injection Hstep as <-; by split.
  - apply step_Raise_inv in Hstep as (pc & pc' & c' & o & Hpc & Hws & ->).
    pose proof (Forall_lookup_1 _ _ _ _ Hw Hpc) as Hd.
    destruct Hd as [-> | [-> | ->]]; discriminate Hws.
Qed.

(** X20.  When the work is done it stays done: from a state in which the
    queue is empty and no worker holds an item, whatever the threads do next
    (Ctrl-C included, be it while [crawl] polls the queue or while it waits
    in [join]), the queue stays empty, no worker takes up an item, nothing is
    fetched or marked, and both tables, the visited set and the two counters
    stay as they are. *)
Theorem idle_crawl_is_stable (es : list event) (s s' : system) :
  queue (crawler s) = [] ->
  Forall idle_pc (workers s) ->
  run es s = Some s' ->
  queue (crawler s') = []
  /\ Forall idle_pc (workers s')
  /\ trace s' = trace s
  /\ conn (crawler s') = conn (crawler s)
  /\ visited (crawler s') = visited (crawler s)
  /\ total_links_processed (crawler s') = total_links_processed (crawler s)
  /\ unfinished_tasks (crawler s') = unfinished_tasks (crawler s).
Proof.
  intros Hq Hw Hrun.
  assert (Hinv : idle_inv s s').
  { revert Hrun. apply run_invariant; [apply idle_inv_step | by split]. }
  by destruct Hinv.
Qed.

(** Ctrl-C while [crawl] waits in [join]: [crawl] is left, the stop flag
    is still down and the workers go on polling the empty queue. *)
Example interrupt_during_join :
  run (completed_run ++ [KeyboardInterrupt] ++ moves 0 2 ++ moves 1 2) (boot None url_A 6 2)
  = Some (mkSystem (crawler (state_after completed_run (boot None url_A 6 2)))
                   [AtLoop; AtLoop] Aborted
                   (trace (state_after completed_run (boot None url_A 6 2))))
  /\ stop_event (crawler (state_after completed_run (boot None url_A 6 2))) = false.
Proof. split; vm_compute; reflexivity. Qed.

Lemma idle_crawl_is_stable_witness :
  queue (crawler (state_after full_run (boot None url_A 6 2))) = []
  /\ Forall idle_pc (workers (state_after full_run (boot None url_A 6 2)))
  /\ run ([Tick; Tick; Tick] ++ moves 0 4 ++ moves 1 4 ++ [Tick])
         (state_after full_run (boot None url_A 6 2))
     = Some (state_after completed_run (boot None url_A 6 2))
  /\ trace (state_after completed_run (boot None url_A 6 2))
     = trace (state_after full_run (boot None url_A 6 2))
  /\ conn (crawler (state_after completed_run (boot None url_A 6 2)))
     = conn (crawler (state_after full_run (boot None url_A 6 2))).
Proof.
  assert (H1 : queue (crawler (state_after full_run (boot None url_A 6 2))) = [])
    by (vm_compute; reflexivity).
  assert (H2 : Forall idle_pc (workers (state_after full_run (boot None url_A 6 2)))).
  { assert (E : workers (state_after full_run (boot None url_A 6 2)) = [AtLoop; AtLoop])
      by (vm_compute; reflexivity).
    rewrite E. repeat constructor; by left. }
  assert (H3 : run ([Tick; Tick; Tick] ++ moves 0 4 ++ moves 1 4 ++ [Tick])
                   (state_after full_run (boot None url_A 6 2))
               = Some (state_after completed_run (boot None url_A 6 2)))
    by (vm_compute; reflexivity).
  split; [exact H1 |]. split; [exact H2 |]. split; [exact H3 |].
  pose proof (idle_crawl_is_stable _ _ _ H1 H2 H3) as (_ & _ & Ht & Hc & _).
  split; [exact Ht | exact Hc].
Defined.

(** ** Several href attributes *)

Lemma dict_get_snoc key (attrs : attrs_t) (v : option string) :
  dict_get key (attrs ++ [(key, v)]) = v.
Proof.
  unfold dict_get. rewrite fold_left_app. simpl. by rewrite String.eqb_refl.
Qed.

Lemma dict_get_absent key (attrs : attrs_t) :
  Forall (fun kv => fst kv <> key) attrs -> dict_get key attrs = None.
Proof.
  unfold dict_get.
  enough (H : forall acc : option string,
             Forall (fun kv => fst kv <> key) attrs ->
             fold_left (fun acc kv => if String.eqb (fst kv) key then snd kv else acc)
                       attrs acc = acc) by apply H.
  induction attrs as [|[k v] attrs IH]; intros acc Hall; [reflexivity |].
  apply Forall_cons in Hall as [Hk Hall]. simpl in *.
  apply String.eqb_neq in Hk. rewrite Hk. by apply IH.
Qed.

Lemma fold_get_absent key (attrs : attrs_t) : forall acc : option string,
  Forall (fun kv => fst kv <> key) attrs ->
  fold_left (fun acc kv => if String.eqb (fst kv) key then snd kv else acc) attrs acc = acc.
Proof.
  induction attrs as [|[k v] attrs IH]; intros acc Hall; [reflexivity |].
  apply Forall_cons in Hall as [Hk Hall]. simpl in *.
  apply String.eqb_neq in Hk. rewrite Hk. by apply IH.
Qed.

(** [dict(attrs).get(key)] is the value of the last pair with that key. *)
Lemma dict_get_last key (pre post : attrs_t) (v : option string) :
  Forall (fun kv => fst kv <> key) post ->
  dict_get key (pre ++ (key, v) :: post) = v.
Proof.
  intros Hall. unfold dict_get. rewrite fold_left_app. cbn [fold_left fst snd].
  rewrite String.eqb_refl. by apply fold_get_absent.
Qed.

(** X21.  Of several href attributes of one tag the last one decides,
    wherever it stands among the other attributes, and a tag without any href
    attribute adds nothing: [handle_starttag] on attributes whose last href
    is [v] behaves as on that href alone, and on attributes none of which is
    an href it leaves the links as they are. *)
Theorem handle_starttag_last_href (base_url : string) (links : gset string)
        (tag : string) (pre post : attrs_t) (v : option string) :
  (Forall (fun kv => fst kv <> "href") post ->
   WikiLinkParser.handle_starttag base_url links tag (pre ++ ("href", v) :: post)
   = WikiLinkParser.handle_starttag base_url links tag [("href", v)])
  /\ (Forall (fun kv => fst kv <> "href") pre ->
      WikiLinkParser.handle_starttag base_url links tag pre = links).
Proof.
  unfold WikiLinkParser.handle_starttag. split.
  - intros Hall. rewrite (dict_get_last "href" pre post v Hall). reflexivity.
  - intros Hall. rewrite (dict_get_absent "href" pre Hall). by destruct (String.eqb tag "a").
Qed.

(** Of [<a href="/wiki/A" href="/wiki/B" title="t">] the link to B is
    taken. *)
Lemma handle_starttag_last_href_witness :
  WikiLinkParser.handle_starttag "https://ru.wikipedia.org" ∅ "a"
    [("href", Some "/wiki/A"); ("href", Some "/wiki/B"); ("title", Some "t")]
  = WikiLinkParser.handle_starttag "https://ru.wikipedia.org" ∅ "a"
      [("href", Some "/wiki/B")].
Proof.
  apply (proj1 (handle_starttag_last_href "https://ru.wikipedia.org" ∅ "a"
                  [("href", Some "/wiki/A")] [("title", Some "t")] (Some "/wiki/B"))).
  repeat constructor. discriminate.
Defined.

(** ** The assertions of test_main.py on the functions modelled here *)

Example test_is_wiki_article :
  WikiLinkParser.is_wiki_article "/wiki/Example" = true
  /\ WikiLinkParser.is_wiki_article "/wiki/Special:Random" = false
  /\ WikiLinkParser.is_wiki_article "/w/index.php?title=Page" = false
  /\ WikiLinkParser.is_wiki_article "#fragment" = false.
Proof. repeat split; reflexivity. Qed.

Example test_handle_starttag :
  "https://ru.wikipedia.org/wiki/Example"
    ∈ WikiLinkParser.handle_starttag "https://ru.wikipedia.org" ∅ "a"
        [("href", Some "/wiki/Example")].
Proof.
  apply elem_of_handle_starttag. right. exists "/wiki/Example".
  repeat split; try reflexivity. discriminate.
Qed.

Example test_parse_links :
  parse_links [anchor "/wiki/Article1"; anchor "/wiki/Special:Random";
               anchor "/wiki/Article2"] "https://ru.wikipedia.org"
  = {[ "https://ru.wikipedia.org/wiki/Article1"; "https://ru.wikipedia.org/wiki/Article2" ]}.
Proof.
  apply set_eq. intros u. rewrite elem_of_parse_links, elem_of_union, !elem_of_singleton.
  split.
  - intros (href & (attrs & Hin & Hd & _ & Hw) & ->).
    repeat (apply elem_of_cons in Hin as [Heq | Hin];
            [injection Heq as ->; injection Hd as <-;
             first [by left | by right | discriminate Hw] |]).
    by apply elem_of_nil in Hin.
  - intros [-> | ->].
    + exists "/wiki/Article1". split; [| reflexivity].
      exists [("href", Some "/wiki/Article1")].
      split; [by left |]. repeat split; try reflexivity. discriminate.
    + exists "/wiki/Article2". split; [| reflexivity].
      exists [("href", Some "/wiki/Article2")].
      split; [by right; right; left |]. repeat split; try reflexivity. discriminate.
Qed.

Example test_is_valid_wikipedia_url :
  is_valid_wikipedia_url "https://ru.wikipedia.org/wiki/Example" = true
  /\ is_valid_wikipedia_url "https://google.com" = false
  /\ is_valid_wikipedia_url "ftp://ru.wikipedia.org/wiki/Example" = false.
Proof. repeat split; reflexivity. Qed.

Example test_crawler_initialization :
  let c := Crawler_init None "https://ru.wikipedia.org/wiki/Example" 1 2 in
  start_url c = "https://ru.wikipedia.org/wiki/Example"
  /\ max_depth c = 1 /\ num_threads c = 2%nat
  /\ queue c = [("https://ru.wikipedia.org/wiki/Example", 0)].
Proof. repeat split; reflexivity. Qed.
